(** * hf_downloader: the cache-aware parallel retrieval engine

    A shallow embedding of [hfdownloader/downloader.go] and the properties
    its specification states about it.

    The Go code talks to the operating system and to the network at every
    other line.  Each such call is an event of the signature [osE]; a Go
    function is a program [prog R] over that signature, written in the order
    of the source; an environment is a handler that answers the events.  The
    general theorems hold for every handler, hence for every behaviour of the
    file system and of the remote hub.  A reference environment ([World], a
    small POSIX-like file system with a remote hub) runs the programs on
    concrete inputs. *)

From Stdlib Require Import ZArith Lia Ascii String.
From stdpp Require Import base option list strings pretty gmap.

Open Scope string_scope.
Open Scope Z_scope.
Open Scope list_scope.

(** ** Strings and paths (package [strings], [path], [path/filepath], Unix) *)

Module Path.

Definition slash : ascii := "/"%char.

(** [strings.Split(s, sep)] for a one-character separator. *)
Fixpoint Split (sep : ascii) (s : string) : list string :=
  match s with
  | EmptyString => [EmptyString]
  | String c s' =>
      if Ascii.eqb c sep then EmptyString :: Split sep s'
      else match Split sep s' with
           | [] => [String c EmptyString]
           | w :: ws => String c w :: ws
           end
  end.

(** [strings.Join(elems, sep)]. *)
Fixpoint Join_with (sep : string) (elems : list string) : string :=
  match elems with
  | [] => ""
  | [e] => e
  | e :: rest => e +:+ sep +:+ Join_with sep rest
  end.

Definition rooted (p : string) : bool :=
  match p with
  | String c _ => Ascii.eqb c slash
  | EmptyString => false
  end.

(** The element loop of [Clean]: [out] is the stack of elements kept so
    far, innermost first.  A [..] pops the element before it, is dropped at
    the root, and is kept at the head of a relative path. *)
Fixpoint clean_elems (root : bool) (out : list string) (elems : list string)
  : list string :=
  match elems with
  | [] => rev out
  | e :: rest =>
      if String.eqb e "" || String.eqb e "." then clean_elems root out rest
      else if String.eqb e ".." then
        match out with
        | top :: out' =>
            if String.eqb top ".." then clean_elems root (e :: out) rest
            else clean_elems root out' rest
        | [] => if root then clean_elems root [] rest
                else clean_elems root [e] rest
        end
      else clean_elems root (e :: out) rest
  end.

(** [filepath.Clean]. *)
Definition Clean (p : string) : string :=
  if String.eqb p "" then "."
  else
    let es := clean_elems (rooted p) [] (Split slash p) in
    if rooted p then "/" +:+ Join_with "/" es
    else match es with [] => "." | _ => Join_with "/" es end.

(** [filepath.Join]: the elements from the first non-empty one on, joined
    with the separator and cleaned; the empty string when all are empty. *)
Fixpoint Join (elems : list string) : string :=
  match elems with
  | [] => ""
  | e :: rest =>
      if String.eqb e "" then Join rest else Clean (Join_with "/" elems)
  end.

(** The part of [p] up to and including its last separator. *)
Fixpoint dir_part (p : string) : string :=
  match p with
  | EmptyString => ""
  | String c p' =>
      let d := dir_part p' in
      if String.eqb d "" then
        (if Ascii.eqb c slash then String c "" else "")
      else String c d
  end.

(** [filepath.Dir] and [path.Dir], which agree on Unix. *)
Definition Dir (p : string) : string := Clean (dir_part p).

Definition elems_of (p : string) : list string :=
  filter (λ e, e ≠ "") (Split slash p).

Fixpoint strip_common (b t : list string) : list string * list string :=
  match b, t with
  | x :: b', y :: t' =>
      if String.eqb x y then strip_common b' t' else (b, t)
  | _, _ => (b, t)
  end.

(** [filepath.Rel(basepath, targpath)]: [None] is its error result. *)
Definition Rel (basepath targpath : string) : option string :=
  let base := Clean basepath in
  let targ := Clean targpath in
  if String.eqb targ base then Some "."
  else
    let base := if String.eqb base "." then "" else base in
    if negb (Bool.eqb (rooted base) (rooted targ)) then None
    else
      let '(b, t) := strip_common (elems_of base) (elems_of targ) in
      match b with
      | [] => Some (Join_with "/" t)
      | x :: _ =>
          if String.eqb x ".." then None
          else Some (Join_with "/" (((λ _, "..") <$> b) ++ t))
      end.

(** [strings.ReplaceAll(s, "/", string(os.PathSeparator))]: on Unix the
    separator is the slash itself. *)
Definition to_native (s : string) : string :=
  Join_with (String slash "") (Split slash s).

End Path.

Global Arguments Path.Clean : simpl never.
Global Arguments Path.Join : simpl never.
Global Arguments Path.Dir : simpl never.
Global Arguments Path.Rel : simpl never.
Global Arguments Path.to_native : simpl never.

(** ** Values of the Go program *)

(** Go [error] values.  An error that the operating system, the transport or
    a library hands to the program is opaque ([OSErr]); the errors the
    program builds itself keep their shape: [Errorf msg cause] is
    [fmt.Errorf(msg + ": %w", cause)], and the other constructors are the
    three status errors and the size check of [downloadWithProgress]. *)
Inductive error : Type :=
| OSErr (msg : string)
| Errorf (msg : string) (cause : error)
| ErrApiStatus (code : Z) (body : string)
| ErrHeadStatus (code : Z)
| ErrBadStatus (status : string)
| ErrSizeMismatch (got expected : Z).

Global Instance error_eq_dec : EqDecision error.
Proof. solve_decision. Defined.

(** What one [Read] on a response body returns besides the bytes. *)
Inductive read_err : Type :=
| RNil
| REOF
| RErr (e : error).

(** One [resp.Body.Read(buffer)]: the bytes placed in the buffer and the
    error returned with them. *)
Record ReadResult : Type := mkRead { rd_data : string; rd_err : read_err }.

(** An entry of the tree listing, as [getModelInfo] decodes it. *)
Record TreeEntry : Type := mkTreeEntry {
  te_Type : string;
  te_Path : string;
  te_Oid : string;
  te_Size : Z;
  te_LfsInfo : bool
}.

(** An entry of [ModelInfo.Siblings]. *)
Record Sibling : Type := mkSibling {
  RID : string;
  Size : Z;
  Blob : string;
  LFS : bool
}.

Record ModelInfo : Type := mkModelInfo { Siblings : list Sibling }.

Record HfFileMetadata : Type := mkMeta {
  md_CommitHash : string;
  md_Etag : string;
  md_Location : string;
  md_Size : Z
}.

(** A response body.  [reads] is the sequence of results that successive
    [Read] calls return, up to the first one that carries an error; a
    sequence that ends without one is continued by [(0, io.EOF)].
    [json_tree] is what [json.NewDecoder(body).Decode(&files)] makes of the
    body: the JSON grammar belongs to the library and is not modelled, so an
    environment supplies the bytes together with their decoding. *)
Record Body : Type := mkBody {
  reads : list ReadResult;
  json_tree : error + list TreeEntry
}.

Record Request : Type := mkRequest {
  Method : string;
  URL : string;
  ReqHeader : list (string * string)
}.

Record Response : Type := mkResponse {
  StatusCode : Z;
  Status : string;
  Header : gmap string (list string);
  RequestURL : string;
  RespBody : Body
}.

(** The lines the program prints, by the format string that prints them. *)
Inductive message : Type :=
| WarnRevisionRef (e : error)
| WarnPointerNoBlob (filename : string)
| MsgFileExists (filename : string)
| MsgDownloading (filename : string) (size : Z)
| WarnSymlinkCopy (e : error)
| MsgProcessed (filename : string)
| MsgProgressPercent (downloaded expected : Z)
| MsgProgressBytes (downloaded : Z)
| MsgNewline.

(** An open [*os.File]. *)
Definition file := nat.

(** The [Downloader] struct; its [client] field is the environment. *)
Record Downloader : Type := mkDownloader {
  customPath : string;
  ignorePatterns : list string
}.

Definition HF_API_URL : string := "https://huggingface.co/api".
Definition HF_TOKEN_ENV : string := "HF_TOKEN".
Definition DOWNLOAD_CHUNK_SIZE : Z := 8192.

(** ** The calls the program makes *)

(** Each constructor is a call of the standard library that reaches outside
    the program, indexed by the type of what it returns.  A Go result
    [(v, err)] is [inl err] or [inr v]; a lone [error] result is an
    [option error]. *)
Inductive osE : Type → Type :=
| Getenv (key : string) : osE string
| UserHomeDir : osE (error + string)
| MkdirAll (path : string) : osE (option error)
| MkdirTemp (dir pattern : string) : osE (error + string)
| Stat (path : string) : osE (option error)
| WriteFile (path data : string) : osE (option error)
| Create (path : string) : osE (error + file)
| OpenFile (path : string) : osE (error + file)
| FileWrite (f : file) (data : string) : osE (option error)
| FileClose (f : file) : osE (option error)
| Copy (dst src : file) : osE (Z * option error)
| Rename (oldpath newpath : string) : osE (option error)
| Remove (path : string) : osE (option error)
| RemoveAll (path : string) : osE (option error)
| Symlink (oldname newname : string) : osE (option error)
| HttpDo (req : Request) : osE (error + Response)
| Now : osE Z
| Printf (m : message) : osE unit.

(** A program: it returns, or makes a call and goes on with the answer. *)
Inductive prog (R : Type) : Type :=
| Ret (r : R)
| Vis {X : Type} (e : osE X) (k : X → prog R).

Arguments Ret {R} r.
Arguments Vis {R X} e k.

Fixpoint bind {A B : Type} (p : prog A) (f : A → prog B) : prog B :=
  match p with
  | Ret a => f a
  | Vis e k => Vis e (λ x, bind (k x) f)
  end.

Global Instance prog_ret : MRet prog := λ _ r, Ret r.
Global Instance prog_bind : MBind prog := λ _ _ f p, bind p f.

Definition call {X : Type} (e : osE X) : prog X := Vis e Ret.

(** [defer cleanup()] at the head of [body]: the cleanup runs when the body
    has produced the function's result. *)
Definition defer {R : Type} (cleanup : prog unit) (body : prog R) : prog R :=
  r ← body; _ ← cleanup; mret r.

Definition close (f : file) : prog unit := _ ← call (FileClose f); mret ().
Definition remove_all (path : string) : prog unit :=
  _ ← call (RemoveAll path); mret ().

(** ** Running a program *)

(** A call together with its answer. *)
Record event : Type := Call { ev_type : Type; ev_call : osE ev_type; ev_answer : ev_type }.
Arguments Call {ev_type} ev_call ev_answer.

(** An environment with states [S] answers every call and moves on. *)
Definition handler (S : Type) : Type := ∀ X : Type, osE X → S → X * S.

(** The result of [p] in the environment [h] from the state [s], the calls
    made with their answers, and the state reached. *)
Fixpoint exec {S R : Type} (h : handler S) (p : prog R) (s : S)
  : R * list event * S :=
  match p with
  | Ret r => (r, [], s)
  | Vis e k =>
      let '(x, s1) := h _ e s in
      let '(r, tr, s2) := exec h (k x) s1 in
      (r, Call e x :: tr, s2)
  end.

(** ** Library functions without effects *)

(** The program uses two pure library functions whose definitions are not
    part of the repository: package [regexp] and the URL check of
    [http.NewRequest].  The programs are written over any implementation. *)
Class GoLib : Type := {
  Regexp : Type;
  (** [regexp.Compile] *)
  regexp_Compile : string → error + Regexp;
  (** the method [MatchString] of a compiled expression *)
  regexp_MatchString : Regexp → string → bool;
  (** the error of [http.NewRequest(method, url, nil)], if any *)
  http_NewRequest_error : string → string → option error
}.

(** [http.NewRequest(method, url, nil)]. *)
Definition http_NewRequest `{GoLib} (method url : string) : error + Request :=
  match http_NewRequest_error method url with
  | Some e => inl e
  | None => inr (mkRequest method url [])
  end.

(** [req.Header.Add(key, value)]. *)
Definition Header_Add (req : Request) (key value : string) : Request :=
  mkRequest (Method req) (URL req) (ReqHeader req ++ [(key, value)]).

Definition upper (c : ascii) : ascii :=
  let n := nat_of_ascii c in
  if (97 <=? n)%nat && (n <=? 122)%nat then ascii_of_nat (n - 32) else c.

Definition lower (c : ascii) : ascii :=
  let n := nat_of_ascii c in
  if (65 <=? n)%nat && (n <=? 90)%nat then ascii_of_nat (n + 32) else c.

(** [textproto.CanonicalMIMEHeaderKey] on keys made of letters, digits and
    hyphens: a capital at the start and after each hyphen, small letters
    elsewhere. *)
Fixpoint canonical_from (start : bool) (key : string) : string :=
  match key with
  | EmptyString => EmptyString
  | String c rest =>
      String (if start then upper c else lower c)
             (canonical_from (Ascii.eqb c "-") rest)
  end.

Definition CanonicalHeaderKey (key : string) : string := canonical_from true key.

(** [resp.Header.Get(key)]: the first value under the canonical key, or the
    empty string. *)
Definition Header_Get (h : gmap string (list string)) (key : string) : string :=
  match h !! CanonicalHeaderKey key with
  | Some (v :: _) => v
  | _ => ""
  end.

Fixpoint drop_chars (n : nat) (s : string) : string :=
  match n, s with
  | S n', String _ s' => drop_chars n' s'
  | _, _ => s
  end.

(** [strings.TrimPrefix]. *)
Definition TrimPrefix (s pre : string) : string :=
  if String.prefix pre s then drop_chars (String.length pre) s else s.

Fixpoint trim_left (c : ascii) (s : string) : string :=
  match s with
  | String a s' => if Ascii.eqb a c then trim_left c s' else s
  | EmptyString => s
  end.

Fixpoint rev_string (acc s : string) : string :=
  match s with
  | EmptyString => acc
  | String a s' => rev_string (String a acc) s'
  end.

(** [strings.Trim(s, cutset)] for a one-character cutset. *)
Definition Trim (c : ascii) (s : string) : string :=
  rev_string "" (trim_left c (rev_string "" (trim_left c s))).

Definition dquote : ascii := ascii_of_nat 34.

Definition normalizeETag (etag : string) : string :=
  if String.eqb etag "" then ""
  else Trim dquote (TrimPrefix etag "W/").

Definition wrap64 (z : Z) : Z := (z + 2 ^ 63) mod 2 ^ 64 - 2 ^ 63.

Definition digit_of (c : ascii) : option Z :=
  let n := nat_of_ascii c in
  if (48 <=? n)%nat && (n <=? 57)%nat then Some (Z.of_nat (n - 48)) else None.

Definition is_space (c : ascii) : bool :=
  let n := nat_of_ascii c in
  (n =? 32)%nat || (n =? 9)%nat || (n =? 13)%nat || (n =? 10)%nat.

(** The digits at the head of [s] (an underscore counts as one for the
    scanner and spoils the number for the conversion). *)
Fixpoint scan_digits (s : string) (acc : option Z) (seen : bool)
  : option Z * bool :=
  match s with
  | String c s' =>
      match digit_of c with
      | Some d => scan_digits s' ((λ a, 10 * a + d) <$> acc) true
      | None =>
          if Ascii.eqb c "_" then scan_digits s' None true else (acc, seen)
      end
  | EmptyString => (acc, seen)
  end.

Fixpoint skip_spaces (s : string) : string :=
  match s with
  | String c s' => if is_space c then skip_spaces s' else s
  | EmptyString => s
  end.

(** [fmt.Sscanf(s, "%d", &size)] on a [size] that starts at zero: leading
    blanks, an optional sign, then digits; whatever follows is left unread.
    When there is no digit or the number does not fit 64 bits the scan fails
    and [size] keeps its zero. *)
Definition scan_int64 (s : string) : Z :=
  let s := skip_spaces s in
  let '(neg, s) :=
    match s with
    | String c s' =>
        if Ascii.eqb c "-" then (true, s')
        else if Ascii.eqb c "+" then (false, s') else (false, s)
    | EmptyString => (false, s)
    end in
  match scan_digits s (Some 0) false with
  | (Some v, true) =>
      let v := if neg then - v else v in
      if (- 2 ^ 63 <=? v) && (v <? 2 ^ 63) then v else 0
  | _ => 0
  end.

Definition parseInt64 (s : string) : Z :=
  if String.eqb s "" then 0 else scan_int64 s.

(** ** The program *)

Section Program.
Context `{GoLib}.

Definition StatusOK : Z := 200.

(** [t.Sub(u)] on readings of the clock in nanoseconds; a [Duration]
    saturates at the ends of its 64 bits. *)
Definition time_Sub (t u : Z) : Z := Z.max (- 2 ^ 63) (Z.min (2 ^ 63 - 1) (t - u)).

Definition progressInterval : Z := 1000000000.

(** The request with the bearer token of the environment, when one is set. *)
Definition with_token (req : Request) : prog Request :=
  token ← call (Getenv HF_TOKEN_ENV);
  mret (if String.eqb token "" then req
        else Header_Add req "Authorization" ("Bearer " +:+ token)).

Definition sibling_of (f : TreeEntry) : Sibling :=
  mkSibling (te_Path f) (te_Size f) (te_Oid f) (te_LfsInfo f).

(** The loop of [getModelInfo] over the decoded entries. *)
Fixpoint siblings_of (files : list TreeEntry) : list Sibling :=
  match files with
  | [] => []
  | f :: rest =>
      if String.eqb (te_Type f) "file"
      then sibling_of f :: siblings_of rest
      else siblings_of rest
  end.

(** Lines 284 to 290 of [getModelInfo]. *)
Definition commitHash_of (resp : Response) (files : list TreeEntry)
    (revision : string) : string :=
  let commitHash := Header_Get (Header resp) "X-Repo-Commit" in
  let commitHash :=
    match files with
    | f :: _ => if String.eqb commitHash "" then te_Oid f else commitHash
    | [] => commitHash
    end in
  if String.eqb commitHash "" then revision else commitHash.

(** [io.ReadAll(body)], its error dropped. *)
Fixpoint io_ReadAll (rs : list ReadResult) : string :=
  match rs with
  | [] => ""
  | r :: rest =>
      match rd_err r with
      | RNil => rd_data r +:+ io_ReadAll rest
      | _ => rd_data r
      end
  end.

Definition getModelInfo (modelRepo revision : string)
  : prog (error + (ModelInfo * string)) :=
  let url := HF_API_URL +:+ "/models/" +:+ modelRepo +:+ "/tree/" +:+ revision in
  match http_NewRequest "GET" url with
  | inl err => mret (inl (Errorf "error creating request" err))
  | inr req =>
      req ← with_token req;
      let req := Header_Add req "User-Agent" "huggingface-go/0.1" in
      r ← call (HttpDo req);
      match r with
      | inl err => mret (inl (Errorf "error making API request" err))
      | inr resp =>
          if negb (StatusCode resp =? StatusOK) then
            let bodyBytes := io_ReadAll (reads (RespBody resp)) in
            mret (inl (ErrApiStatus (StatusCode resp) bodyBytes))
          else
            match json_tree (RespBody resp) with
            | inl err => mret (inl (Errorf "error decoding API response" err))
            | inr files =>
                mret (inr (mkModelInfo (siblings_of files),
                           commitHash_of resp files revision))
            end
      end
  end.

Definition getFileMetadata (url : string) : prog (error + HfFileMetadata) :=
  match http_NewRequest "HEAD" url with
  | inl err => mret (inl (Errorf "error creating HEAD request" err))
  | inr req =>
      req ← with_token req;
      let req := Header_Add req "Accept-Encoding" "identity" in
      r ← call (HttpDo req);
      match r with
      | inl err => mret (inl (Errorf "error making HEAD request" err))
      | inr resp =>
          if negb (StatusCode resp =? StatusOK) then
            mret (inl (ErrHeadStatus (StatusCode resp)))
          else
            let etag := normalizeETag (Header_Get (Header resp) "X-Linked-Etag") in
            let etag :=
              if String.eqb etag ""
              then normalizeETag (Header_Get (Header resp) "ETag") else etag in
            mret (inr (mkMeta (Header_Get (Header resp) "X-Repo-Commit")
                              etag
                              (RequestURL resp)
                              (parseInt64 (Header_Get (Header resp) "Content-Length"))))
      end
  end.

Definition byte_count (data : string) : Z := Z.of_nat (String.length data).

(** The [for] loop of [downloadWithProgress], one [Read] per turn, from
    the byte count and the time of the last progress line so far.  It ends
    with the error it returns or with the bytes counted at [io.EOF]. *)
Fixpoint read_loop (out : file) (expectedSize : Z) (body : list ReadResult)
    (downloaded lastProgressUpdate : Z) : prog (error + Z) :=
  match body with
  | [] => mret (inr downloaded)
  | rd :: rest =>
      match rd_err rd with
      | RErr err => mret (inl (Errorf "error reading response" err))
      | eof =>
          let n := byte_count (rd_data rd) in
          r ← (if 0 <? n then
                 w ← call (FileWrite out (rd_data rd));
                 match w with
                 | Some err => mret (inl (Errorf "error writing to file" err))
                 | None =>
                     let downloaded := wrap64 (downloaded + n) in
                     now ← call Now;
                     if progressInterval <? time_Sub now lastProgressUpdate then
                       _ ← call (Printf (if 0 <? expectedSize
                                         then MsgProgressPercent downloaded expectedSize
                                         else MsgProgressBytes downloaded));
                       now ← call Now;
                       mret (inr (downloaded, now))
                     else mret (inr (downloaded, lastProgressUpdate))
                 end
               else mret (inr (downloaded, lastProgressUpdate)));
          match r with
          | inl err => mret (inl err)
          | inr (downloaded, lastProgressUpdate) =>
              match eof with
              | REOF => mret (inr downloaded)
              | _ => read_loop out expectedSize rest downloaded lastProgressUpdate
              end
          end
      end
  end.

(** Lines 341 to 399 of [downloadWithProgress]: the request and the
    transfer of the body into the open file [out]. *)
Definition transfer (url : string) (out : file) (expectedSize : Z)
  : prog (option error) :=
  match http_NewRequest "GET" url with
  | inl err => mret (Some (Errorf "error creating request" err))
  | inr req =>
      req ← with_token req;
      r ← call (HttpDo req);
      match r with
      | inl err => mret (Some (Errorf "error making request" err))
      | inr resp =>
          if negb (StatusCode resp =? StatusOK) then
            mret (Some (ErrBadStatus (Status resp)))
          else
            lastProgressUpdate ← call Now;
            r ← read_loop out expectedSize (reads (RespBody resp))
                  0 lastProgressUpdate;
            match r with
            | inl err => mret (Some err)
            | inr downloaded =>
                _ ← call (Printf MsgNewline);
                if (0 <? expectedSize) && negb (downloaded =? expectedSize)
                then mret (Some (ErrSizeMismatch downloaded expectedSize))
                else mret None
            end
      end
  end.

Definition downloadWithProgress (url filepath : string) (expectedSize : Z)
  : prog (option error) :=
  e ← call (MkdirAll (Path.Dir filepath));
  match e with
  | Some err => mret (Some (Errorf "could not create directory" err))
  | None =>
      r ← call (Create filepath);
      match r with
      | inl err => mret (Some (Errorf "could not create file" err))
      | inr out => defer (close out) (transfer url out expectedSize)
      end
  end.

Definition repoFolderName (repoID repoType : string) : string :=
  let parts := [repoType +:+ "s"] in
  let parts := (parts ++ Path.Split Path.slash repoID)%list in
  Path.Join_with "--" parts.

Definition isSymlinkSupported : prog bool :=
  r ← call (MkdirTemp "" "symlink-test");
  match r with
  | inl _ => mret false
  | inr tempDir =>
      defer (remove_all tempDir)
        (let testFile := Path.Join [tempDir; "test-file"] in
         w ← call (WriteFile testFile "test");
         match w with
         | Some _ => mret false
         | None =>
             let testLink := Path.Join [tempDir; "test-link"] in
             err ← call (Symlink testFile testLink);
             mret (bool_decide (err = None))
         end)
  end.

Definition copyFile (src dst : string) : prog (option error) :=
  r ← call (OpenFile src);
  match r with
  | inl err => mret (Some err)
  | inr source =>
      defer (close source)
        (r ← call (Create dst);
         match r with
         | inl err => mret (Some err)
         | inr destination =>
             defer (close destination)
               ('(_, err) ← call (Copy destination source);
                mret err)
         end)
  end.

(** Lines 195 to 218 of [downloadFile]: the blob is in the pool and the
    pointer is placed, by a link or by a copy. *)
Definition place_pointer (filename blobPath pointerPath : string)
  : prog (option error) :=
  supported ← isSymlinkSupported;
  r ← (if supported : bool then
         let relPath := default blobPath (Path.Rel (Path.Dir pointerPath) blobPath) in
         st ← call (Stat pointerPath);
         _ ← (if bool_decide (st = None)
              then _ ← call (Remove pointerPath); mret ()
              else mret ());
         e ← call (Symlink relPath pointerPath);
         match e with
         | Some err =>
             _ ← call (Printf (WarnSymlinkCopy err));
             c ← copyFile blobPath pointerPath;
             match c with
             | Some err => mret (Some (Errorf "error copying" err))
             | None => mret None
             end
         | None => mret None
         end
       else
         c ← copyFile blobPath pointerPath;
         match c with
         | Some err => mret (Some (Errorf "error copying" err))
         | None => mret None
         end);
  match r with
  | Some err => mret (Some err)
  | None => _ ← call (Printf (MsgProcessed filename)); mret None
  end.

(** Lines 176 to 193 of [downloadFile], the body of [if !blobExists]: the
    blob is fetched into the pool. *)
Definition fetch_blob (modelRepo revision filename blobPath : string)
  : prog (option error) :=
  let url := "https://huggingface.co/" +:+ modelRepo +:+ "/resolve/"
               +:+ revision +:+ "/" +:+ filename in
  m ← getFileMetadata url;
  match m with
  | inl err => mret (Some (Errorf "error getting metadata" err))
  | inr metadata =>
      _ ← call (Printf (MsgDownloading filename (md_Size metadata)));
      let tempPath := blobPath +:+ ".incomplete" in
      d ← downloadWithProgress url tempPath (md_Size metadata);
      match d with
      | Some err => mret (Some (Errorf "error downloading" err))
      | None =>
          rn ← call (Rename tempPath blobPath);
          match rn with
          | Some err => mret (Some (Errorf "error renaming temp file" err))
          | None => mret None
          end
      end
  end.

(** Lines 176 to 218 of [downloadFile]: what it does unless the file is
    already there. *)
Definition fetch_and_place (blobExists : bool)
    (modelRepo revision filename blobPath pointerPath : string)
  : prog (option error) :=
  r ← (if negb blobExists
       then fetch_blob modelRepo revision filename blobPath
       else mret None);
  match r with
  | Some err => mret (Some err)
  | None => place_pointer filename blobPath pointerPath
  end.

Definition downloadFile (modelRepo revision filename blobId : string) (size : Z)
    (storageFolder snapshotDir : string) : prog (option error) :=
  let relativePath := Path.to_native filename in
  let blobPath := Path.Join [storageFolder; "blobs"; blobId] in
  let pointerPath := Path.Join [snapshotDir; relativePath] in
  e ← call (MkdirAll (Path.Dir pointerPath));
  match e with
  | Some err => mret (Some (Errorf "could not create directory" err))
  | None =>
      st ← call (Stat blobPath);
      let blobExists := bool_decide (st = None) in
      st ← call (Stat pointerPath);
      let pointerExists := bool_decide (st = None) in
      if pointerExists && negb blobExists then
        _ ← call (Printf (WarnPointerNoBlob filename));
        fetch_and_place blobExists modelRepo revision filename blobPath pointerPath
      else if pointerExists && blobExists then
        _ ← call (Printf (MsgFileExists filename)); mret None
      else
        fetch_and_place blobExists modelRepo revision filename blobPath pointerPath
  end.

(** How a call of [Download] ends: it returns its two results, or
    [regexp.MustCompile] panics on a pattern. *)
Inductive outcome : Type :=
| Returned (path : string) (err : option error)
| Panicked (pattern : string) (err : error).

(** The first loop of [Download]: [regexp.MustCompile] on each pattern in
    turn; [inl] is the panic of the first pattern that does not compile. *)
Fixpoint MustCompile_all (patterns : list string)
  : (string * error) + list Regexp :=
  match patterns with
  | [] => inr []
  | pattern :: rest =>
      match regexp_Compile pattern with
      | inl err => inl (pattern, err)
      | inr re =>
          match MustCompile_all rest with
          | inl p => inl p
          | inr res => inr (re :: res)
          end
      end
  end.

(** The inner loop of the fan-out: [false] at the first pattern that
    matches. *)
Fixpoint shouldDownload (ignoreRegexps : list Regexp) (rid : string) : bool :=
  match ignoreRegexps with
  | [] => true
  | pattern :: rest =>
      if regexp_MatchString pattern rid then false
      else shouldDownload rest rid
  end.

(** A goroutine of the fan-out: the file it was launched for and its
    body, which ends with the error it sends on [errorChan], if any. *)
Record task : Type := mkTask {
  task_file : Sibling;
  task_body : prog (option error)
}.

Definition goroutine (modelRepo revision storageFolder snapshotDir : string)
    (file : Sibling) : task :=
  mkTask file
    (r ← downloadFile modelRepo revision (RID file) (Blob file) (Size file)
           storageFolder snapshotDir;
     match r with
     | Some err => mret (Some (Errorf ("error processing " +:+ RID file) err))
     | None => mret None
     end).

(** The loop over [modelInfo.Siblings]: the goroutines launched, in order. *)
Fixpoint launch (ignoreRegexps : list Regexp)
    (modelRepo revision storageFolder snapshotDir : string)
    (siblings : list Sibling) : list task :=
  match siblings with
  | [] => []
  | file :: rest =>
      let tasks := launch ignoreRegexps modelRepo revision storageFolder
                     snapshotDir rest in
      if shouldDownload ignoreRegexps (RID file)
      then goroutine modelRepo revision storageFolder snapshotDir file :: tasks
      else tasks
  end.

(** Lines 81 to 92 of [Download]: the storage location. *)
Definition storage_location (d : Downloader) (modelRepo : string)
  : prog (error + string) :=
  if negb (String.eqb (customPath d) "") then mret (inr (customPath d))
  else
    r ← call UserHomeDir;
    match r with
    | inl err => mret (inl (Errorf "could not get home directory" err))
    | inr homeDir =>
        let repoPath := repoFolderName modelRepo "model" in
        mret (inr (Path.Join [homeDir; ".cache"; "huggingface"; "hub"; repoPath]))
    end.

(** Lines 94 to 104: the directory structure. *)
Fixpoint create_dirs (dirs : list string) : prog (option error) :=
  match dirs with
  | [] => mret None
  | dir :: rest =>
      e ← call (MkdirAll dir);
      match e with
      | Some err => mret (Some (Errorf ("could not create directory " +:+ dir) err))
      | None => create_dirs rest
      end
  end.

Definition layout_dirs (storageFolder : string) : list string :=
  [storageFolder;
   Path.Join [storageFolder; "blobs"];
   Path.Join [storageFolder; "refs"];
   Path.Join [storageFolder; "snapshots"]].

(** Lines 106 to 113: the revision pointer. *)
Definition cache_commit_hash (storageFolder revision commitHash : string)
  : prog unit :=
  if negb (String.eqb revision commitHash) then
    let refPath := Path.Join [storageFolder; "refs"; revision] in
    _ ← call (MkdirAll (Path.Dir refPath));
    e ← call (WriteFile refPath commitHash);
    match e with
    | Some err => call (Printf (WarnRevisionRef err))
    | None => mret ()
    end
  else mret ().

(** What [Download] has when it reaches [wg.Wait()]: the storage folder it
    will return and the goroutines it has launched. *)
Record fanout : Type := mkFanout {
  fo_storage : string;
  fo_tasks : list task
}.

Definition default_revision (revision : string) : string :=
  if String.eqb revision "" then "main" else revision.

(** [Download] up to line 143: everything it does itself before it waits
    for the goroutines.  [inl] is an outcome reached before the fan-out. *)
Definition Download_setup (d : Downloader) (modelRepo revision : string)
  : prog (outcome + fanout) :=
  let revision := default_revision revision in
  match MustCompile_all (ignorePatterns d) with
  | inl (pattern, err) => mret (inl (Panicked pattern err))
  | inr ignoreRegexps =>
      r ← getModelInfo modelRepo revision;
      match r with
      | inl err =>
          mret (inl (Returned "" (Some (Errorf "could not get model info" err))))
      | inr (modelInfo, commitHash) =>
          r ← storage_location d modelRepo;
          match r with
          | inl err => mret (inl (Returned "" (Some err)))
          | inr storageFolder =>
              e ← create_dirs (layout_dirs storageFolder);
              match e with
              | Some err => mret (inl (Returned "" (Some err)))
              | None =>
                  _ ← cache_commit_hash storageFolder revision commitHash;
                  let snapshotDir :=
                    Path.Join [storageFolder; "snapshots"; commitHash] in
                  e ← call (MkdirAll snapshotDir);
                  match e with
                  | Some err =>
                      mret (inl (Returned ""
                        (Some (Errorf "could not create snapshot directory" err))))
                  | None =>
                      mret (inr (mkFanout storageFolder
                        (launch ignoreRegexps modelRepo revision storageFolder
                           snapshotDir (Siblings modelInfo))))
                  end
              end
          end
      end
  end.

(** *** The goroutines

    The goroutines share the environment and nothing else.  A schedule
    chooses, step after step, which of the unfinished goroutines makes its
    next call, or, when it has none left, sends its error on [errorChan]
    and finishes.  When the schedule is used up the goroutines that remain
    run to their end one after the other, so that every schedule is a run
    in which [wg.Wait()] returns. *)

Definition sent (r : option error) : list error :=
  match r with Some err => [err] | None => [] end.

Fixpoint run_rest {S : Type} (h : handler S) (live : list (prog (option error)))
    (chan : list error) (s : S) : list error * list event * S :=
  match live with
  | [] => (chan, [], s)
  | p :: rest =>
      let '(r, tr, s1) := exec h p s in
      let '(chan', tr', s2) := run_rest h rest (chan ++ sent r)%list s1 in
      (chan', (tr ++ tr')%list, s2)
  end.

Fixpoint run_pool {S : Type} (h : handler S) (sched : list nat)
    (live : list (prog (option error))) (chan : list error) (s : S)
  : list error * list event * S :=
  match sched with
  | [] => run_rest h live chan s
  | n :: sched' =>
      let i := (n mod length live)%nat in
      match live !! i with
      | None => (chan, [], s)
      | Some (Ret r) =>
          run_pool h sched' (delete i live) (chan ++ sent r)%list s
      | Some (Vis e k) =>
          let '(x, s1) := h _ e s in
          let '(chan', tr, s2) := run_pool h sched' (<[i := k x]> live) chan s1 in
          (chan', Call e x :: tr, s2)
      end
  end.

(** [Download]: the part before the fan-out, the goroutines under the
    schedule, and, when all have finished, the first error on the channel
    or the storage folder. *)
Definition Download {S : Type} (h : handler S) (sched : list nat)
    (d : Downloader) (modelRepo revision : string) (s : S)
  : outcome * list event * S :=
  let '(r, tr, s1) := exec h (Download_setup d modelRepo revision) s in
  match r with
  | inl out => (out, tr, s1)
  | inr fo =>
      let '(chan, tr', s2) := run_pool h sched (task_body <$> fo_tasks fo) [] s1 in
      (match chan with
       | err :: _ => Returned "" (Some err)
       | [] => Returned (fo_storage fo) None
       end, (tr ++ tr')%list, s2)
  end.

(** [NewDownloader], [SetCustomPath], [SetIgnorePatterns]. *)
Definition NewDownloader : Downloader :=
  mkDownloader "" ["\.md$"; "\.txt$"].

Definition SetCustomPath (d : Downloader) (path : string) : Downloader :=
  mkDownloader path (ignorePatterns d).

Definition SetIgnorePatterns (d : Downloader) (patterns : list string) : Downloader :=
  mkDownloader (customPath d) patterns.

End Program.

(** ** A reference environment

    A file system in the manner of POSIX, small enough to run: names map to
    directories, to files (through an inode, so that an open file outlives a
    rename of its name) and to symbolic links; a symbolic link is followed
    when it is the last element of a path.  Paths are kept clean; a relative
    path is a name of its own.  The remote hub is a function from requests
    to responses.  Two switches stand for what a real system may refuse:
    file systems without symbolic links, and places that cannot be written. *)

Module World.

Inductive node : Type :=
| Dir
| File (ino : nat)
| Link (target : string).

Record handle : Type := mkHandle { h_ino : nat; h_off : nat }.

Record t : Type := mk {
  names : gmap string node;
  inodes : gmap nat string;
  handles : gmap nat handle;
  next_id : nat;
  env : gmap string string;
  hub : Request → error + Response;
  requests : list Request;
  clock : Z;
  tick : Z;
  no_symlink : string → bool;
  read_only : string → bool;
  stdout : list message
}.

Definition ENOENT : error := OSErr "no such file or directory".
Definition EEXIST : error := OSErr "file exists".
Definition ENOTDIR : error := OSErr "not a directory".
Definition EISDIR : error := OSErr "is a directory".
Definition ENOTEMPTY : error := OSErr "directory not empty".
Definition EACCES : error := OSErr "permission denied".
Definition EPERM : error := OSErr "operation not permitted".
Definition ELOOP : error := OSErr "too many levels of symbolic links".
Definition EBADF : error := OSErr "file already closed".

Definition set_names (w : t) (n : gmap string node) : t :=
  mk n (inodes w) (handles w) (next_id w) (env w) (hub w) (requests w)
     (clock w) (tick w) (no_symlink w) (read_only w) (stdout w).

Definition set_inodes (w : t) (i : gmap nat string) : t :=
  mk (names w) i (handles w) (next_id w) (env w) (hub w) (requests w)
     (clock w) (tick w) (no_symlink w) (read_only w) (stdout w).

Definition set_handles (w : t) (hs : gmap nat handle) : t :=
  mk (names w) (inodes w) hs (next_id w) (env w) (hub w) (requests w)
     (clock w) (tick w) (no_symlink w) (read_only w) (stdout w).

Definition fresh (w : t) : nat * t :=
  (next_id w,
   mk (names w) (inodes w) (handles w) (S (next_id w)) (env w) (hub w)
      (requests w) (clock w) (tick w) (no_symlink w) (read_only w) (stdout w)).

(** Where the link [target] found at [p] leads. *)
Definition link_dest (p target : string) : string :=
  if Path.rooted target then Path.Clean target
  else Path.Join [Path.Dir p; target].

(** The name a path stands for once the links at its end are followed,
    with the node there, if any. *)
Fixpoint follow (fuel : nat) (ns : gmap string node) (p : string)
  : error + (string * option node) :=
  match ns !! p with
  | Some (Link target) =>
      match fuel with
      | O => inl ELOOP
      | S fuel' => follow fuel' ns (link_dest p target)
      end
  | n => inr (p, n)
  end.

Definition max_links : nat := 40.

Definition is_dir (ns : gmap string node) (p : string) : bool :=
  match follow max_links ns p with
  | inr (_, Some Dir) => true
  | _ => false
  end.

Definition stat (w : t) (path : string) : option error :=
  match follow max_links (names w) (Path.Clean path) with
  | inl e => Some e
  | inr (_, None) => Some ENOENT
  | inr (_, Some _) => None
  end.

Fixpoint mkdir_all (fuel : nat) (w : t) (p : string) : error + t :=
  match follow max_links (names w) p with
  | inl e => inl e
  | inr (_, Some Dir) => inr w
  | inr (_, Some _) => inl ENOTDIR
  | inr (q, None) =>
      match fuel with
      | O => inl ENOENT
      | S fuel' =>
          if String.eqb (Path.Dir q) q then inl ENOENT
          else
            match mkdir_all fuel' w (Path.Dir q) with
            | inl e => inl e
            | inr w' =>
                if read_only w q then inl EACCES
                else inr (set_names w' (<[q := Dir]> (names w')))
            end
      end
  end.

Definition do_MkdirAll (w : t) (path : string) : option error * t :=
  let p := Path.Clean path in
  match mkdir_all (S (String.length p)) w p with
  | inl e => (Some e, w)
  | inr w' => (None, w')
  end.

(** The file that [path] names for writing, created or emptied: the inode
    behind it. *)
Definition create (w : t) (path : string) : error + (nat * t) :=
  match follow max_links (names w) (Path.Clean path) with
  | inl e => inl e
  | inr (_, Some Dir) => inl EISDIR
  | inr (_, Some (Link _)) => inl ELOOP
  | inr (q, Some (File ino)) =>
      if read_only w q then inl EACCES
      else inr (ino, set_inodes w (<[ino := ""]> (inodes w)))
  | inr (q, None) =>
      if negb (is_dir (names w) (Path.Dir q)) then inl ENOENT
      else if read_only w q then inl EACCES
      else
        let '(ino, w) := fresh w in
        inr (ino, set_inodes (set_names w (<[q := File ino]> (names w)))
                             (<[ino := ""]> (inodes w)))
  end.

Definition open_handle (w : t) (ino : nat) : file * t :=
  let '(fd, w) := fresh w in
  (fd, set_handles w (<[fd := mkHandle ino 0]> (handles w))).

Fixpoint take_chars (n : nat) (s : string) : string :=
  match n, s with
  | S n', String c s' => String c (take_chars n' s')
  | _, _ => ""
  end.

(** [data] written over [old] from the offset [off]. *)
Definition write_at (old : string) (off : nat) (data : string) : string :=
  take_chars off old +:+ data +:+ drop_chars (off + String.length data) old.

Definition write (w : t) (fd : file) (data : string) : option error * t :=
  match handles w !! fd with
  | None => (Some EBADF, w)
  | Some hd =>
      let old := default "" (inodes w !! h_ino hd) in
      let w := set_inodes w (<[h_ino hd := write_at old (h_off hd) data]> (inodes w)) in
      (None, set_handles w
               (<[fd := mkHandle (h_ino hd) (h_off hd + String.length data)]> (handles w)))
  end.

Definition do_WriteFile (w : t) (path data : string) : option error * t :=
  match create w path with
  | inl e => (Some e, w)
  | inr (ino, w) => (None, set_inodes w (<[ino := data]> (inodes w)))
  end.

Definition do_Create (w : t) (path : string) : (error + file) * t :=
  match create w path with
  | inl e => (inl e, w)
  | inr (ino, w) => let '(fd, w) := open_handle w ino in (inr fd, w)
  end.

Definition do_OpenFile (w : t) (path : string) : (error + file) * t :=
  match follow max_links (names w) (Path.Clean path) with
  | inl e => (inl e, w)
  | inr (_, Some (File ino)) => let '(fd, w) := open_handle w ino in (inr fd, w)
  | inr (_, Some _) => (inl EISDIR, w)
  | inr (_, None) => (inl ENOENT, w)
  end.

Definition do_Copy (w : t) (dst src : file) : (Z * option error) * t :=
  match handles w !! src with
  | None => ((0, Some EBADF), w)
  | Some hs =>
      let data := drop_chars (h_off hs) (default "" (inodes w !! h_ino hs)) in
      match write w dst data with
      | (Some e, w) => ((0, Some e), w)
      | (None, w) => ((Z.of_nat (String.length data), None), w)
      end
  end.

Definition do_FileClose (w : t) (fd : file) : option error * t :=
  match handles w !! fd with
  | None => (Some EBADF, w)
  | Some _ => (None, set_handles w (delete fd (handles w)))
  end.

(** [k] lies under the directory [p]. *)
Definition under (p k : string) : bool :=
  String.prefix (if String.eqb p "/" then p else p +:+ "/") k.

Definition has_children (ns : gmap string node) (p : string) : bool :=
  bool_decide (filter (λ kv, under p kv.1 = true) ns ≠ ∅).

Definition rekey (old new k : string) : string :=
  if String.eqb k old then new
  else if under old k then new +:+ drop_chars (String.length old) k
  else k.

Definition do_Rename (w : t) (oldpath newpath : string) : option error * t :=
  let old := Path.Clean oldpath in
  let new := Path.Clean newpath in
  match names w !! old with
  | None => (Some ENOENT, w)
  | Some n =>
      if negb (is_dir (names w) (Path.Dir new)) then (Some ENOENT, w)
      else if read_only w new then (Some EACCES, w)
      else
        match n, names w !! new with
        | Dir, Some Dir =>
            if has_children (names w) new then (Some ENOTEMPTY, w)
            else (None, set_names w (kmap (rekey old new) (delete new (names w))))
        | Dir, Some _ => (Some ENOTDIR, w)
        | Dir, None => (None, set_names w (kmap (rekey old new) (names w)))
        | _, Some Dir => (Some EISDIR, w)
        | _, _ => (None, set_names w (<[new := n]> (delete old (names w))))
        end
  end.

Definition do_Remove (w : t) (path : string) : option error * t :=
  let p := Path.Clean path in
  match names w !! p with
  | None => (Some ENOENT, w)
  | Some Dir =>
      if has_children (names w) p then (Some ENOTEMPTY, w)
      else (None, set_names w (delete p (names w)))
  | Some _ => (None, set_names w (delete p (names w)))
  end.

Definition do_RemoveAll (w : t) (path : string) : option error * t :=
  let p := Path.Clean path in
  (None, set_names w
           (filter (λ kv, kv.1 ≠ p ∧ under p kv.1 = false) (names w))).

Definition do_Symlink (w : t) (oldname newname : string) : option error * t :=
  let p := Path.Clean newname in
  match names w !! p with
  | Some _ => (Some EEXIST, w)
  | None =>
      if negb (is_dir (names w) (Path.Dir p)) then (Some ENOENT, w)
      else if no_symlink w p then (Some EPERM, w)
      else if read_only w p then (Some EACCES, w)
      else (None, set_names w (<[p := Link oldname]> (names w)))
  end.

Definition TempDir (w : t) : string :=
  match env w !! "TMPDIR" with
  | Some d => if String.eqb d "" then "/tmp" else d
  | None => "/tmp"
  end.

Definition do_MkdirTemp (w : t) (dir pattern : string) : (error + string) * t :=
  let dir := if String.eqb dir "" then TempDir w else dir in
  let '(n, w) := fresh w in
  let p := Path.Join [dir; pattern +:+ pretty n] in
  if negb (is_dir (names w) (Path.Dir p)) then (inl ENOENT, w)
  else if read_only w p then (inl EACCES, w)
  else
    match names w !! p with
    | Some _ => (inl EEXIST, w)
    | None => (inr p, set_names w (<[p := Dir]> (names w)))
    end.

Definition do_UserHomeDir (w : t) : error + string :=
  match env w !! "HOME" with
  | Some home => if String.eqb home "" then inl (OSErr "$HOME is not defined")
                 else inr home
  | None => inl (OSErr "$HOME is not defined")
  end.

Definition do_HttpDo (w : t) (req : Request) : (error + Response) * t :=
  (hub w req,
   mk (names w) (inodes w) (handles w) (next_id w) (env w) (hub w)
      (requests w ++ [req]) (clock w) (tick w) (no_symlink w) (read_only w)
      (stdout w)).

Definition do_Now (w : t) : Z * t :=
  (clock w,
   mk (names w) (inodes w) (handles w) (next_id w) (env w) (hub w)
      (requests w) (clock w + tick w) (tick w) (no_symlink w) (read_only w)
      (stdout w)).

Definition do_Printf (w : t) (m : message) : unit * t :=
  ((),
   mk (names w) (inodes w) (handles w) (next_id w) (env w) (hub w)
      (requests w) (clock w) (tick w) (no_symlink w) (read_only w)
      (stdout w ++ [m])).

(** The reference environment as a handler. *)
Definition step : handler t :=
  λ X e,
    match e in osE X return t → X * t with
    | Getenv key => λ w, (default "" (env w !! key), w)
    | UserHomeDir => λ w, (do_UserHomeDir w, w)
    | MkdirAll path => λ w, do_MkdirAll w path
    | MkdirTemp dir pattern => λ w, do_MkdirTemp w dir pattern
    | Stat path => λ w, (stat w path, w)
    | WriteFile path data => λ w, do_WriteFile w path data
    | Create path => λ w, do_Create w path
    | OpenFile path => λ w, do_OpenFile w path
    | FileWrite f data => λ w, write w f data
    | FileClose f => λ w, do_FileClose w f
    | Copy dst src => λ w, do_Copy w dst src
    | Rename o n => λ w, do_Rename w o n
    | Remove path => λ w, do_Remove w path
    | RemoveAll path => λ w, do_RemoveAll w path
    | Symlink o n => λ w, do_Symlink w o n
    | HttpDo req => λ w, do_HttpDo w req
    | Now => λ w, do_Now w
    | Printf m => λ w, do_Printf w m
    end.

(** What a reader finds at [path]: the bytes of the file it names, links
    followed. *)
Definition read (w : t) (path : string) : option string :=
  match follow max_links (names w) (Path.Clean path) with
  | inr (_, Some (File ino)) => inodes w !! ino
  | _ => None
  end.

(** The kind of node at [path] itself, links not followed. *)
Definition lstat (w : t) (path : string) : option node :=
  names w !! Path.Clean path.

End World.

(** ** A reference library

    An implementation of [GoLib] to run the program with: the regular
    expressions built from literals, escaped punctuation, [.], [^], [$],
    groups, [|] and the repetitions [*], [+], [?] (also in their lazy
    spelling), with the syntax errors of [regexp.Compile] on them; and of
    the checks of [http.NewRequest], those on control characters and on
    percent escapes.  Character classes, counted repetitions and the letter
    escapes are outside this fragment and are reported as such. *)

Module MiniRegexp.

Inductive re : Type :=
| Void
| Eps
| Chr (c : ascii)
| AnyChar (newline : bool)
| Bol
| Eol
| Cat (r1 r2 : re)
| Alt (r1 r2 : re)
| Star (r : re).

(** What stands before a repetition operator. *)
Inductive item_kind : Type := Atom | Repeated | Lazy.

Record frame : Type := mkFrame {
  alts : list re;
  cur : list (re * item_kind)
}.

Definition cat_of (items : list (re * item_kind)) : re :=
  foldr (λ it acc, Cat it.1 acc) Eps items.

Definition alt_of (f : frame) : re :=
  foldr Alt (cat_of (cur f)) (alts f).

Definition push_item (f : frame) (r : re) : frame :=
  mkFrame (alts f) (cur f ++ [(r, Atom)]).

Definition is_punct (c : ascii) : bool :=
  let n := nat_of_ascii c in
  ((33 <=? n) && (n <=? 47) || (58 <=? n) && (n <=? 64)
   || (91 <=? n) && (n <=? 96) || (123 <=? n) && (n <=? 126))%nat.

Definition repeat_of (op : ascii) (r : re) : re :=
  if Ascii.eqb op "*" then Star r
  else if Ascii.eqb op "+" then Cat r (Star r)
  else Alt r Eps.

Definition apply_repeat (op : ascii) (f : frame) : error + frame :=
  match reverse (cur f) with
  | [] => inl (OSErr "missing argument to repetition operator")
  | (r, Atom) :: before =>
      inr (mkFrame (alts f) (reverse ((repeat_of op r, Repeated) :: before)))
  | (r, Repeated) :: before =>
      if Ascii.eqb op "?"
      then inr (mkFrame (alts f) (reverse ((r, Lazy) :: before)))
      else inl (OSErr "invalid nested repetition operator")
  | (_, Lazy) :: _ => inl (OSErr "invalid nested repetition operator")
  end.

(** The parser: one pass over the pattern with the stack of open groups. *)
Fixpoint parse (s : string) (escaped : bool) (f : frame) (outer : list frame)
  : error + re :=
  match s with
  | EmptyString =>
      if escaped then inl (OSErr "trailing backslash at end of expression")
      else match outer with
           | [] => inr (alt_of f)
           | _ => inl (OSErr "missing closing )")
           end
  | String c s' =>
      if escaped then
        if is_punct c then parse s' false (push_item f (Chr c)) outer
        else inl (OSErr "escape outside the fragment")
      else if Ascii.eqb c "\" then parse s' true f outer
      else if Ascii.eqb c "(" then parse s' false (mkFrame [] []) (f :: outer)
      else if Ascii.eqb c ")" then
        match outer with
        | [] => inl (OSErr "unexpected )")
        | g :: outer' => parse s' false (push_item g (alt_of f)) outer'
        end
      else if Ascii.eqb c "|" then
        parse s' false (mkFrame (alts f ++ [cat_of (cur f)]) []) outer
      else if Ascii.eqb c "*" || Ascii.eqb c "+" || Ascii.eqb c "?" then
        match apply_repeat c f with
        | inl e => inl e
        | inr f' => parse s' false f' outer
        end
      else if Ascii.eqb c "[" || Ascii.eqb c "{" then
        inl (OSErr "construct outside the fragment")
      else if Ascii.eqb c "." then parse s' false (push_item f (AnyChar false)) outer
      else if Ascii.eqb c "^" then parse s' false (push_item f Bol) outer
      else if Ascii.eqb c "$" then parse s' false (push_item f Eol) outer
      else parse s' false (push_item f (Chr c)) outer
  end.

Definition Compile (pattern : string) : error + re :=
  parse pattern false (mkFrame [] []) [].

(** [r] matches the empty word at a place that is ([b]) or is not at the
    beginning of the text and is ([e]) or is not at its end. *)
Fixpoint null (r : re) (b e : bool) : bool :=
  match r with
  | Void | Chr _ | AnyChar _ => false
  | Eps | Star _ => true
  | Bol => b
  | Eol => e
  | Cat r1 r2 => null r1 b e && null r2 b e
  | Alt r1 r2 => null r1 b e || null r2 b e
  end.

Definition newline : ascii := ascii_of_nat 10.

(** What is left of [r] once it has read [c]. *)
Fixpoint deriv (c : ascii) (b : bool) (r : re) : re :=
  match r with
  | Void | Eps | Bol | Eol => Void
  | Chr a => if Ascii.eqb a c then Eps else Void
  | AnyChar nl => if nl || negb (Ascii.eqb c newline) then Eps else Void
  | Cat r1 r2 =>
      Alt (Cat (deriv c b r1) r2) (if null r1 b false then deriv c b r2 else Void)
  | Alt r1 r2 => Alt (deriv c b r1) (deriv c b r2)
  | Star r1 => Cat (deriv c b r1) (Star r1)
  end.

Fixpoint match_all (r : re) (s : string) (b : bool) : bool :=
  match s with
  | EmptyString => null r b true
  | String c s' => match_all (deriv c b r) s' false
  end.

(** Some part of [s] matches [r]. *)
Fixpoint search (r : re) (s : string) (b : bool) : bool :=
  match_all (Cat r (Star (AnyChar true))) s b
  || match s with
     | EmptyString => false
     | String _ s' => search r s' false
     end.

Definition MatchString (r : re) (s : string) : bool := search r s true.

Definition is_hex (c : ascii) : bool :=
  let n := nat_of_ascii c in
  ((48 <=? n) && (n <=? 57) || (65 <=? n) && (n <=? 70)
   || (97 <=? n) && (n <=? 102))%nat.

Definition is_control (c : ascii) : bool :=
  let n := nat_of_ascii c in ((n <? 32) || (n =? 127))%nat.

Fixpoint url_error (url : string) : option error :=
  match url with
  | EmptyString => None
  | String c rest =>
      if is_control c then Some (OSErr "net/url: invalid control character in URL")
      else if Ascii.eqb c "%" then
        match rest with
        | String a (String b _) =>
            if is_hex a && is_hex b then url_error rest
            else Some (OSErr "invalid URL escape")
        | _ => Some (OSErr "invalid URL escape")
        end
      else url_error rest
  end.

End MiniRegexp.

Definition reference_lib : GoLib := {|
  Regexp := MiniRegexp.re;
  regexp_Compile := MiniRegexp.Compile;
  regexp_MatchString := MiniRegexp.MatchString;
  http_NewRequest_error := λ _ url, MiniRegexp.url_error url
|}.

(** ** A remote hub to run against *)

Module Hub.

Definition not_found : Response :=
  mkResponse 404 "404 Not Found" ∅ "" (mkBody [] (inl (OSErr "EOF"))).

Definition tree_url (repo revision : string) : string :=
  HF_API_URL +:+ "/models/" +:+ repo +:+ "/tree/" +:+ revision.

Definition file_url (repo revision filename : string) : string :=
  "https://huggingface.co/" +:+ repo +:+ "/resolve/" +:+ revision +:+ "/" +:+ filename.

(** A file the hub serves: its path, the [Content-Length] it declares and
    the reads in which it delivers the body. *)
Record served : Type := mkServed {
  sv_path : string;
  sv_length : string;
  sv_reads : list ReadResult
}.

Definition whole (data : string) : list ReadResult :=
  [mkRead data RNil; mkRead "" REOF].

Fixpoint find_served (files : list served) (repo revision url : string)
  : option served :=
  match files with
  | [] => None
  | f :: rest =>
      if String.eqb url (file_url repo revision (sv_path f)) then Some f
      else find_served rest repo revision url
  end.

(** The hub that holds one repository at one revision: the listing it
    answers with, the commit header it sends (none when empty) and the
    files it serves. *)
Definition serve (repo revision commit : string) (listing : list TreeEntry)
    (files : list served) (req : Request) : error + Response :=
  if String.eqb (URL req) (tree_url repo revision) then
    inr (mkResponse 200 "200 OK"
           (if String.eqb commit "" then ∅ else {[ "X-Repo-Commit" := [commit] ]})
           (URL req) (mkBody [] (inr listing)))
  else
    match find_served files repo revision (URL req) with
    | None => inr not_found
    | Some f =>
        inr (mkResponse 200 "200 OK" {[ "Content-Length" := [sv_length f] ]}
               (URL req)
               (mkBody (if String.eqb (Method req) "HEAD" then [] else sv_reads f)
                       (inl (OSErr "invalid character"))))
    end.

(** A hub that cannot be reached. *)
Definition unreachable (req : Request) : error + Response :=
  inl (OSErr "dial tcp: lookup huggingface.co: no such host").

End Hub.

Module Fixture.

(** A machine with an empty disk: the root, [/tmp] and a home directory. *)
Definition machine (hub : Request → error + Response) : World.t :=
  World.mk {[ "/" := World.Dir; "/tmp" := World.Dir; "/home" := World.Dir;
              "/home/u" := World.Dir ]}
           ∅ ∅ 1 {[ "HOME" := "/home/u" ]} hub [] 0 1000
           (λ _, false) (λ _, false) [].

Definition file_entry (path oid : string) (size : Z) : TreeEntry :=
  mkTreeEntry "file" path oid size false.

Definition dir_entry (path oid : string) : TreeEntry :=
  mkTreeEntry "directory" path oid 0 false.

(** The repository of the end-to-end scenario: [org/tiny-model] at [main]. *)
Definition config_json : string := "{ model_type: gpt2, n_layer: 2, n_head: 2}".
Definition readme_md : string := "# tiny mdl".

Definition tiny_listing : list TreeEntry :=
  [file_entry "config.json" "abc123" 42; file_entry "README.md" "def456" 10].

Definition tiny_files : list Hub.served :=
  [Hub.mkServed "config.json" "42" (Hub.whole config_json);
   Hub.mkServed "README.md" "10" (Hub.whole readme_md)].

Definition tiny_hub : Request → error + Response :=
  Hub.serve "org/tiny-model" "main" "c0ffee" tiny_listing tiny_files.

Definition downloader : Downloader :=
  SetCustomPath NewDownloader "/models".

End Fixture.

(** ** Observing a run *)

(** The calls of a trace by what they touch. *)
Inductive kind : Type :=
| Environment
| FileSystem
| Network
| Clock
| Output.

Definition kind_of {X : Type} (e : osE X) : kind :=
  match e with
  | Getenv _ | UserHomeDir => Environment
  | HttpDo _ => Network
  | Now => Clock
  | Printf _ => Output
  | _ => FileSystem
  end.

Definition ev_kind (ev : event) : kind := kind_of (ev_call ev).

Global Instance kind_eq_dec : EqDecision kind.
Proof. solve_decision. Defined.

(** The requests of a trace with their answers, and the lines printed. *)
Definition http_of (ev : event) : option (Request * (error + Response)) :=
  match ev_call ev in osE X return X → option (Request * (error + Response)) with
  | HttpDo req => λ a, Some (req, a)
  | _ => λ _, None
  end (ev_answer ev).

Definition printed_of (ev : event) : option message :=
  match ev_call ev with
  | Printf m => Some m
  | _ => None
  end.

Definition http_calls (tr : list event) : list (Request * (error + Response)) :=
  omap http_of tr.

Definition printed (tr : list event) : list message := omap printed_of tr.

(** [p] makes only calls that satisfy [P], whatever it is answered. *)
Fixpoint makes_only {R : Type} (P : ∀ X, osE X → Prop) (p : prog R) : Prop :=
  match p with
  | Ret _ => True
  | Vis e k => P _ e ∧ ∀ x, makes_only P (k x)
  end.

(** ** The specification's own words

    The derivation of the commit identifier as the specification words it:
    the commit header when there is one, else the content hash of the first
    listed file, else the revision label.  The listed files are the manifest
    entries, one per remote file. *)
Definition spec_commit_id (header : string) (manifest : list Sibling)
    (revision : string) : string :=
  if String.eqb header "" then
    match manifest with
    | f :: _ => Blob f
    | [] => revision
    end
  else header.

(** ** Observing resolution *)

(** The request of [getModelInfo], given the token of the environment. *)
Definition tree_request (modelRepo revision token : string) : Request :=
  let url := HF_API_URL +:+ "/models/" +:+ modelRepo +:+ "/tree/" +:+ revision in
  let req := mkRequest "GET" url [] in
  Header_Add (if String.eqb token "" then req
              else Header_Add req "Authorization" ("Bearer " +:+ token))
             "User-Agent" "huggingface-go/0.1".

(** What [getModelInfo] makes of the answer to its request. *)
Definition resolved (revision : string) (a : error + Response)
  : error + (ModelInfo * string) :=
  match a with
  | inl err => inl (Errorf "error making API request" err)
  | inr resp =>
      if negb (StatusCode resp =? StatusOK)
      then inl (ErrApiStatus (StatusCode resp) (io_ReadAll (reads (RespBody resp))))
      else match json_tree (RespBody resp) with
           | inl err => inl (Errorf "error decoding API response" err)
           | inr files => inr (mkModelInfo (siblings_of files),
                               commitHash_of resp files revision)
           end
  end.

(** ** More machines to run on *)

Module Cases.

(** A hub whose listing carries no commit header and whose first entry has
    no object identifier. *)
Definition headerless_hub : Request → error + Response :=
  Hub.serve "org/tiny-model" "main" ""
    [Fixture.file_entry "model.bin" "" 5; Fixture.file_entry "config.json" "abc123" 42]
    [].

(** A hub whose listing carries no commit header and starts with a
    directory. *)
Definition folder_first_hub : Request → error + Response :=
  Hub.serve "org/tiny-model" "main" ""
    [Fixture.dir_entry "onnx" "7ree01"; Fixture.file_entry "config.json" "abc123" 42]
    [].

End Cases.

(** [p] returns only results that satisfy [Q], whatever it is answered. *)
Fixpoint returns_only {R : Type} (Q : R → Prop) (p : prog R) : Prop :=
  match p with
  | Ret r => Q r
  | Vis e k => ∀ x, returns_only Q (k x)
  end.

(** The errors a goroutine may send on [errorChan]. *)
Definition processing_error (err : error) : Prop :=
  ∃ filename cause, err = Errorf ("error processing " +:+ filename) cause.

(** A goroutine that makes only calls in [P] and sends only errors in [Q]. *)
Definition within (P : ∀ X, osE X → Prop) (Q : error → Prop)
    (p : prog (option error)) : Prop :=
  makes_only P p ∧ returns_only (λ r, ∀ err, r = Some err → Q err) p.

(** The calls of the last part of [downloadFile], which places the pointer:
    the probe for symbolic links, the link, the copy. *)
Definition placing_call {X : Type} (e : osE X) : Prop :=
  match e with
  | MkdirTemp _ _ | WriteFile _ _ | Symlink _ _ | RemoveAll _ | Stat _
  | Remove _ | Printf _ | OpenFile _ | Create _ | Copy _ _ | FileClose _ => True
  | _ => False
  end.

(** The calls by which a blob comes into the pool, and which nothing else in
    [downloadFile] makes: a request, a write to an open file, a rename. *)
Definition fetching_call {X : Type} (e : osE X) : Prop :=
  match e with
  | HttpDo _ | FileWrite _ _ | Rename _ _ => True
  | _ => False
  end.

(** A request, if it is one, is for [url]. *)
Definition requests_only (url : string) {X : Type} (e : osE X) : Prop :=
  match e with
  | HttpDo req => URL req = url
  | _ => True
  end.

(** The address [downloadFile] fetches a file from. *)
Definition resolve_url (modelRepo revision filename : string) : string :=
  "https://huggingface.co/" +:+ modelRepo +:+ "/resolve/" +:+ revision +:+ "/"
    +:+ filename.

(** The request of an event, if it is one. *)
Definition request_of (ev : event) : option Request :=
  match ev_call ev with
  | HttpDo req => Some req
  | _ => None
  end.

(** The errors answered to the writes of a trace, and the files it created
    or truncated, with the answers. *)
Definition write_error_of (ev : event) : option error :=
  match ev_call ev in osE X return X → option error with
  | FileWrite _ _ => λ a, a
  | _ => λ _, None
  end (ev_answer ev).

Definition created_of (ev : event) : option (string * (error + file)) :=
  match ev_call ev in osE X return X → option (string * (error + file)) with
  | Create path => λ a, Some (path, a)
  | _ => λ _, None
  end (ev_answer ev).

Definition write_errors (tr : list event) : list error := omap write_error_of tr.

Definition created (tr : list event) : list (string * (error + file)) :=
  omap created_of tr.

(** The number of bytes a body delivers when it is read to its end: none
    when a read fails before. *)
Fixpoint received (body : list ReadResult) : option Z :=
  match body with
  | [] => Some 0
  | rd :: rest =>
      match rd_err rd with
      | RErr _ => None
      | REOF => Some (byte_count (rd_data rd))
      | RNil => (λ n, byte_count (rd_data rd) + n) <$> received rest
      end
  end.

(** The calls that take a name away from a file or give it another. *)
Definition displacing_call {X : Type} (e : osE X) : Prop :=
  match e with
  | Rename _ _ | Remove _ | RemoveAll _ => True
  | _ => False
  end.

(** The probe of [getFileMetadata], given the token of the environment, and
    what the function makes of its answer. *)
Definition head_request (url token : string) : Request :=
  let req := mkRequest "HEAD" url [] in
  Header_Add (if String.eqb token "" then req
              else Header_Add req "Authorization" ("Bearer " +:+ token))
             "Accept-Encoding" "identity".

Definition probed (a : error + Response) : error + HfFileMetadata :=
  match a with
  | inl err => inl (Errorf "error making HEAD request" err)
  | inr resp =>
      if negb (StatusCode resp =? StatusOK) then inl (ErrHeadStatus (StatusCode resp))
      else
        let etag := normalizeETag (Header_Get (Header resp) "X-Linked-Etag") in
        let etag := if String.eqb etag ""
                    then normalizeETag (Header_Get (Header resp) "ETag") else etag in
        inr (mkMeta (Header_Get (Header resp) "X-Repo-Commit") etag (RequestURL resp)
               (parseInt64 (Header_Get (Header resp) "Content-Length")))
  end.

(** The answers to the opening of a file for reading, to a copy and to the
    making of a symbolic link. *)
Definition opened_of (ev : event) : option (error + file) :=
  match ev_call ev in osE X return X → option (error + file) with
  | OpenFile _ => λ a, Some a
  | _ => λ _, None
  end (ev_answer ev).

Definition copied_of (ev : event) : option (option error) :=
  match ev_call ev in osE X return X → option (option error) with
  | Copy _ _ => λ a, Some a.2
  | _ => λ _, None
  end (ev_answer ev).

Definition linked_of (ev : event) : option (option error) :=
  match ev_call ev in osE X return X → option (option error) with
  | Symlink _ _ => λ a, Some a
  | _ => λ _, None
  end (ev_answer ev).

Definition symlink_answers (tr : list event) : list (option error) :=
  omap linked_of tr.

(** What [copyFile] returned, read off a trace: [copyFile] is the one
    function that opens a file for reading; it fails when the opening fails,
    when the creation that follows fails, or with the error of the copy
    after that.  [None] when the trace holds no copy. *)
Fixpoint copy_result (tr : list event) : option (option error) :=
  match tr with
  | [] => None
  | ev :: rest =>
      match opened_of ev with
      | None => copy_result rest
      | Some (inl err) => Some (Some err)
      | Some (inr _) =>
          match rest with
          | [] => None
          | cr :: rest' =>
              match created_of cr with
              | Some (_, inl err) => Some (Some err)
              | Some (_, inr _) =>
                  match rest' with
                  | cp :: _ => copied_of cp
                  | [] => None
                  end
              | None => None
              end
          end
      end
  end.

(** How the result of [downloadFile] hangs on the placing of the pointer, as
    a trace shows it: a copy that failed is the error returned; a copy that
    succeeded is a success; a link that failed after a successful probe was
    answered by a warning and by a copy; a link that succeeded is a success;
    and a success means that the link succeeded, or the copy, or that the
    file was reported as already there. *)
Definition placed (r : option error) (tr : list event) : Prop :=
  (∀ e, copy_result tr = Some (Some e) → r = Some (Errorf "error copying" e))
  ∧ (copy_result tr = Some None → r = None)
  ∧ (∀ e, symlink_answers tr = [None; Some e] →
       WarnSymlinkCopy e ∈ printed tr ∧ copy_result tr ≠ None)
  ∧ (symlink_answers tr = [None; None] → r = None)
  ∧ (r = None →
     symlink_answers tr = [None; None] ∨ copy_result tr = Some None
     ∨ ∃ filename, MsgFileExists filename ∈ printed tr).

(** A call that neither opens a file for reading nor makes a link. *)
Definition not_placing (ev : event) : Prop :=
  opened_of ev = None ∧ linked_of ev = None.

(** The renames of a trace, with their answers. *)
Definition renamed_of (ev : event) : option (string * string * option error) :=
  match ev_call ev in osE X return X → option (string * string * option error) with
  | Rename o n => λ a, Some (o, n, a)
  | _ => λ _, None
  end (ev_answer ev).

Definition renames (tr : list event) : list (string * string * option error) :=
  omap renamed_of tr.

(** The pointer of a file has been placed, as a trace shows it: the link
    succeeded after the probe, or the copy did, or the file was reported as
    already there. *)
Definition pointer_placed (tr : list event) : Prop :=
  symlink_answers tr = [None; None] ∨ copy_result tr = Some None
  ∨ ∃ filename, MsgFileExists filename ∈ printed tr.

(** ** Scenarios *)

Module Scenario.

(** The end-to-end scenario: [org/tiny-model] at [main], into [/models]. *)
Definition tiny_machine : World.t := Fixture.machine Fixture.tiny_hub.

(** The same hub with a file system under [/models] that has no symbolic
    links, as on a FAT volume; [/tmp], where the probe runs, has them. *)
Definition no_links_machine : World.t :=
  let w := Fixture.machine Fixture.tiny_hub in
  World.mk (World.names w) (World.inodes w) (World.handles w) (World.next_id w)
    (World.env w) (World.hub w) (World.requests w) (World.clock w) (World.tick w)
    (λ p, World.under "/models" p) (World.read_only w) (World.stdout w).

(** A hub that declares 42 bytes for [config.json] and delivers 41. *)
Definition short_hub : Request → error + Response :=
  Hub.serve "org/tiny-model" "main" "c0ffee" Fixture.tiny_listing
    [Hub.mkServed "config.json" "42"
       (Hub.whole "{ model_type: gpt2, n_layer: 2, n_head: }")].

Definition short_machine : World.t := Fixture.machine short_hub.

(** A repository with two files of one content. *)
Definition twin_listing : list TreeEntry :=
  [Fixture.file_entry "a.bin" "abc123" 5; Fixture.file_entry "b.bin" "abc123" 5].

Definition twin_hub : Request → error + Response :=
  Hub.serve "org/twins" "main" "c0ffee" twin_listing
    [Hub.mkServed "a.bin" "5" (Hub.whole "hello");
     Hub.mkServed "b.bin" "5" (Hub.whole "hello")].

Definition twin_machine : World.t := Fixture.machine twin_hub.

(** A schedule for two goroutines: each goes as far as creating the
    temporary file, each then transfers the body and closes the file, and
    then each renames. *)
Definition overlapping : list nat :=
  replicate 8 0%nat ++ replicate 8 1%nat ++ replicate 7 0%nat ++ replicate 7 1%nat
    ++ [0%nat; 1%nat].

End Scenario.

(** The runs of the scenarios, on the reference library. *)
Module Run.

Definition setup (d : Downloader) (modelRepo revision : string) (w : World.t) :=
  exec World.step (Download_setup (H := reference_lib) d modelRepo revision) w.

Definition resolve (modelRepo revision : string) (w : World.t) :=
  exec World.step (getModelInfo (H := reference_lib) modelRepo revision) w.

(** [downloadFile] into [/models], snapshot [c0ffee]. *)
Definition file (modelRepo filename blobId : string) (size : Z) (w : World.t) :=
  exec World.step
    (downloadFile (H := reference_lib) modelRepo "main" filename blobId size
       "/models" "/models/snapshots/c0ffee") w.

Definition download (sched : list nat) (modelRepo : string) (w : World.t) :=
  Download (H := reference_lib) World.step sched Fixture.downloader modelRepo "main" w.

(** The default patterns, compiled. *)
Definition patterns : list MiniRegexp.re :=
  match MustCompile_all (H := reference_lib) (ignorePatterns NewDownloader) with
  | inr res => res
  | inl _ => []
  end.

(** The machines once [Download] has reached the fan-out. *)
Definition tiny_ready : World.t :=
  (setup Fixture.downloader "org/tiny-model" "main" Scenario.tiny_machine).2.

Definition no_links_ready : World.t :=
  (setup Fixture.downloader "org/tiny-model" "main" Scenario.no_links_machine).2.

Definition short_ready : World.t :=
  (setup Fixture.downloader "org/tiny-model" "main" Scenario.short_machine).2.

Definition twin_ready : World.t :=
  (setup Fixture.downloader "org/twins" "main" Scenario.twin_machine).2.

(** The answer of a hub, when it answers. *)
Definition answer (hub : Request → error + Response) (req : Request) : Response :=
  match hub req with
  | inr resp => resp
  | inl _ => Hub.not_found
  end.

Definition config_url : string :=
  resolve_url "org/tiny-model" "main" "config.json".

End Run.

(** ** Clean paths

    What [Clean] makes of a path, for the statements about the paths the
    program builds. *)

Module Lexical.

(** An element of a clean path other than [..]: not empty, not a dot or two,
    and without a separator. *)
Definition proper (e : string) : Prop :=
  e ≠ "" ∧ e ≠ "." ∧ e ≠ ".." ∧ Path.Split Path.slash e = [e].

(** The elements of a clean path: [..] only at the head of a path that is
    not rooted ([dots] tells whether one may still come), proper elements
    after. *)
Fixpoint normal (dots : bool) (es : list string) : Prop :=
  match es with
  | [] => True
  | e :: rest =>
      (e = ".." ∧ dots = true ∧ normal true rest) ∨ (proper e ∧ normal false rest)
  end.

(** The elements [Clean] keeps of a path. *)
Definition elements (p : string) : list string :=
  Path.clean_elems (Path.rooted p) [] (Path.Split Path.slash p).

(** The path [Clean] writes for the elements it has kept. *)
Definition render (root : bool) (es : list string) : string :=
  if root then "/" +:+ Path.Join_with "/" es
  else match es with [] => "." | _ => Path.Join_with "/" es end.

End Lexical.

(** ** The redirect policy of the client

    [NewDownloader] gives the client a [CheckRedirect] function.  It looks at
    the header of the request about to be sent and at the requests made so
    far, oldest first, and changes nothing but that header; a request is
    here its header, the map that [http.Header] is.  The loop over
    [via[0].Header] visits the entries in the order that [range] yields
    them, which Go leaves open: the order is a parameter. *)
Definition copy_missing (entries : list (string * list string))
    (header : gmap string (list string)) : gmap string (list string) :=
  foldl (λ h kv, match h !! kv.1 with
                 | Some _ => h
                 | None => <[kv.1 := kv.2]> h
                 end) header entries.

Definition CheckRedirect
    (range : gmap string (list string) → list (string * list string))
    (reqHeader : gmap string (list string))
    (via : list (gmap string (list string)))
  : gmap string (list string) * option error :=
  if (10 <=? length via)%nat then (reqHeader, Some (OSErr "too many redirects"))
  else match via with
       | first :: _ => (copy_missing (range first) reqHeader, None)
       | [] => (reqHeader, None)
       end.

(** ** Every run of a program *)

(** Every run of [p], whatever it is answered, ends with a result and a
    trace that satisfy [Q]. *)
Fixpoint every_run {R : Type} (p : prog R) (Q : R → list event → Prop) : Prop :=
  match p with
  | Ret r => Q r []
  | Vis e k => ∀ x, every_run (k x) (λ r tr, Q r (Call e x :: tr))
  end.

(** The files a trace opens, for reading or for writing, and those it
    closes. *)
Definition opened_file (ev : event) : option file :=
  match opened_of ev, created_of ev with
  | Some (inr f), _ => Some f
  | _, Some (_, inr f) => Some f
  | _, _ => None
  end.

Definition closed_file (ev : event) : option file :=
  match ev_call ev with
  | FileClose f => Some f
  | _ => None
  end.

Definition opens (tr : list event) : list file := omap opened_file tr.
Definition closes (tr : list event) : list file := omap closed_file tr.

(** The bytes a trace writes to open files, in order: the data of the
    writes that were accepted. *)
Definition written_of (ev : event) : option string :=
  match ev_call ev in osE X return X → option string with
  | FileWrite _ data => λ a, match a with None => Some data | Some _ => None end
  | _ => λ _, None
  end (ev_answer ev).

Definition written (tr : list event) : string :=
  foldr append "" (omap written_of tr).

(** ** What a trace shows of files and transfers *)

(** A call that opens no file and closes none. *)
Definition handle_free {X : Type} (e : osE X) : Prop :=
  match e with
  | OpenFile _ | Create _ | FileClose _ => False
  | _ => True
  end.

(** A program that, in every run, has closed the files it has opened. *)
Definition closes_what_it_opens {R : Type} (p : prog R) : Prop :=
  every_run p (λ _ tr, closes tr ≡ₚ opens tr).

(** A call that makes no request, writes to no file and renames none. *)
Definition settled {X : Type} (e : osE X) : Prop :=
  match e with
  | HttpDo _ | FileWrite _ _ | Rename _ _ => False
  | _ => True
  end.

(** A call of the loop of [downloadWithProgress]. *)
Definition loop_call {X : Type} (e : osE X) : Prop :=
  match e with
  | FileWrite _ _ | Now | Printf _ => True
  | _ => False
  end.

(** What a complete transfer leaves in a trace: one request answered with
    status 200, every write accepted, the bytes of the body written, as
    many as were expected when a positive number was. *)
Definition transferred (expectedSize : Z) (tr : list event) : Prop :=
  ∃ get resp,
    http_calls tr = [(get, inr resp)] ∧ StatusCode resp = StatusOK
    ∧ write_errors tr = []
    ∧ written tr = io_ReadAll (reads (RespBody resp))
    ∧ (0 < expectedSize → wrap64 (byte_count (written tr)) = expectedSize).

(** What a trace shows when a blob has been fetched to its end: the probe
    and the transfer, both answered with status 200, every write accepted,
    the bytes of the body written, as many as the probe declared when it
    declared a positive number. *)
Definition fetched (tr : list event) : Prop :=
  ∃ probe probe_resp get get_resp,
    http_calls tr = [(probe, inr probe_resp); (get, inr get_resp)]
    ∧ StatusCode probe_resp = StatusOK ∧ StatusCode get_resp = StatusOK
    ∧ write_errors tr = []
    ∧ written tr = io_ReadAll (reads (RespBody get_resp))
    ∧ (0 < parseInt64 (Header_Get (Header probe_resp) "Content-Length") →
       wrap64 (byte_count (written tr))
       = parseInt64 (Header_Get (Header probe_resp) "Content-Length")).


(** The requests of a trace, in order. *)
Definition requests (tr : list event) : list Request := omap request_of tr.


(** The errors [Download] returns, by the step that failed. *)
Inductive Download_error : error → Prop :=
| no_model_info (cause : error) :
    Download_error (Errorf "could not get model info" cause)
| no_home_directory (cause : error) :
    Download_error (Errorf "could not get home directory" cause)
| no_directory (dir : string) (cause : error) :
    Download_error (Errorf ("could not create directory " +:+ dir) cause)
| no_snapshot_directory (cause : error) :
    Download_error (Errorf "could not create snapshot directory" cause)
| no_file (filename : string) (cause : error) :
    Download_error (Errorf ("error processing " +:+ filename) cause).


(** ** The command

    [main.go]: the arguments, a downloader with or without a custom path,
    the call of [Download], and the lines the command prints itself before
    and after the call. *)

(** The lines of [main], by the format string that prints them. *)
Inductive line : Type :=
| LineDownloading (modelRepo revision : string)
| LineLocation (customPath : string)
| LineError (err : error)
| LineDownloaded (downloadPath : string).

(** How the command ends: [main] returns (status 0), it calls [os.Exit(1)],
    or the panic of [Download] ends it. *)
Inductive ending : Type :=
| Exited (code : Z)
| Panicking (pattern : string) (err : error).

(** The [switch] on [len(os.Args)], with its [fallthrough]s: the
    repository, the revision and the custom path. *)
Definition parse_args (Args : list string) : string * string * string :=
  let n := length Args in
  let customPath := if (n =? 4)%nat then nth 3 Args "" else "" in
  let revision := if (n =? 4)%nat || (n =? 3)%nat then nth 2 Args "" else "main" in
  let modelRepo :=
    if (n =? 4)%nat || (n =? 3)%nat || (n =? 2)%nat then nth 1 Args ""
    else "openai-community/gpt2" in
  (modelRepo, revision, customPath).

Record main_run (S : Type) : Type := mkMainRun {
  lines_before : list line;
  download_trace : list event;
  lines_after : list line;
  main_ending : ending;
  main_state : S
}.

Arguments mkMainRun {S}.
Arguments lines_before {S}.
Arguments download_trace {S}.
Arguments lines_after {S}.
Arguments main_ending {S}.
Arguments main_state {S}.

Definition main `{GoLib} {S : Type} (h : handler S) (sched : list nat)
    (Args : list string) (s : S) : main_run S :=
  let '(modelRepo, revision, customPath) := parse_args Args in
  let downloader := NewDownloader in
  let downloader :=
    if negb (String.eqb customPath "") then SetCustomPath downloader customPath
    else downloader in
  let before :=
    LineDownloading modelRepo revision
      :: (if negb (String.eqb customPath "") then [LineLocation customPath] else []) in
  let '(out, tr, s') := Download h sched downloader modelRepo revision s in
  match out with
  | Returned _ (Some err) => mkMainRun before tr [LineError err] (Exited 1) s'
  | Returned downloadPath None =>
      mkMainRun before tr [LineDownloaded downloadPath] (Exited 0) s'
  | Panicked pattern err => mkMainRun before tr [] (Panicking pattern err) s'
  end.

(** * Theorems *)

(** ** Paths *)

Example Clean_ex1 : Path.Clean "/a//b/./c/.." = "/a/b".
Proof. reflexivity. Qed.

Example Clean_ex2 : Path.Clean "../../a/../b" = "../../b".
Proof. reflexivity. Qed.

Example Clean_ex3 : Path.Clean "/../a" = "/a".
Proof. reflexivity. Qed.

Example Clean_ex4 : Path.Clean "a/.." = ".".
Proof. reflexivity. Qed.

Example Join_ex1 : Path.Join ["/m"; "snapshots"; "abc"] = "/m/snapshots/abc".
Proof. reflexivity. Qed.

Example Join_ex2 : Path.Join [""; "a"; ""; "b"] = "a/b".
Proof. reflexivity. Qed.

Example Dir_ex1 : Path.Dir "/m/snapshots/abc/x/config.json" = "/m/snapshots/abc/x".
Proof. reflexivity. Qed.

Example Dir_ex2 : Path.Dir "config.json" = ".".
Proof. reflexivity. Qed.

Example Dir_ex3 : Path.Dir "/x" = "/".
Proof. reflexivity. Qed.

Example Rel_ex1 : Path.Rel "/m/snapshots/abc" "/m/blobs/h1" = Some "../../blobs/h1".
Proof. reflexivity. Qed.

Example Rel_ex2 : Path.Rel "/m" "m/x" = None.
Proof. reflexivity. Qed.

Example Rel_ex3 : Path.Rel "/" "/a" = Some "a".
Proof. reflexivity. Qed.

Example Rel_ex4 : Path.Rel "../a" "b" = None.
Proof. reflexivity. Qed.

Example to_native_ex : Path.to_native "onnx/model.onnx" = "onnx/model.onnx".
Proof. reflexivity. Qed.

(** ** Running programs *)

Section Exec.
Context {S : Type} (h : handler S).

Lemma exec_bind {A B : Type} (p : prog A) (f : A → prog B) (s : S) :
  exec h (bind p f) s =
    let '(a, tr1, s1) := exec h p s in
    let '(b, tr2, s2) := exec h (f a) s1 in
    (b, tr1 ++ tr2, s2).
Proof.
  revert s. induction p as [a | X e k IH]; intros s; simpl.
  - destruct (exec h (f a) s) as [[b tr2] s2]. reflexivity.
  - destruct (h X e s) as [x s1]. rewrite IH.
    destruct (exec h (k x) s1) as [[a tr1] s2].
    destruct (exec h (f a) s2) as [[b tr2] s3]. reflexivity.
Qed.

Lemma exec_mbind {A B : Type} (p : prog A) (f : A → prog B) (s : S) :
  exec h (p ≫= f) s =
    let '(a, tr1, s1) := exec h p s in
    let '(b, tr2, s2) := exec h (f a) s1 in
    (b, tr1 ++ tr2, s2).
Proof. apply exec_bind. Qed.

Lemma exec_call {X : Type} (e : osE X) (s : S) :
  exec h (call e) s = ((h X e s).1, [Call e (h X e s).1], (h X e s).2).
Proof. simpl. destruct (h X e s). reflexivity. Qed.

Lemma exec_makes_only {R : Type} (P : ∀ X, osE X → Prop) (p : prog R) (s : S) :
  makes_only P p → Forall (λ ev, P _ (ev_call ev)) (exec h p s).1.2.
Proof.
  revert s. induction p as [a | X e k IH]; intros s; simpl.
  - constructor.
  - intros [He Hk]. destruct (h X e s) as [x s1].
    specialize (IH x s1 (Hk x)).
    destruct (exec h (k x) s1) as [[r tr] s2]. simpl in *.
    constructor; assumption.
Qed.

End Exec.

Lemma makes_only_bind {A B : Type} (P : ∀ X, osE X → Prop)
    (p : prog A) (f : A → prog B) :
  makes_only P p → (∀ a, makes_only P (f a)) → makes_only P (bind p f).
Proof.
  induction p as [a | X e k IH]; simpl; intros Hp Hf.
  - apply Hf.
  - destruct Hp as [He Hk]. split; [assumption |]. intros x. apply IH; auto.
Qed.

Lemma makes_only_mbind {A B : Type} (P : ∀ X, osE X → Prop)
    (p : prog A) (f : A → prog B) :
  makes_only P p → (∀ a, makes_only P (f a)) → makes_only P (p ≫= f).
Proof. apply makes_only_bind. Qed.

Lemma makes_only_weaken {R : Type} (P Q : ∀ X, osE X → Prop) (p : prog R) :
  (∀ X e, P X e → Q X e) → makes_only P p → makes_only Q p.
Proof.
  intros HPQ. induction p as [a | X e k IH]; simpl; [tauto |].
  intros [He Hk]. split; [auto |]. intros x. apply IH, Hk.
Qed.

(** Goals [makes_only P p] on a program written out: every call is looked
    at, every answer is considered. *)
Ltac walk_program :=
  repeat first
    [ progress (cbn [makes_only mbind mret prog_bind prog_ret bind call defer
                     close remove_all])
    | apply makes_only_mbind
    | apply makes_only_bind
    | split
    | intro
    | match goal with
      | |- makes_only _ (match ?x with _ => _ end) => destruct x
      | |- makes_only _ (if ?b then _ else _) => destruct b
      | |- makes_only _ (let '(_, _) := ?x in _) => destruct x
      end
    | exact I ].

(** ** Compiling the ignore patterns (C10) *)

Section Patterns.
Context `{GoLib}.

Lemma MustCompile_all_invalid (patterns : list string) (bad : string) (err : error) :
  bad ∈ patterns → regexp_Compile bad = inl err →
  ∃ pattern e, MustCompile_all patterns = inl (pattern, e)
               ∧ pattern ∈ patterns ∧ regexp_Compile pattern = inl e.
Proof.
  induction patterns as [| p rest IH]; intros Hin Hbad.
  - inversion Hin.
  - simpl. destruct (regexp_Compile p) as [e | re] eqn:Hp.
    + exists p, e. split; [reflexivity |]. split; [left | assumption].
    + assert (Hrest : bad ∈ rest).
      { apply elem_of_cons in Hin as [-> | Hin]; [congruence | assumption]. }
      destruct (IH Hrest Hbad) as (q & e & Hq & Hqin & Hqbad).
      rewrite Hq. exists q, e. split; [reflexivity |]. split; [right |]; assumption.
Qed.

Lemma MustCompile_all_valid (patterns : list string) (res : list Regexp) :
  MustCompile_all patterns = inr res →
  Forall2 (λ pattern re, regexp_Compile pattern = inr re) patterns res.
Proof.
  revert res. induction patterns as [| p rest IH]; intros res; simpl.
  - intros [= <-]. constructor.
  - destruct (regexp_Compile p) as [e | re] eqn:Hp; [discriminate |].
    destruct (MustCompile_all rest) as [[q e] | res'] eqn:Hrest; [discriminate |].
    intros [= <-]. constructor; [assumption | apply IH; reflexivity].
Qed.

(** C10.  [SetIgnorePatterns] stores whatever patterns it is given.  When
    one of them is not a valid regular expression, [Download] panics in
    [regexp.MustCompile], on a pattern of the list that does not compile,
    before it has made any call at all: no request, no file system
    operation, the environment untouched.  It does not return an error. *)
Theorem Download_panics_on_invalid_pattern {S : Type} (h : handler S)
    (sched : list nat) (d : Downloader) (patterns : list string)
    (bad : string) (err : error) (modelRepo revision : string) (s : S) :
  bad ∈ patterns → regexp_Compile bad = inl err →
  ignorePatterns (SetIgnorePatterns d patterns) = patterns
  ∧ customPath (SetIgnorePatterns d patterns) = customPath d
  ∧ ∃ pattern e,
      Download h sched (SetIgnorePatterns d patterns) modelRepo revision s
        = (Panicked pattern e, [], s)
      ∧ pattern ∈ patterns ∧ regexp_Compile pattern = inl e.
Proof.
  intros Hin Hbad. split; [reflexivity |]. split; [reflexivity |].
  destruct (MustCompile_all_invalid patterns bad err Hin Hbad)
    as (p & e & Hp & Hpin & Hpbad).
  exists p, e. split; [| split; assumption].
  unfold Download, Download_setup. simpl. rewrite Hp. reflexivity.
Qed.

End Patterns.

(** ** Metadata resolution (C5, C7) *)

Section Resolution.
Context `{GoLib} {S : Type} (h : handler S).

(** A run of [getModelInfo]: no call when the request cannot be built,
    else the token is read and the one request is made. *)
Lemma getModelInfo_run (modelRepo revision : string) (s : S) :
  match http_NewRequest_error "GET"
          (HF_API_URL +:+ "/models/" +:+ modelRepo +:+ "/tree/" +:+ revision) with
  | Some err =>
      exec h (getModelInfo modelRepo revision) s
        = (inl (Errorf "error creating request" err), [], s)
  | None =>
      let '(token, s1) := h _ (Getenv HF_TOKEN_ENV) s in
      let req := tree_request modelRepo revision token in
      let '(a, s2) := h _ (HttpDo req) s1 in
      exec h (getModelInfo modelRepo revision) s
        = (resolved revision a,
           [Call (Getenv HF_TOKEN_ENV) token; Call (HttpDo req) a], s2)
  end.
Proof.
  unfold getModelInfo, http_NewRequest, tree_request.
  destruct (http_NewRequest_error _ _) as [err |]; [reflexivity |].
  simpl. destruct (h _ (Getenv HF_TOKEN_ENV) s) as [token s1].
  destruct (h _ (HttpDo _) s1) as [a s2].
  destruct a as [err | resp]; simpl; [reflexivity |].
  destruct (StatusCode resp =? StatusOK); simpl; [| reflexivity].
  destruct (json_tree (RespBody resp)); reflexivity.
Qed.

Lemma getModelInfo_calls (modelRepo revision : string) :
  makes_only (λ X e, kind_of e ≠ FileSystem) (getModelInfo modelRepo revision).
Proof.
  unfold getModelInfo, with_token.
  destruct (http_NewRequest _ _); walk_program; simpl in *; discriminate.
Qed.

(** The three ways a resolution fails once its request is built: the
    transport fails, the status is not 200, the body does not decode. *)
Lemma resolved_failure (revision : string) (a : error + Response) :
  (∃ err, a = inl err)
  ∨ (∃ resp, a = inr resp ∧ StatusCode resp ≠ StatusOK)
  ∨ (∃ resp err, a = inr resp ∧ json_tree (RespBody resp) = inl err) →
  ∃ err, resolved revision a = inl err.
Proof.
  intros [[err ->] | [(resp & -> & Hst) | (resp & err & -> & Hj)]]; simpl.
  - eauto.
  - destruct (StatusCode resp =? StatusOK) eqn:E; simpl; [| eauto].
    apply Z.eqb_eq in E. contradiction.
  - rewrite Hj. destruct (negb _); eauto.
Qed.

(** C7.  When metadata resolution fails, [Download] returns that error
    (under its own heading), and the run consists of the calls of the
    resolution alone, none of which touches the file system: no directory
    has been created, under the storage root or anywhere else. *)
Theorem Download_resolution_failure (sched : list nat) (d : Downloader)
    (modelRepo revision : string) (res : list Regexp) (err : error)
    (s s' : S) (tr : list event) :
  MustCompile_all (ignorePatterns d) = inr res →
  exec h (getModelInfo modelRepo (default_revision revision)) s = (inl err, tr, s') →
  Download h sched d modelRepo revision s
    = (Returned "" (Some (Errorf "could not get model info" err)), tr, s')
  ∧ Forall (λ ev, ev_kind ev ≠ FileSystem) tr.
Proof.
  intros Hres Hrun. split.
  - unfold Download, Download_setup. rewrite Hres.
    rewrite exec_mbind, Hrun. simpl. rewrite app_nil_r. reflexivity.
  - pose proof (exec_makes_only h _ _ s
                  (getModelInfo_calls modelRepo (default_revision revision))) as Hall.
    rewrite Hrun in Hall. exact Hall.
Qed.

(** C5, as amended.  In every successful resolution there was one request,
    answered with status 200 and a body that decodes; the manifest is made
    of the entries of type [file]; and the commit identifier is the commit
    header when it is not empty, else the object identifier of the first
    entry of the listing, of whatever type, when there is one and it is not
    empty, else the revision label. *)
Theorem commit_id_derivation (modelRepo revision : string) (s s' : S)
    (modelInfo : ModelInfo) (commitHash : string) (tr : list event) :
  exec h (getModelInfo modelRepo revision) s = (inr (modelInfo, commitHash), tr, s') →
  ∃ req resp files,
    http_calls tr = [(req, inr resp)]
    ∧ StatusCode resp = StatusOK
    ∧ json_tree (RespBody resp) = inr files
    ∧ modelInfo = mkModelInfo (siblings_of files)
    ∧ let header := Header_Get (Header resp) "X-Repo-Commit" in
      (header ≠ "" → commitHash = header)
      ∧ (header = "" → ∀ f rest, files = f :: rest → te_Oid f ≠ "" →
         commitHash = te_Oid f)
      ∧ (header = "" → ∀ f rest, files = f :: rest → te_Oid f = "" →
         commitHash = revision)
      ∧ (header = "" → files = [] → commitHash = revision).
Proof.
  intros Hrun. pose proof (getModelInfo_run modelRepo revision s) as Hshape.
  destruct (http_NewRequest_error _ _) as [e |].
  { rewrite Hshape in Hrun. discriminate. }
  destruct (h _ (Getenv HF_TOKEN_ENV) s) as [token s1]. cbv zeta in Hshape.
  destruct (h _ (HttpDo _) s1) as [a s2].
  rewrite Hshape in Hrun. injection Hrun as Hres Htr Hs. subst tr.
  destruct a as [e | resp]; simpl in Hres; [discriminate |].
  destruct (StatusCode resp =? StatusOK) eqn:Hst; simpl in Hres; [| discriminate].
  destruct (json_tree (RespBody resp)) as [e | files] eqn:Hjson; [discriminate |].
  injection Hres as Hmi Hc.
  exists (tree_request modelRepo revision token), resp, files.
  split; [reflexivity |]. split; [apply Z.eqb_eq; assumption |].
  split; [exact Hjson |]. split; [symmetry; assumption |].
  subst commitHash. unfold commitHash_of. cbv zeta.
  destruct (String.eqb_spec (Header_Get (Header resp) "X-Repo-Commit") "") as [Hh | Hh].
  - rewrite Hh. repeat split; intros; try congruence.
    + subst files. simpl. destruct (String.eqb_spec (te_Oid f) ""); congruence.
    + subst files. simpl. destruct (String.eqb_spec (te_Oid f) ""); congruence.
    + subst files. reflexivity.
  - repeat split; intros; try congruence.
    destruct files; destruct (String.eqb_spec (Header_Get (Header resp) "X-Repo-Commit") "");
      congruence.
Qed.

End Resolution.

(** ** The goroutines under a schedule *)

Lemma exec_returns_only {S R : Type} (h : handler S) (Q : R → Prop)
    (p : prog R) (s : S) :
  returns_only Q p → Q (exec h p s).1.1.
Proof.
  revert s. induction p as [a | X e k IH]; intros s; simpl; [tauto |].
  intros Hk. destruct (h X e s) as [x s1]. specialize (IH x s1 (Hk x)).
  destruct (exec h (k x) s1) as [[r tr] s2]. exact IH.
Qed.

Lemma returns_only_bind {A B : Type} (Q : B → Prop) (p : prog A) (f : A → prog B) :
  (∀ a, returns_only Q (f a)) → returns_only Q (bind p f).
Proof.
  intros Hf. induction p as [a | X e k IH]; simpl; [apply Hf |].
  intros x. apply IH.
Qed.

Section Pool.
Context {S : Type} (h : handler S).
Context (P : ∀ X, osE X → Prop) (Q : error → Prop).

Lemma run_rest_good (live : list (prog (option error))) (chan : list error) (s : S) :
  Forall (within P Q) live → Forall Q chan →
  Forall Q (run_rest h live chan s).1.1
  ∧ Forall (λ ev, P _ (ev_call ev)) (run_rest h live chan s).1.2.
Proof.
  revert chan s. induction live as [| p rest IH]; intros chan s Hlive Hchan; simpl.
  - split; [assumption | constructor].
  - inversion Hlive as [| ? ? [Hp Hr] Hrest]; subst.
    pose proof (exec_makes_only h P p s Hp) as Htr.
    pose proof (exec_returns_only h _ p s Hr) as Hres.
    destruct (exec h p s) as [[r tr] s1]. simpl in Htr, Hres.
    assert (Hchan' : Forall Q (chan ++ sent r)).
    { apply Forall_app. split; [assumption |].
      destruct r as [err |]; simpl; [| constructor].
      constructor; [apply Hres; reflexivity | constructor]. }
    specialize (IH (chan ++ sent r) s1 Hrest Hchan').
    destruct (run_rest h rest (chan ++ sent r) s1) as [[chan' tr'] s2].
    simpl in *. destruct IH as [IH1 IH2].
    split; [assumption |]. apply Forall_app. split; assumption.
Qed.

(** Whatever the schedule: the calls made are calls of the goroutines, and
    the errors on the channel are errors they return. *)
Lemma run_pool_good (sched : list nat) (live : list (prog (option error)))
    (chan : list error) (s : S) :
  Forall (within P Q) live → Forall Q chan →
  Forall Q (run_pool h sched live chan s).1.1
  ∧ Forall (λ ev, P _ (ev_call ev)) (run_pool h sched live chan s).1.2.
Proof.
  revert live chan s.
  induction sched as [| n sched IH]; intros live chan s Hlive Hchan; simpl.
  - apply run_rest_good; assumption.
  - destruct (live !! (n mod length live)%nat) as [p |] eqn:Hp;
      [| split; [assumption | constructor]].
    pose proof (proj1 (Forall_lookup _ _) Hlive _ _ Hp) as [Hmk Hret].
    destruct p as [r | X e k]; simpl in Hmk, Hret.
    + apply IH.
      * apply Forall_delete. assumption.
      * apply Forall_app. split; [assumption |].
        destruct r as [err |]; simpl; [| constructor].
        constructor; [apply Hret; reflexivity | constructor].
    + destruct (h X e s) as [x s1]. destruct Hmk as [He Hk].
      assert (Hlive' : Forall (within P Q) (<[(n mod length live)%nat := k x]> live)).
      { apply Forall_insert; [assumption |]. split; [apply Hk | apply Hret]. }
      specialize (IH _ chan s1 Hlive' Hchan).
      destruct (run_pool h sched _ chan s1) as [[chan' tr] s2]. simpl in *.
      destruct IH as [IH1 IH2]. split; [assumption |].
      constructor; assumption.
Qed.

End Pool.

(** ** [Download] before the fan-out (C1, C8) *)

Section Setup.
Context `{GoLib} {S : Type} (h : handler S).

Lemma storage_location_run (d : Downloader) (modelRepo : string) (s s' : S)
    (root : string) (tr : list event) :
  exec h (storage_location d modelRepo) s = (inr root, tr, s') →
  (customPath d ≠ "" ∧ root = customPath d ∧ tr = [] ∧ s' = s)
  ∨ (customPath d = ""
     ∧ ∃ homeDir,
         tr = [Call UserHomeDir (inr homeDir)]
         ∧ root = Path.Join [homeDir; ".cache"; "huggingface"; "hub";
                             repoFolderName modelRepo "model"]).
Proof.
  unfold storage_location.
  destruct (String.eqb_spec (customPath d) "") as [Hc | Hc]; simpl.
  - destruct (h _ UserHomeDir s) as [[err | homeDir] s1]; simpl; [discriminate |].
    intros [= <- <- <-]. right. split; [assumption |]. eauto.
  - intros [= <- <- <-]. left. auto.
Qed.

(** What a run of [Download_setup] that reaches the fan-out went through. *)
Lemma Download_setup_inv (d : Downloader) (modelRepo revision : string)
    (s s' : S) (r : outcome + fanout) (tr : list event) :
  exec h (Download_setup d modelRepo revision) s = (r, tr, s') →
  match r with
  | inl (Returned _ None) => False
  | inl _ => True
  | inr fo =>
      let rev := default_revision revision in
      ∃ res modelInfo commitHash tr0 s0 tr1 s1 tr2 s2 trw s3,
        let snapshotDir := Path.Join [fo_storage fo; "snapshots"; commitHash] in
        MustCompile_all (ignorePatterns d) = inr res
        ∧ exec h (getModelInfo modelRepo rev) s = (inr (modelInfo, commitHash), tr0, s0)
        ∧ exec h (storage_location d modelRepo) s0 = (inr (fo_storage fo), tr1, s1)
        ∧ exec h (create_dirs (layout_dirs (fo_storage fo))) s1 = (None, tr2, s2)
        ∧ exec h (cache_commit_hash (fo_storage fo) rev commitHash) s2 = ((), trw, s3)
        ∧ h _ (MkdirAll snapshotDir) s3 = (None, s')
        ∧ tr = tr0 ++ tr1 ++ tr2 ++ trw ++ [Call (MkdirAll snapshotDir) None]
        ∧ fo_tasks fo = launch res modelRepo rev (fo_storage fo) snapshotDir
                          (Siblings modelInfo)
  end.
Proof.
  unfold Download_setup.
  destruct (MustCompile_all (ignorePatterns d)) as [[p e] | res] eqn:Hres.
  { simpl. intros [= <- <- <-]. exact I. }
  rewrite exec_mbind.
  destruct (exec h (getModelInfo _ _) s) as [[[err | [modelInfo commitHash]] tr0] s0] eqn:H0.
  { simpl. intros [= <- <- <-]. exact I. }
  rewrite exec_mbind.
  destruct (exec h (storage_location _ _) s0) as [[[err | root] tr1] s1] eqn:H1.
  { simpl. intros [= <- <- <-]. exact I. }
  rewrite exec_mbind.
  destruct (exec h (create_dirs _) s1) as [[[err |] tr2] s2] eqn:H2.
  { simpl. intros [= <- <- <-]. exact I. }
  rewrite exec_mbind.
  destruct (exec h (cache_commit_hash _ _ _) s2) as [[[] trw] s3] eqn:H3.
  simpl. destruct (h _ (MkdirAll _) s3) as [[err |] s4] eqn:H4; simpl.
  { intros [= <- <- <-]. exact I. }
  intros [= <- <- <-]. simpl.
  exists res, modelInfo, commitHash, tr0, s0, tr1, s1, tr2, s2, trw, s3.
  repeat split; try assumption; try reflexivity.
Qed.

(** C1, as amended.  When [Download] succeeds it returns the storage
    folder: the custom path when one is set, else the folder of the
    repository in the hub cache of the home directory.  The snapshot
    directory of the resolved commit is not what it returns; it is the
    directory [snapshots/<commit>] that the call has created under the
    folder returned. *)
Theorem Download_returns_storage_folder (sched : list nat) (d : Downloader)
    (modelRepo revision : string) (s s' : S) (path : string) (tr : list event) :
  Download h sched d modelRepo revision s = (Returned path None, tr, s') →
  (customPath d ≠ "" → path = customPath d)
  ∧ (customPath d = "" →
     ∃ homeDir,
       Call UserHomeDir (inr homeDir) ∈ tr
       ∧ path = Path.Join [homeDir; ".cache"; "huggingface"; "hub";
                           repoFolderName modelRepo "model"])
  ∧ ∃ modelInfo commitHash tr0 s0,
      exec h (getModelInfo modelRepo (default_revision revision)) s
        = (inr (modelInfo, commitHash), tr0, s0)
      ∧ Call (MkdirAll (Path.Join [path; "snapshots"; commitHash])) None ∈ tr.
Proof.
  unfold Download.
  destruct (exec h (Download_setup _ _ _) s) as [[r tra] sa] eqn:Hsetup.
  pose proof (Download_setup_inv _ _ _ _ _ _ _ Hsetup) as Hinv.
  destruct r as [out | fo].
  { intros [= -> <- <-]. exact (False_ind _ Hinv). }
  destruct (run_pool h sched _ [] sa) as [[chan trb] sb].
  destruct chan as [| err chan]; [| discriminate].
  intros [= <- <- <-].
  destruct Hinv as (res & mi & c & tr0 & s0 & tr1 & s1 & tr2 & s2 & trw & s3
                    & Hres & H0 & H1 & H2 & H3 & H4 & Htr & Hlaunch).
  apply storage_location_run in H1 as Hloc.
  split; [| split].
  - intros Hc. destruct Hloc as [(_ & -> & _) | (Hc' & _)]; [reflexivity | contradiction].
  - intros Hc. destruct Hloc as [(Hc' & _) | (_ & homeDir & Htr1 & ->)]; [contradiction |].
    exists homeDir. split; [| reflexivity].
    subst tra tr1. rewrite !elem_of_app. left. right. left. apply list_elem_of_here.
  - exists mi, c, tr0, s0. split; [assumption |].
    subst tra. rewrite !elem_of_app. left. do 4 right. apply list_elem_of_here.
Qed.

Lemma goroutine_sends (modelRepo revision storageFolder snapshotDir : string)
    (file : Sibling) :
  returns_only (λ r, ∀ err, r = Some err → processing_error err)
    (task_body (goroutine modelRepo revision storageFolder snapshotDir file)).
Proof.
  apply returns_only_bind. intros [cause |]; simpl.
  - intros err [= <-]. exists (RID file), cause. reflexivity.
  - intros err [=].
Qed.

Lemma launch_sends (res : list Regexp)
    (modelRepo revision storageFolder snapshotDir : string) (siblings : list Sibling) :
  Forall (within (λ _ _, True) processing_error)
    (task_body <$> launch res modelRepo revision storageFolder snapshotDir siblings).
Proof.
  induction siblings as [| file rest IH]; simpl; [constructor |].
  destruct (shouldDownload res (RID file)); [| assumption].
  constructor; [| assumption]. split; [| apply goroutine_sends].
  generalize (task_body (goroutine modelRepo revision storageFolder snapshotDir file)).
  intros p. induction p; simpl; auto.
Qed.

(** C8.  Once the manifest is resolved and the four directories exist:
    when the revision differs from the commit identifier, the next calls
    create the parent of [refs/<revision>] and write the commit identifier
    to that file, and a failure of that write is answered by a warning
    line and by nothing else; when they are equal no call is made.  Either
    way [Download] goes on to create the snapshot directory, and what it
    returns does not depend on the answer to the write: an error it returns
    comes from the snapshot directory or from a goroutine. *)
Theorem revision_pointer (d : Downloader) (modelRepo revision : string)
    (res : list Regexp) (modelInfo : ModelInfo) (commitHash root : string)
    (s s0 s1 s2 : S) (tr0 tr1 tr2 : list event) :
  let rev := default_revision revision in
  let refPath := Path.Join [root; "refs"; rev] in
  let snapshotDir := Path.Join [root; "snapshots"; commitHash] in
  MustCompile_all (ignorePatterns d) = inr res →
  exec h (getModelInfo modelRepo rev) s = (inr (modelInfo, commitHash), tr0, s0) →
  exec h (storage_location d modelRepo) s0 = (inr root, tr1, s1) →
  exec h (create_dirs (layout_dirs root)) s1 = (None, tr2, s2) →
  ∃ trw s3 a s4,
    exec h (cache_commit_hash root rev commitHash) s2 = ((), trw, s3)
    ∧ (rev = commitHash → trw = [])
    ∧ (rev ≠ commitHash →
       ∃ a1 a2,
         trw = Call (MkdirAll (Path.Dir refPath)) a1
               :: Call (WriteFile refPath commitHash) a2
               :: match a2 with
                  | Some err => [Call (Printf (WarnRevisionRef err)) ()]
                  | None => []
                  end)
    ∧ h _ (MkdirAll snapshotDir) s3 = (a, s4)
    ∧ exec h (Download_setup d modelRepo revision) s
      = (match a with
         | Some err =>
             inl (Returned "" (Some (Errorf "could not create snapshot directory" err)))
         | None =>
             inr (mkFanout root
                    (launch res modelRepo rev root snapshotDir (Siblings modelInfo)))
         end,
         tr0 ++ tr1 ++ tr2 ++ trw ++ [Call (MkdirAll snapshotDir) a], s4)
    ∧ ∀ sched path err tr s',
        Download h sched d modelRepo revision s = (Returned path (Some err), tr, s') →
        (∃ cause, a = Some cause
                  ∧ err = Errorf "could not create snapshot directory" cause)
        ∨ processing_error err.
Proof.
  intros rev refPath snapshotDir Hres H0 H1 H2.
  destruct (exec h (cache_commit_hash root rev commitHash) s2) as [[[] trw] s3] eqn:H3.
  destruct (h _ (MkdirAll snapshotDir) s3) as [a s4] eqn:H4.
  exists trw, s3, a, s4.
  assert (Hsetup : exec h (Download_setup d modelRepo revision) s
      = (match a with
         | Some err =>
             inl (Returned "" (Some (Errorf "could not create snapshot directory" err)))
         | None =>
             inr (mkFanout root
                    (launch res modelRepo rev root snapshotDir (Siblings modelInfo)))
         end,
         tr0 ++ tr1 ++ tr2 ++ trw ++ [Call (MkdirAll snapshotDir) a], s4)).
  { unfold Download_setup. rewrite Hres. fold rev.
    rewrite exec_mbind, H0. rewrite exec_mbind, H1. rewrite exec_mbind, H2.
    rewrite exec_mbind, H3. fold snapshotDir. simpl. rewrite H4.
    destruct a; reflexivity. }
  split; [reflexivity |]. split; [| split; [| split; [exact H4 | split; [exact Hsetup |]]]].
  - intros Heq. unfold cache_commit_hash in H3.
    rewrite Heq, String.eqb_refl in H3. simpl in H3. congruence.
  - intros Hne. unfold cache_commit_hash in H3.
    destruct (String.eqb_spec rev commitHash) as [| _]; [contradiction |].
    simpl in H3. fold refPath in H3.
    destruct (h _ (MkdirAll (Path.Dir refPath)) s2) as [a1 sa].
    destruct (h _ (WriteFile refPath commitHash) sa) as [a2 sb].
    exists a1, a2. destruct a2 as [err |]; simpl in H3.
    + destruct (h _ (Printf (WarnRevisionRef err)) sb) as [[] sc].
      simpl in H3. injection H3 as <- <-. reflexivity.
    + injection H3 as <- <-. reflexivity.
  - intros sched path err tr s'. unfold Download. rewrite Hsetup.
    destruct a as [cause |].
    + intros [= _ <- _ _]. left. eauto.
    + pose proof (run_pool_good h (λ _ _, True) processing_error sched
                    (task_body <$> launch res modelRepo rev root snapshotDir
                                     (Siblings modelInfo)) [] s4
                    (launch_sends _ _ _ _ _ _) (List.Forall_nil _)) as [Hchan _].
      simpl. destruct (run_pool h sched _ [] s4) as [[chan trp] sp]. simpl in Hchan.
      destruct chan as [| e chan]; [discriminate |].
      intros [= _ <- _ _]. right. inversion Hchan; assumption.
Qed.

End Setup.

(** ** The calls of each function *)

Section Footprints.
Context `{GoLib} (P : ∀ X, osE X → Prop).

Lemma with_token_calls (req : Request) :
  P _ (Getenv HF_TOKEN_ENV) → makes_only P (with_token req).
Proof. intros Henv. unfold with_token. walk_program. assumption. Qed.

Lemma with_token_returns (req : Request) :
  returns_only (λ r, URL r = URL req ∧ Method r = Method req) (with_token req).
Proof.
  unfold with_token. simpl. intros token.
  destruct (String.eqb token ""); simpl; auto.
Qed.

Lemma read_loop_calls (out : file) (expectedSize : Z) (body : list ReadResult)
    (downloaded last : Z) :
  (∀ data, P _ (FileWrite out data)) → P _ Now → (∀ m, P _ (Printf m)) →
  makes_only P (read_loop out expectedSize body downloaded last).
Proof.
  intros Hw Hn Hp. revert downloaded last.
  induction body as [| rd rest IH]; intros downloaded last; simpl; [exact I |].
  destruct (rd_err rd); walk_program; auto.
Qed.

Lemma makes_only_returns {A B : Type} (Q : A → Prop) (p : prog A) (f : A → prog B) :
  makes_only P p → returns_only Q p → (∀ a, Q a → makes_only P (f a)) →
  makes_only P (bind p f).
Proof.
  induction p as [a | X e k IH]; simpl; intros Hp Hq Hf.
  - apply Hf, Hq.
  - destruct Hp as [He Hk]. split; [assumption |]. intros x. apply IH; auto.
Qed.

Lemma getFileMetadata_calls (url : string) :
  P _ (Getenv HF_TOKEN_ENV) →
  (∀ req, URL req = url → Method req = "HEAD" → P _ (HttpDo req)) →
  makes_only P (getFileMetadata url).
Proof.
  intros Henv Hhttp. unfold getFileMetadata, http_NewRequest.
  destruct (http_NewRequest_error "HEAD" url); [exact I |].
  apply (makes_only_returns _ _ _ (with_token_calls _ Henv) (with_token_returns _)).
  simpl. intros req [Hurl Hm]. split; [apply Hhttp; assumption |].
  intros [err | resp]; [exact I |]. destruct (negb _); exact I.
Qed.

Lemma transfer_calls (url : string) (out : file) (expectedSize : Z) :
  P _ (Getenv HF_TOKEN_ENV) →
  (∀ req, URL req = url → Method req = "GET" → P _ (HttpDo req)) →
  (∀ data, P _ (FileWrite out data)) → P _ Now → (∀ m, P _ (Printf m)) →
  makes_only P (transfer url out expectedSize).
Proof.
  intros Henv Hhttp Hw Hn Hp. unfold transfer, http_NewRequest.
  destruct (http_NewRequest_error "GET" url); [exact I |].
  apply (makes_only_returns _ _ _ (with_token_calls _ Henv) (with_token_returns _)).
  simpl. intros req [Hurl Hm]. split; [apply Hhttp; assumption |].
  intros [err | resp]; [exact I |]. destruct (negb _); [exact I |].
  simpl. split; [assumption |]. intros now.
  apply makes_only_bind; [apply read_loop_calls; auto |].
  intros [err | n]; [exact I |]. walk_program; auto.
Qed.

Lemma downloadWithProgress_calls (url filepath : string) (expectedSize : Z) :
  P _ (MkdirAll (Path.Dir filepath)) → P _ (Create filepath) →
  P _ (Getenv HF_TOKEN_ENV) →
  (∀ req, URL req = url → Method req = "GET" → P _ (HttpDo req)) →
  (∀ f data, P _ (FileWrite f data)) → (∀ f, P _ (FileClose f)) →
  P _ Now → (∀ m, P _ (Printf m)) →
  makes_only P (downloadWithProgress url filepath expectedSize).
Proof.
  intros Hmk Hcr Henv Hhttp Hw Hcl Hn Hp. unfold downloadWithProgress.
  cbn [mbind prog_bind bind call makes_only]. split; [assumption |].
  intros [err |]; [exact I |].
  cbn [bind makes_only]. split; [assumption |].
  intros [err | out]; [exact I |]. unfold defer.
  apply makes_only_mbind; [apply transfer_calls; auto |].
  intros r; walk_program; auto.
Qed.

Lemma isSymlinkSupported_calls :
  (∀ dir pattern, P _ (MkdirTemp dir pattern)) → (∀ p data, P _ (WriteFile p data)) →
  (∀ o n, P _ (Symlink o n)) → (∀ p, P _ (RemoveAll p)) →
  makes_only P isSymlinkSupported.
Proof. intros Ht Hw Hs Hr. unfold isSymlinkSupported. walk_program; auto. Qed.

Lemma copyFile_calls (src dst : string) :
  P _ (OpenFile src) → P _ (Create dst) → (∀ d s, P _ (Copy d s)) →
  (∀ f, P _ (FileClose f)) →
  makes_only P (copyFile src dst).
Proof. intros Ho Hc Hcp Hcl. unfold copyFile. walk_program; auto. Qed.

Lemma place_pointer_calls (filename blobPath pointerPath : string) :
  (∀ X (e : osE X), placing_call e → P X e) →
  makes_only P (place_pointer filename blobPath pointerPath).
Proof.
  intros HP. unfold place_pointer.
  apply makes_only_mbind.
  { apply isSymlinkSupported_calls; intros; apply HP; exact I. }
  intros supported. apply makes_only_mbind; [| walk_program; apply HP; exact I].
  assert (Hcopy : makes_only P (copyFile blobPath pointerPath)).
  { apply copyFile_calls; intros; apply HP; exact I. }
  destruct supported.
  - cbn [mbind prog_bind bind call makes_only]. split; [apply HP; exact I |].
    intros st. apply makes_only_bind; [walk_program; apply HP; exact I |].
    intros _. cbn [bind makes_only]. split; [apply HP; exact I |].
    intros [err |]; [| exact I].
    cbn [bind makes_only]. split; [apply HP; exact I |]. intros _.
    apply makes_only_bind; [exact Hcopy |]. intros [e |]; exact I.
  - apply makes_only_mbind; [exact Hcopy |]. intros [e |]; exact I.
Qed.

Lemma fetch_blob_calls (modelRepo revision filename blobPath : string) :
  let url := resolve_url modelRepo revision filename in
  P _ (Getenv HF_TOKEN_ENV) → (∀ req, URL req = url → P _ (HttpDo req)) →
  P _ (MkdirAll (Path.Dir (blobPath +:+ ".incomplete"))) →
  P _ (Create (blobPath +:+ ".incomplete")) →
  (∀ f data, P _ (FileWrite f data)) → (∀ f, P _ (FileClose f)) →
  P _ Now → (∀ m, P _ (Printf m)) →
  P _ (Rename (blobPath +:+ ".incomplete") blobPath) →
  makes_only P (fetch_blob modelRepo revision filename blobPath).
Proof.
  intros url Henv Hhttp Hmk Hcr Hw Hcl Hn Hp Hrn. unfold fetch_blob.
  fold (resolve_url modelRepo revision filename). fold url.
  apply makes_only_mbind; [apply getFileMetadata_calls; auto |].
  intros [err | metadata]; [exact I |].
  cbn [mbind prog_bind bind call makes_only]. split; [apply Hp |].
  intros _. apply makes_only_bind; [apply downloadWithProgress_calls; auto |].
  intros [err |]; [exact I |]. walk_program; assumption.
Qed.

Lemma downloadFile_calls (modelRepo revision filename blobId : string) (size : Z)
    (storageFolder snapshotDir : string) :
  (∀ X (e : osE X), requests_only (resolve_url modelRepo revision filename) e → P X e) →
  makes_only P (downloadFile modelRepo revision filename blobId size
                  storageFolder snapshotDir).
Proof.
  intros HP. unfold downloadFile.
  assert (Hfetch : ∀ b, makes_only P
            (fetch_and_place b modelRepo revision filename
               (Path.Join [storageFolder; "blobs"; blobId])
               (Path.Join [snapshotDir; Path.to_native filename]))).
  { intros b. unfold fetch_and_place. apply makes_only_mbind.
    - destruct (negb b); [| exact I].
      apply fetch_blob_calls; intros; apply HP; simpl; auto.
    - intros [err |]; [exact I |]. apply place_pointer_calls.
      intros X e He. apply HP. destruct e; simpl in *; auto; contradiction. }
  cbn [mbind prog_bind bind call makes_only]. split; [apply HP; exact I |].
  intros [err |]; [exact I |].
  cbn [bind makes_only]. split; [apply HP; exact I |]. intros st1.
  split; [apply HP; exact I |]. intros st2.
  destruct (_ && negb _).
  - cbn [mbind prog_bind bind call makes_only]. split; [apply HP; exact I |].
    intros _. apply Hfetch.
  - destruct (_ && _); [| apply Hfetch].
    walk_program; apply HP; exact I.
Qed.

End Footprints.

(** ** The ignore patterns in the fan-out (C6) *)

Lemma append_inj_r (p a b : string) : p +:+ a = p +:+ b → a = b.
Proof.
  induction p as [| c p IH]; simpl; [tauto |]. intros [= Heq]. auto.
Qed.

Lemma resolve_url_inj (modelRepo revision f g : string) :
  resolve_url modelRepo revision f = resolve_url modelRepo revision g → f = g.
Proof.
  unfold resolve_url. intros Heq.
  repeat (apply append_inj_r in Heq). exact Heq.
Qed.

Section FanOut.
Context `{GoLib}.

Lemma shouldDownload_false (res : list Regexp) (rid : string) :
  shouldDownload res rid = false ↔
  ∃ pattern, pattern ∈ res ∧ regexp_MatchString pattern rid = true.
Proof.
  induction res as [| re rest IH]; simpl.
  - split; [discriminate |]. intros (p & Hp & _). inversion Hp.
  - destruct (regexp_MatchString re rid) eqn:Hm.
    + split; [| reflexivity]. intros _. exists re. split; [left | assumption].
    + rewrite IH. split.
      * intros (p & Hp & Hpm). exists p. split; [right |]; assumption.
      * intros (p & Hp & Hpm). apply elem_of_cons in Hp as [-> | Hp]; [congruence |].
        eauto.
Qed.

(** The goroutines launched are those of the entries that no pattern
    matches, in the order of the listing. *)
Lemma launch_filter (res : list Regexp)
    (modelRepo revision storageFolder snapshotDir : string) (siblings : list Sibling) :
  launch res modelRepo revision storageFolder snapshotDir siblings
  = goroutine modelRepo revision storageFolder snapshotDir
      <$> filter (λ f, shouldDownload res (RID f) = true) siblings.
Proof.
  induction siblings as [| f rest IH]; simpl; [reflexivity |].
  rewrite filter_cons. destruct (shouldDownload res (RID f)) eqn:Hf.
  - rewrite decide_True by reflexivity. simpl. rewrite IH. reflexivity.
  - rewrite decide_False by discriminate. exact IH.
Qed.

(** C6.  An entry whose path matches one of the compiled patterns is not in
    the fan-out: the goroutines launched are exactly those of the entries
    of the manifest that no pattern matches, none of them is for a file of
    that path, and under every schedule no request of the fan-out is for
    that file.  Nothing is fetched for it and, with no goroutine of its
    own, nothing is published for it. *)
Theorem ignored_entries_excluded {S : Type} (h : handler S) (d : Downloader)
    (modelRepo revision : string) (s s1 : S) (fo : fanout) (tr : list event)
    (res : list Regexp) (pattern : Regexp) (file : Sibling) :
  MustCompile_all (ignorePatterns d) = inr res →
  exec h (Download_setup d modelRepo revision) s = (inr fo, tr, s1) →
  pattern ∈ res → regexp_MatchString pattern (RID file) = true →
  let rev := default_revision revision in
  (∃ modelInfo commitHash tr0 s0,
     exec h (getModelInfo modelRepo rev) s = (inr (modelInfo, commitHash), tr0, s0)
     ∧ fo_tasks fo
       = goroutine modelRepo rev (fo_storage fo)
           (Path.Join [fo_storage fo; "snapshots"; commitHash])
           <$> filter (λ f, shouldDownload res (RID f) = true) (Siblings modelInfo))
  ∧ (∀ t, t ∈ fo_tasks fo → RID (task_file t) ≠ RID file)
  ∧ ∀ sched,
      Forall (λ ev, ∀ req, request_of ev = Some req →
                URL req ≠ resolve_url modelRepo rev (RID file))
        (run_pool h sched (task_body <$> fo_tasks fo) [] s1).1.2.
Proof.
  intros Hres Hsetup Hin Hmatch rev.
  pose proof (Download_setup_inv h _ _ _ _ _ _ _ Hsetup) as Hinv. simpl in Hinv.
  destruct Hinv as (res' & mi & c & tr0 & s0 & tr1 & s1' & tr2 & s2 & trw & s3
                    & Hres' & H0 & _ & _ & _ & _ & _ & Hlaunch).
  assert (res' = res) by congruence. subst res'.
  fold rev in H0, Hlaunch. rewrite launch_filter in Hlaunch.
  assert (Hignored : shouldDownload res (RID file) = false).
  { apply shouldDownload_false. eauto. }
  assert (Htasks : ∀ t, t ∈ fo_tasks fo →
            RID (task_file t) ≠ RID file
            ∧ ∃ root snap, t = goroutine modelRepo rev root snap (task_file t)).
  { intros t Ht. rewrite Hlaunch in Ht.
    apply list_elem_of_fmap in Ht as (f & -> & Hf).
    apply list_elem_of_filter in Hf as [Hf _]. simpl. split; [| eauto].
    intros Heq. rewrite Heq in Hf. congruence. }
  split; [| split].
  - exists mi, c, tr0, s0. split; assumption.
  - intros t Ht. apply Htasks, Ht.
  - intros sched.
    pose (P := λ X (e : osE X),
            match e with
            | HttpDo req => URL req ≠ resolve_url modelRepo rev (RID file)
            | _ => True
            end).
    assert (Hall : Forall (within P (λ _, True)) (task_body <$> fo_tasks fo)).
    { apply Forall_fmap, Forall_forall. intros t Ht.
      destruct (Htasks t Ht) as (Hne & root & snap & Ht').
      rewrite Ht'. split.
      - apply makes_only_bind.
        + apply downloadFile_calls. intros X e He.
          destruct e; simpl in *; auto.
          rewrite He. intros Heq. apply resolve_url_inj in Heq. contradiction.
        + intros [err |]; exact I.
      - apply returns_only_bind. intros [err |]; simpl; auto. }
    pose proof (run_pool_good h P (λ _, True) sched _ [] s1 Hall (List.Forall_nil _))
      as [_ Htr].
    eapply Forall_impl; [exact Htr |].
    intros [X e a]. unfold request_of. simpl. intros HP req Hreq.
    destruct e; try discriminate. injection Hreq as <-. exact HP.
Qed.

End FanOut.

(** ** One file: the blob that is already there (C4) *)

Section PerFile.
Context `{GoLib} {S : Type} (h : handler S).

Lemma exec_Vis {R X : Type} (e : osE X) (k : X → prog R) (s : S) :
  exec h (Vis e k) s =
    let '(x, s1) := h _ e s in
    let '(r, tr, s2) := exec h (k x) s1 in
    (r, Call e x :: tr, s2).
Proof. reflexivity. Qed.

(** With the blob in the pool, what is left of [downloadFile] places the
    pointer and fetches nothing. *)
Lemma fetch_and_place_cached (modelRepo revision filename blobPath pointerPath : string) :
  makes_only (λ X e, ¬ fetching_call e)
    (fetch_and_place true modelRepo revision filename blobPath pointerPath).
Proof.
  unfold fetch_and_place. simpl negb. cbn [mbind prog_bind bind mret prog_ret].
  apply place_pointer_calls. intros X e He. destruct e; simpl in *; tauto.
Qed.

(** With the blob found by the check of [downloadFile], the call fetches
    nothing. *)
Lemma downloadFile_cached (modelRepo revision filename blobId : string)
    (size : Z) (storageFolder snapshotDir : string) (s : S) :
  let blobPath := Path.Join [storageFolder; "blobs"; blobId] in
  let pointerPath := Path.Join [snapshotDir; Path.to_native filename] in
  let s1 := (h _ (MkdirAll (Path.Dir pointerPath)) s).2 in
  (h _ (Stat blobPath) s1).1 = None →
  Forall (λ ev, ¬ fetching_call (ev_call ev))
    (exec h (downloadFile modelRepo revision filename blobId size
               storageFolder snapshotDir) s).1.2.
Proof.
  intros blobPath pointerPath s1 Hstat.
  unfold downloadFile. fold blobPath pointerPath.
  cbn [mbind prog_bind bind call mret prog_ret]. rewrite exec_Vis.
  subst s1. destruct (h _ (MkdirAll _) s) as [[err |] s1]; simpl in Hstat |- *.
  { repeat constructor. simpl. tauto. }
  destruct (h _ (Stat blobPath) s1) as [st s2]. simpl in Hstat. subst st.
  destruct (h _ (Stat pointerPath) s2) as [st s3].
  match goal with
  | |- context [exec h ?p s3] =>
      assert (Hp : makes_only (λ X e, ¬ fetching_call e) p)
  end.
  { destruct (bool_decide (st = None));
      rewrite bool_decide_eq_true_2 by reflexivity; simpl negb; simpl andb.
    - simpl. split; [tauto |]. intros _. exact I.
    - apply fetch_and_place_cached. }
  pose proof (exec_makes_only h _ _ s3 Hp) as Htr.
  destruct (exec h _ s3) as [[r tr] s4]. simpl in *.
  repeat constructor; simpl; tauto.
Qed.

Lemma not_fetching_no_request (tr : list event) :
  Forall (λ ev, ¬ fetching_call (ev_call ev)) tr →
  http_calls tr = [] ∧ renames tr = [] ∧ write_errors tr = [].
Proof.
  induction 1 as [| [X e a] tr He _ (IH1 & IH2 & IH3)]; [auto |].
  destruct e; simpl in He; try (repeat split; assumption); tauto.
Qed.

(** C4.  When the blob path exists at the moment [downloadFile] looks for
    it (its [Stat], right after the parent of the pointer is made, answers
    without error), the call makes no request, neither the probe nor the
    transfer, writes no body and renames nothing into the pool. *)
Theorem cached_blob_no_network (modelRepo revision filename blobId : string)
    (size : Z) (storageFolder snapshotDir : string) (s : S) :
  let blobPath := Path.Join [storageFolder; "blobs"; blobId] in
  let pointerPath := Path.Join [snapshotDir; Path.to_native filename] in
  let s1 := (h _ (MkdirAll (Path.Dir pointerPath)) s).2 in
  (h _ (Stat blobPath) s1).1 = None →
  Forall (λ ev, ¬ fetching_call (ev_call ev))
    (exec h (downloadFile modelRepo revision filename blobId size
               storageFolder snapshotDir) s).1.2
  ∧ http_calls
      (exec h (downloadFile modelRepo revision filename blobId size
                 storageFolder snapshotDir) s).1.2 = [].
Proof.
  intros blobPath pointerPath s1 Hstat.
  pose proof (downloadFile_cached modelRepo revision filename blobId size
                storageFolder snapshotDir s Hstat) as Hall.
  split; [exact Hall |]. apply not_fetching_no_request, Hall.
Qed.

End PerFile.

(** ** One file: the size check (C3) *)

Lemma http_calls_app (tr1 tr2 : list event) :
  http_calls (tr1 ++ tr2) = http_calls tr1 ++ http_calls tr2.
Proof. apply omap_app. Qed.

Lemma write_errors_app (tr1 tr2 : list event) :
  write_errors (tr1 ++ tr2) = write_errors tr1 ++ write_errors tr2.
Proof. apply omap_app. Qed.

Lemma created_app (tr1 tr2 : list event) :
  created (tr1 ++ tr2) = created tr1 ++ created tr2.
Proof. apply omap_app. Qed.

Lemma http_calls_none (tr : list event) :
  Forall (λ ev, kind_of (ev_call ev) ≠ Network) tr → http_calls tr = [].
Proof.
  induction 1 as [| [X e a] tr He _ IH]; [reflexivity |].
  destruct e; simpl in He; try exact IH. congruence.
Qed.

Lemma wrap64_small (z : Z) : - 2 ^ 63 ≤ z < 2 ^ 63 → wrap64 z = z.
Proof. intros Hz. unfold wrap64. rewrite Z.mod_small; lia. Qed.

Lemma byte_count_nonneg (data : string) : 0 ≤ byte_count data.
Proof. unfold byte_count. lia. Qed.

Lemma received_nonneg (body : list ReadResult) (n : Z) :
  received body = Some n → 0 ≤ n.
Proof.
  revert n. induction body as [| rd rest IH]; intros n; simpl.
  - intros [= <-]. lia.
  - pose proof (byte_count_nonneg (rd_data rd)).
    destruct (rd_err rd); [| intros [= <-]; lia | discriminate].
    destruct (received rest) as [m |]; simpl; [| discriminate].
    intros [= <-]. specialize (IH m eq_refl). lia.
Qed.

Section SizeCheck.
Context `{GoLib} {S : Type} (h : handler S).

(** The loop on a body that is read to its end with every write accepted:
    it counts the bytes of the body. *)
Lemma read_loop_run (out : file) (expectedSize : Z) (body : list ReadResult)
    (downloaded last : Z) (s : S) :
  0 ≤ downloaded →
  ∀ n, received body = Some n → downloaded + n < 2 ^ 63 →
  write_errors (exec h (read_loop out expectedSize body downloaded last) s).1.2 = [] →
  (exec h (read_loop out expectedSize body downloaded last) s).1.1
    = inr (downloaded + n).
Proof.
  revert downloaded last s.
  induction body as [| rd rest IH]; intros downloaded last s Hd n Hn Hlt; simpl in Hn |- *.
  - injection Hn as <-. intros _. f_equal. lia.
  - pose proof (byte_count_nonneg (rd_data rd)) as Hb.
    destruct (rd_err rd) eqn:Herr; [| | discriminate].
    + (* no error: the loop goes on *)
      destruct (received rest) as [m |] eqn:Hm; [| discriminate].
      simpl in Hn. injection Hn as <-.
      pose proof (received_nonneg _ _ Hm) as Hm0.
      rewrite exec_mbind.
      destruct (0 <? byte_count (rd_data rd)) eqn:Hpos.
      * cbn [mbind prog_bind bind call]. rewrite exec_Vis.
        destruct (h _ (FileWrite out (rd_data rd)) s) as [[e |] s1];
          [simpl; discriminate |].
        rewrite wrap64_small by lia. rewrite exec_Vis.
        destruct (h _ Now s1) as [now s2].
        destruct (progressInterval <? time_Sub now last).
        -- rewrite exec_Vis. destruct (h _ (Printf _) s2) as [[] s3].
           rewrite exec_Vis. destruct (h _ Now s3) as [now' s4]. simpl exec.
           cbv iota beta.
           specialize (IH (downloaded + byte_count (rd_data rd)) now' s4
                         ltac:(lia) m eq_refl ltac:(lia)).
           destruct (exec h (read_loop _ _ rest _ _) s4) as [[r tr] s5].
           simpl in *. intros Hw. rewrite IH by exact Hw. f_equal. lia.
        -- simpl exec. cbv iota beta.
           specialize (IH (downloaded + byte_count (rd_data rd)) last s2
                         ltac:(lia) m eq_refl ltac:(lia)).
           destruct (exec h (read_loop _ _ rest _ _) s2) as [[r tr] s5].
           simpl in *. intros Hw. rewrite IH by exact Hw. f_equal. lia.
      * simpl exec. cbv iota beta.
        apply Z.ltb_ge in Hpos. assert (Hz : byte_count (rd_data rd) = 0) by lia.
        specialize (IH downloaded last s Hd m eq_refl ltac:(lia)).
        destruct (exec h (read_loop _ _ rest _ _) s) as [[r tr] s5].
        simpl in *. intros Hw. rewrite IH by exact Hw. f_equal. lia.
    + (* io.EOF: the loop ends after this read *)
      injection Hn as <-. rewrite exec_mbind.
      destruct (0 <? byte_count (rd_data rd)) eqn:Hpos.
      * cbn [mbind prog_bind bind call]. rewrite exec_Vis.
        destruct (h _ (FileWrite out (rd_data rd)) s) as [[e |] s1];
          [simpl; discriminate |].
        rewrite wrap64_small by lia. rewrite exec_Vis.
        destruct (h _ Now s1) as [now s2].
        destruct (progressInterval <? time_Sub now last).
        -- rewrite exec_Vis. destruct (h _ (Printf _) s2) as [[] s3].
           rewrite exec_Vis. destruct (h _ Now s3) as [now' s4]. reflexivity.
        -- reflexivity.
      * simpl. intros _. apply Z.ltb_ge in Hpos. f_equal. lia.
Qed.

Lemma getFileMetadata_run (url : string) (s : S) :
  match http_NewRequest_error "HEAD" url with
  | Some err =>
      exec h (getFileMetadata url) s
        = (inl (Errorf "error creating HEAD request" err), [], s)
  | None =>
      let '(token, s1) := h _ (Getenv HF_TOKEN_ENV) s in
      let req := head_request url token in
      let '(a, s2) := h _ (HttpDo req) s1 in
      exec h (getFileMetadata url) s
        = (probed a, [Call (Getenv HF_TOKEN_ENV) token; Call (HttpDo req) a], s2)
  end.
Proof.
  unfold getFileMetadata, http_NewRequest, head_request.
  destruct (http_NewRequest_error _ _) as [err |]; [reflexivity |].
  simpl. destruct (h _ (Getenv HF_TOKEN_ENV) s) as [token s1].
  destruct (h _ (HttpDo _) s1) as [a s2].
  destruct a as [err | resp]; simpl; [reflexivity |].
  destruct (StatusCode resp =? StatusOK); reflexivity.
Qed.

Lemma exec_defer {R : Type} (cleanup : prog unit) (body : prog R) (s : S) :
  exec h (defer cleanup body) s =
    let '(r, tr1, s1) := exec h body s in
    let '(_, tr2, s2) := exec h cleanup s1 in
    (r, tr1 ++ tr2, s2).
Proof.
  unfold defer. rewrite exec_mbind.
  destruct (exec h body s) as [[r tr1] s1]. rewrite exec_mbind.
  destruct (exec h cleanup s1) as [[[] tr2] s2]. simpl.
  rewrite app_nil_r. reflexivity.
Qed.

Lemma exec_close (f : file) (s : S) :
  exec h (close f) s
  = ((), [Call (FileClose f) (h _ (FileClose f) s).1], (h _ (FileClose f) s).2).
Proof. unfold close. simpl. destruct (h _ (FileClose f) s). reflexivity. Qed.

(** A transfer whose request is answered with status 200, whose body is read
    to its end and whose writes are accepted ends with the verdict of the
    size check. *)
Lemma transfer_run (url : string) (out : file) (expectedSize : Z) (s s' : S)
    (r : option error) (tr : list event) (req : Request) (resp : Response) (n : Z) :
  exec h (transfer url out expectedSize) s = (r, tr, s') →
  http_calls tr = [(req, inr resp)] →
  StatusCode resp = StatusOK →
  write_errors tr = [] →
  received (reads (RespBody resp)) = Some n → n < 2 ^ 63 →
  r = if (0 <? expectedSize) && negb (n =? expectedSize)
      then Some (ErrSizeMismatch n expectedSize) else None.
Proof.
  unfold transfer, http_NewRequest, with_token, http_calls, write_errors.
  destruct (http_NewRequest_error "GET" url) as [err |].
  { simpl. intros [= <- <- <-]. discriminate. }
  cbn [mbind prog_bind bind call mret prog_ret].
  rewrite exec_Vis. destruct (h _ (Getenv HF_TOKEN_ENV) s) as [token s1].
  rewrite exec_Vis. destruct (h _ (HttpDo _) s1) as [[err | resp'] s2].
  { simpl. intros [= <- <- <-]. discriminate. }
  destruct (StatusCode resp' =? StatusOK) eqn:Hst'; cbn [negb].
  2:{ simpl. intros [= <- <- <-]. simpl. intros [= _ <-] Hst.
      apply Z.eqb_neq in Hst'. contradiction. }
  rewrite exec_Vis. destruct (h _ Now s2) as [now s3].
  rewrite exec_mbind.
  pose proof (read_loop_run out expectedSize (reads (RespBody resp')) 0 now s3
                ltac:(lia)) as Hloop.
  destruct (exec h (read_loop _ _ _ _ _) s3) as [[rl trl] s4]. simpl in Hloop.
  destruct rl as [err | downloaded].
  - simpl. intros [= <- <- <-]. simpl. rewrite !app_nil_r.
    intros [= _ <- _] Hst Hw Hrecv Hlt.
    specialize (Hloop n Hrecv ltac:(lia) Hw). discriminate.
  - rewrite exec_Vis. destruct (h _ (Printf MsgNewline) s4) as [[] s5].
    assert (Hfinal : ∀ v : option error,
              (let '(r0, tr0, s0) := exec h (mret v) s5 in
               (r0, Call (Printf MsgNewline) () :: tr0, s0))
              = (v, [Call (Printf MsgNewline) ()], s5)) by reflexivity.
    destruct ((0 <? expectedSize) && negb (downloaded =? expectedSize)) eqn:Hcheck;
      rewrite Hfinal; intros [= <- <- <-]; simpl; rewrite !omap_app; simpl;
      rewrite !app_nil_r;
      intros [= _ <- _] Hst Hw Hrecv Hlt;
      specialize (Hloop n Hrecv ltac:(lia) Hw); injection Hloop as ->;
      rewrite Z.add_0_l in Hcheck; rewrite Hcheck; reflexivity.
Qed.

Lemma omap_none {A : Type} (f : event → option A) (tr : list event) :
  Forall (λ ev, f ev = None) tr → omap f tr = [].
Proof.
  induction 1 as [| ev tr Hev _ IH]; [reflexivity |].
  simpl. rewrite Hev. exact IH.
Qed.

(** What a transfer leaves alone: it creates no file and displaces none. *)
Lemma transfer_quiet (url : string) (out : file) (expectedSize : Z) (s : S) :
  let tr := (exec h (transfer url out expectedSize) s).1.2 in
  created tr = [] ∧ Forall (λ ev, ¬ displacing_call (ev_call ev)) tr.
Proof.
  intros tr.
  assert (Hall : Forall (λ ev, created_of ev = None ∧ ¬ displacing_call (ev_call ev)) tr).
  { pose proof (exec_makes_only h
        (λ X e, ∀ a, created_of (Call e a) = None ∧ ¬ displacing_call e)
        (transfer url out expectedSize) s) as Hm.
    eapply Forall_impl; [apply Hm |].
    - apply transfer_calls; intros; (split; [reflexivity | simpl; tauto]).
    - intros [X e a] He. apply He. }
  split.
  - apply omap_none. eapply Forall_impl; [exact Hall |]. intros ev [Hc _]. exact Hc.
  - eapply Forall_impl; [exact Hall |]. intros ev [_ Hd]. exact Hd.
Qed.

Lemma place_pointer_no_request (filename blobPath pointerPath : string) (s : S) :
  http_calls (exec h (place_pointer filename blobPath pointerPath) s).1.2 = [].
Proof.
  apply http_calls_none.
  apply (exec_makes_only h (λ X e, kind_of e ≠ Network)).
  apply place_pointer_calls. intros X e He. destruct e; simpl in *; congruence.
Qed.

(** The fetch of a blob whose probe and transfer are both answered with
    status 200, with a body read to its end, every write accepted, and a
    number of bytes that is not the positive size the probe declared. *)
Lemma fetch_blob_mismatch (modelRepo revision filename blobPath : string)
    (s s' : S) (r : option error) (tr : list event)
    (probe get : Request) (probe_resp get_resp : Response) (n : Z) :
  let expected := parseInt64 (Header_Get (Header probe_resp) "Content-Length") in
  exec h (fetch_blob modelRepo revision filename blobPath) s = (r, tr, s') →
  http_calls tr = [(probe, inr probe_resp); (get, inr get_resp)] →
  StatusCode get_resp = StatusOK →
  0 < expected →
  write_errors tr = [] →
  received (reads (RespBody get_resp)) = Some n → n < 2 ^ 63 → n ≠ expected →
  r = Some (Errorf "error downloading" (ErrSizeMismatch n expected))
  ∧ (∃ fd, created tr = [(blobPath +:+ ".incomplete", inr fd)])
  ∧ Forall (λ ev, ¬ displacing_call (ev_call ev)) tr.
Proof.
  intros expected. unfold fetch_blob.
  set (url := "https://huggingface.co/" +:+ _).
  rewrite exec_mbind.
  pose proof (getFileMetadata_run url s) as Hmeta.
  destruct (http_NewRequest_error "HEAD" url) as [err |].
  { rewrite Hmeta. simpl. intros [= <- <- <-]. discriminate. }
  destruct (h _ (Getenv HF_TOKEN_ENV) s) as [token s1]. cbv zeta in Hmeta.
  destruct (h _ (HttpDo (head_request url token)) s1) as [a s2].
  rewrite Hmeta. clear Hmeta.
  destruct a as [err | resp]; [simpl; intros [= <- <- <-]; discriminate |].
  unfold probed.
  destruct (StatusCode resp =? StatusOK) eqn:Hst; cbn [negb];
    [| simpl; intros [= <- <- <-]; discriminate].
  cbn [mbind prog_bind bind call mret prog_ret md_Size].
  rewrite exec_Vis. destruct (h _ (Printf _) s2) as [[] s3].
  first [rewrite exec_mbind | rewrite exec_bind]. unfold downloadWithProgress.
  cbn [mbind prog_bind bind call mret prog_ret].
  rewrite exec_Vis.
  destruct (h _ (MkdirAll _) s3) as [[err |] s4];
    [simpl; intros [= <- <- <-]; discriminate |].
  rewrite exec_Vis.
  destruct (h _ (Create _) s4) as [[err | out] s5];
    [simpl; intros [= <- <- <-]; discriminate |].
  rewrite exec_defer.
  pose proof (transfer_quiet url out
                (parseInt64 (Header_Get (Header resp) "Content-Length")) s5)
    as [Hcreated Hquiet].
  destruct (exec h (transfer url out _) s5) as [[rb trb] sb] eqn:Hb.
  simpl in Hcreated, Hquiet.
  rewrite exec_close. cbv iota beta.
  destruct rb as [errb |].
  - simpl. intros [= <- <- <-].
    unfold http_calls, write_errors, created. simpl. rewrite !omap_app. simpl.
    rewrite !app_nil_r. fold (http_calls trb) (write_errors trb) (created trb).
    intros [= <- -> Hhttp] Hgst Hexp Hw Hrecv Hlt Hne.
    pose proof (transfer_run _ _ _ _ _ _ _ _ _ _ Hb Hhttp Hgst Hw Hrecv Hlt) as Hv.
    fold expected in Hv.
    assert (Hcheck : (0 <? expected) && negb (n =? expected) = true).
    { apply andb_true_intro. split; [apply Z.ltb_lt; assumption |].
      apply negb_true_iff, Z.eqb_neq. assumption. }
    rewrite Hcheck in Hv. injection Hv as ->.
    split; [reflexivity |]. split.
    + exists out. rewrite Hcreated. reflexivity.
    + repeat (constructor; [simpl; tauto |]).
      apply Forall_app. split; [exact Hquiet |]. repeat constructor. simpl. tauto.
  - rewrite exec_Vis. destruct (h _ (Rename _ _) _) as [rn s7].
    intros Hrun. assert (Htr : ∃ tail, tr = Call (Getenv HF_TOKEN_ENV) token
        :: Call (HttpDo (head_request url token)) (inr resp)
        :: Call (Printf (MsgDownloading filename
                   (parseInt64 (Header_Get (Header resp) "Content-Length")))) ()
        :: (Call (MkdirAll (Path.Dir (blobPath +:+ ".incomplete"))) None
            :: Call (Create (blobPath +:+ ".incomplete")) (inr out)
            :: trb ++ [Call (FileClose out) (h _ (FileClose out) sb).1])
           ++ tail ∧ http_calls tail = [] ∧ write_errors tail = []).
    { destruct rn; simpl in Hrun; injection Hrun as <- <- <-;
        eexists; (split; [reflexivity |]); split; reflexivity. }
    destruct Htr as (tail & -> & Htail & Htailw).
    unfold http_calls, write_errors in *. simpl. rewrite ?omap_app. simpl.
    rewrite ?omap_app. simpl. rewrite Htail, Htailw, ?app_nil_r.
    fold (http_calls trb) (write_errors trb).
    intros [= <- -> Hhttp] Hgst Hexp Hw Hrecv Hlt Hne.
    pose proof (transfer_run _ _ _ _ _ _ _ _ _ _ Hb Hhttp Hgst Hw Hrecv Hlt) as Hv.
    fold expected in Hv.
    assert (Hcheck : (0 <? expected) && negb (n =? expected) = true).
    { apply andb_true_intro. split; [apply Z.ltb_lt; assumption |].
      apply negb_true_iff, Z.eqb_neq. assumption. }
    rewrite Hcheck in Hv. discriminate.
Qed.

Lemma fetch_and_place_mismatch (blobExists : bool)
    (modelRepo revision filename blobPath pointerPath : string)
    (s s' : S) (r : option error) (tr : list event)
    (probe get : Request) (probe_resp get_resp : Response) (n : Z) :
  let expected := parseInt64 (Header_Get (Header probe_resp) "Content-Length") in
  exec h (fetch_and_place blobExists modelRepo revision filename blobPath pointerPath) s
    = (r, tr, s') →
  http_calls tr = [(probe, inr probe_resp); (get, inr get_resp)] →
  StatusCode get_resp = StatusOK →
  0 < expected →
  write_errors tr = [] →
  received (reads (RespBody get_resp)) = Some n → n < 2 ^ 63 → n ≠ expected →
  r = Some (Errorf "error downloading" (ErrSizeMismatch n expected))
  ∧ (∃ fd, created tr = [(blobPath +:+ ".incomplete", inr fd)])
  ∧ Forall (λ ev, ¬ displacing_call (ev_call ev)) tr.
Proof.
  intros expected. unfold fetch_and_place. rewrite exec_mbind.
  destruct blobExists; cbn [negb].
  - simpl exec. cbv iota beta.
    pose proof (place_pointer_no_request filename blobPath pointerPath s) as Hnone.
    destruct (exec h (place_pointer _ _ _) s) as [[r2 tr2] s2]. simpl in Hnone.
    intros [= <- <- <-]. simpl. rewrite Hnone. discriminate.
  - destruct (exec h (fetch_blob _ _ _ _) s) as [[r1 tr1] s1] eqn:Hf.
    destruct r1 as [err |].
    + simpl. rewrite app_nil_r. intros [= <- <- <-].
      apply (fetch_blob_mismatch _ _ _ _ _ _ _ _ _ _ _ _ _ Hf).
    + pose proof (place_pointer_no_request filename blobPath pointerPath s1) as Hnone.
      destruct (exec h (place_pointer _ _ _) s1) as [[r2 tr2] s2]. simpl in Hnone.
      intros [= <- <- <-]. rewrite http_calls_app, write_errors_app, Hnone, app_nil_r.
      intros Hhttp Hgst Hexp Hw Hrecv Hlt Hne.
      apply app_eq_nil in Hw as [Hw _].
      pose proof (fetch_blob_mismatch _ _ _ _ _ _ _ _ _ _ _ _ _ Hf Hhttp Hgst Hexp Hw
                    Hrecv Hlt Hne) as [Hr _].
      discriminate.
Qed.

(** C3.  In a call of [downloadFile] whose probe and whose transfer are
    both answered with status 200, let the probe declare a positive size,
    the body be read to its end with every write accepted, and the number
    of bytes received differ from the size declared.  Then the call fails
    with the size-mismatch error of the transfer.  The temporary file
    [<blob>.incomplete] was created, and the call has made no rename and
    no removal: the temporary file stays where it is and nothing has been
    moved to the blob path. *)
Theorem size_mismatch_fails (modelRepo revision filename blobId : string)
    (size : Z) (storageFolder snapshotDir : string)
    (s s' : S) (r : option error) (tr : list event)
    (probe get : Request) (probe_resp get_resp : Response) (n : Z) :
  let blobPath := Path.Join [storageFolder; "blobs"; blobId] in
  let expected := parseInt64 (Header_Get (Header probe_resp) "Content-Length") in
  exec h (downloadFile modelRepo revision filename blobId size
            storageFolder snapshotDir) s = (r, tr, s') →
  http_calls tr = [(probe, inr probe_resp); (get, inr get_resp)] →
  StatusCode get_resp = StatusOK →
  0 < expected →
  write_errors tr = [] →
  received (reads (RespBody get_resp)) = Some n → n < 2 ^ 63 → n ≠ expected →
  r = Some (Errorf "error downloading" (ErrSizeMismatch n expected))
  ∧ (∃ fd, created tr = [(blobPath +:+ ".incomplete", inr fd)])
  ∧ Forall (λ ev, ¬ displacing_call (ev_call ev)) tr.
Proof.
  intros blobPath expected. unfold downloadFile. fold blobPath.
  set (pointerPath := Path.Join [snapshotDir; _]).
  cbn [mbind prog_bind bind call mret prog_ret]. rewrite exec_Vis.
  destruct (h _ (MkdirAll _) s) as [[err |] s1];
    [simpl; intros [= <- <- <-]; discriminate |].
  rewrite exec_Vis. destruct (h _ (Stat blobPath) s1) as [st1 s2].
  rewrite exec_Vis. destruct (h _ (Stat pointerPath) s2) as [st2 s3].
  destruct (bool_decide (st2 = None) && negb (bool_decide (st1 = None))).
  - rewrite exec_Vis. destruct (h _ (Printf _) s3) as [[] s4].
    destruct (exec h (fetch_and_place _ _ _ _ _ _) s4) as [[r1 tr1] s5] eqn:Hf.
    intros [= <- <- <-]. unfold http_calls, write_errors, created. simpl.
    fold (http_calls tr1) (write_errors tr1) (created tr1).
    intros Hhttp Hgst Hexp Hw Hrecv Hlt Hne.
    destruct (fetch_and_place_mismatch _ _ _ _ _ _ _ _ _ _ _ _ _ _ _ Hf Hhttp Hgst
                Hexp Hw Hrecv Hlt Hne) as (Hr & Hc & Hq).
    split; [exact Hr |]. split; [exact Hc |].
    repeat (constructor; [simpl; tauto |]). exact Hq.
  - destruct (bool_decide (st2 = None) && bool_decide (st1 = None)).
    + simpl. destruct (h _ (Printf _) s3) as [[] s4].
      intros [= <- <- <-]. discriminate.
    + destruct (exec h (fetch_and_place _ _ _ _ _ _) s3) as [[r1 tr1] s5] eqn:Hf.
      intros [= <- <- <-]. unfold http_calls, write_errors, created. simpl.
      fold (http_calls tr1) (write_errors tr1) (created tr1).
      intros Hhttp Hgst Hexp Hw Hrecv Hlt Hne.
      destruct (fetch_and_place_mismatch _ _ _ _ _ _ _ _ _ _ _ _ _ _ _ Hf Hhttp Hgst
                  Hexp Hw Hrecv Hlt Hne) as (Hr & Hc & Hq).
      split; [exact Hr |]. split; [exact Hc |].
      repeat (constructor; [simpl; tauto |]). exact Hq.
Qed.

End SizeCheck.

(** ** One file: placing the pointer (C2) *)

Lemma copy_result_skip (tr1 tr2 : list event) :
  Forall (λ ev, opened_of ev = None) tr1 →
  copy_result (tr1 ++ tr2) = copy_result tr2.
Proof.
  induction 1 as [| ev tr1 Hev _ IH]; [reflexivity |].
  simpl. rewrite Hev. exact IH.
Qed.

Lemma symlink_answers_app (tr1 tr2 : list event) :
  symlink_answers (tr1 ++ tr2) = symlink_answers tr1 ++ symlink_answers tr2.
Proof. apply omap_app. Qed.

Lemma printed_app (tr1 tr2 : list event) :
  printed (tr1 ++ tr2) = printed tr1 ++ printed tr2.
Proof. apply omap_app. Qed.

Section Placing.
Context `{GoLib} {S : Type} (h : handler S).

(** A run of [copyFile]: its result is what the trace shows, also when
    more calls follow. *)
Lemma copyFile_run (src dst : string) (s s' : S) (c : option error)
    (tr : list event) :
  exec h (copyFile src dst) s = (c, tr, s') →
  (∀ tail, copy_result (tr ++ tail) = Some c)
  ∧ symlink_answers tr = [] ∧ printed tr = [].
Proof.
  unfold copyFile. cbn [mbind prog_bind bind call mret prog_ret].
  rewrite exec_Vis. destruct (h _ (OpenFile src) s) as [[err | source] s1].
  { simpl. intros [= <- <- <-]. auto. }
  rewrite exec_defer. cbn [mbind prog_bind bind call mret prog_ret].
  rewrite exec_Vis. destruct (h _ (Create dst) s1) as [[err | destination] s2].
  { simpl. destruct (h _ (FileClose source) s2). intros [= <- <- <-]. auto. }
  rewrite exec_defer. cbn [mbind prog_bind bind call mret prog_ret].
  rewrite exec_Vis. destruct (h _ (Copy destination source) s2) as [[n err] s3].
  simpl. destruct (h _ (FileClose destination) s3) as [? s4].
  destruct (h _ (FileClose source) s4). intros [= <- <- <-]. auto.
Qed.

Lemma isSymlinkSupported_run (s s' : S) (supported : bool) (tr : list event) :
  exec h isSymlinkSupported s = (supported, tr, s') →
  Forall (λ ev, opened_of ev = None) tr ∧ printed tr = []
  ∧ if supported then symlink_answers tr = [None]
    else symlink_answers tr = [] ∨ ∃ err, symlink_answers tr = [Some err].
Proof.
  unfold isSymlinkSupported. cbn [mbind prog_bind bind call mret prog_ret].
  rewrite exec_Vis. destruct (h _ (MkdirTemp _ _) s) as [[err | tempDir] s1].
  { simpl. intros [= <- <- <-].
    split; [repeat constructor |]. split; [reflexivity |]. left. reflexivity. }
  rewrite exec_defer. cbn [mbind prog_bind bind call mret prog_ret].
  rewrite exec_Vis. destruct (h _ (WriteFile _ _) s1) as [[err |] s2].
  { simpl. destruct (h _ (RemoveAll tempDir) s2). intros [= <- <- <-].
    split; [repeat constructor |]. split; [reflexivity |]. left. reflexivity. }
  rewrite exec_Vis. destruct (h _ (Symlink _ _) s2) as [[err |] s3];
    simpl; destruct (h _ (RemoveAll tempDir) s3); intros [= <- <- <-];
    (split; [repeat constructor |]); (split; [reflexivity |]).
  - right. eauto.
  - reflexivity.
Qed.

(** A run of the last part of [downloadFile]. *)
Lemma place_pointer_run (filename blobPath pointerPath : string) (s s' : S)
    (r : option error) (tr : list event) :
  exec h (place_pointer filename blobPath pointerPath) s = (r, tr, s') →
  placed r tr.
Proof.
  unfold placed, place_pointer. rewrite exec_mbind.
  destruct (exec h isSymlinkSupported s) as [[supported tr0] s0] eqn:H0.
  apply isSymlinkSupported_run in H0 as (Hopen0 & Hprint0 & Hlink0).
  rewrite exec_mbind.
  assert (Hcopy : ∀ s1 c trc sc tail,
            exec h (copyFile blobPath pointerPath) s1 = (c, trc, sc) →
            copy_result (trc ++ tail) = Some c
            ∧ symlink_answers (trc ++ tail) = symlink_answers tail
            ∧ printed (trc ++ tail) = printed tail).
  { intros s1 c trc sc tail Hc. apply copyFile_run in Hc as (Hc1 & Hc2 & Hc3).
    rewrite symlink_answers_app, printed_app, Hc2, Hc3. auto. }
  assert (Hfinal : ∀ (r1 : option error) s1,
            exec h (match r1 with
                    | Some err => mret (Some err)
                    | None => _ ← call (Printf (MsgProcessed filename)); mret None
                    end) s1
            = (r1, match r1 with
                   | Some _ => []
                   | None => [Call (Printf (MsgProcessed filename)) ()]
                   end,
               match r1 with
               | Some _ => s1
               | None => (h _ (Printf (MsgProcessed filename)) s1).2
               end)).
  { intros [err |] s1; simpl; [reflexivity |].
    destruct (h _ (Printf _) s1) as [[] s2]. reflexivity. }
  destruct supported.
  - cbn [mbind prog_bind bind call mret prog_ret].
    rewrite exec_Vis. destruct (h _ (Stat pointerPath) s0) as [st s1].
    first [rewrite exec_mbind | rewrite exec_bind].
    destruct (exec h (if bool_decide (st = None) then _ else _) s1)
      as [[[] trm] sm] eqn:Hrm.
    assert (Hm : Forall (λ ev, opened_of ev = None) trm
                 ∧ symlink_answers trm = [] ∧ printed trm = []).
    { destruct (bool_decide (st = None)); simpl in Hrm.
      - destruct (h _ (Remove pointerPath) s1) as [a sm'].
        injection Hrm as <- <-. repeat split. repeat constructor.
      - injection Hrm as <- <-. repeat split. constructor. }
    destruct Hm as (Hopenm & Hlinkm & Hprintm).
    cbv iota beta. rewrite exec_Vis.
    destruct (h _ (Symlink _ pointerPath) sm) as [[err |] s2].
    + rewrite exec_Vis. destruct (h _ (Printf (WarnSymlinkCopy err)) s2) as [[] s3].
      first [rewrite exec_mbind | rewrite exec_bind].
      destruct (exec h (copyFile blobPath pointerPath) s3) as [[c trc] sc] eqn:Hc.
      assert (Hres : exec h (match c with
                             | Some err0 => mret (Some (Errorf "error copying" err0))
                             | None => mret None
                             end) sc
                     = (match c with
                        | Some err0 => Some (Errorf "error copying" err0)
                        | None => None
                        end, [], sc)) by (destruct c; reflexivity).
      rewrite Hres. cbv iota beta. rewrite Hfinal. intros [= <- <- <-].
      rewrite app_nil_r.
      set (tail := match match c with
                         | Some err0 => Some (Errorf "error copying" err0)
                         | None => None
                         end with
                   | Some _ => []
                   | None => [Call (Printf (MsgProcessed filename)) ()]
                   end).
      destruct (Hcopy _ _ _ _ tail Hc) as (Hc1 & Hc2 & Hc3).
      assert (Htail : symlink_answers tail = []) by (subst tail; destruct c; reflexivity).
      match goal with
      | |- context [copy_result ?T] =>
          assert (Hcr : copy_result T = Some c);
          [| assert (Hlinks : symlink_answers T = [None; Some err]);
             [| assert (Hwarn : WarnSymlinkCopy err ∈ printed T) ] ]
      end.
      { rewrite copy_result_skip by exact Hopen0. simpl.
        rewrite <- app_assoc. rewrite copy_result_skip by exact Hopenm. simpl.
        exact Hc1. }
      { rewrite symlink_answers_app, Hlink0. unfold symlink_answers at 1. simpl.
        fold (symlink_answers ((trm ++ Call (Symlink (default blobPath
               (Path.Rel (Path.Dir pointerPath) blobPath)) pointerPath) (Some err)
               :: Call (Printf (WarnSymlinkCopy err)) () :: trc) ++ tail)).
        rewrite <- app_assoc, symlink_answers_app, Hlinkm. simpl.
        unfold symlink_answers at 1. simpl.
        fold (symlink_answers (trc ++ tail)). rewrite Hc2, Htail. reflexivity. }
      { rewrite printed_app. apply elem_of_app. right.
        unfold printed at 1. simpl.
        fold (printed ((trm ++ Call (Symlink (default blobPath
               (Path.Rel (Path.Dir pointerPath) blobPath)) pointerPath) (Some err)
               :: Call (Printf (WarnSymlinkCopy err)) () :: trc) ++ tail)).
        rewrite <- app_assoc, printed_app. apply elem_of_app. right.
        unfold printed at 1. simpl. left. }
      rewrite Hcr, Hlinks. split; [| split; [| split; [| split]]].
      * intros e [= ->]. reflexivity.
      * intros [= ->]. reflexivity.
      * intros e [= <-]. split; [exact Hwarn | discriminate].
      * discriminate.
      * destruct c; [discriminate |]. auto.
    + simpl. destruct (h _ (Printf (MsgProcessed filename)) s2) as [[] s3].
      intros [= <- <- <-].
      match goal with
      | |- context [copy_result ?T] =>
          assert (Hcr : copy_result T = None);
          [| assert (Hlinks : symlink_answers T = [None; None]) ]
      end.
      { rewrite copy_result_skip by exact Hopen0. simpl.
        rewrite <- List.app_assoc. rewrite copy_result_skip by exact Hopenm.
        reflexivity. }
      { rewrite symlink_answers_app, Hlink0.
        unfold symlink_answers at 1. simpl.
        fold (symlink_answers ((trm ++ [Call (Symlink (default blobPath
               (Path.Rel (Path.Dir pointerPath) blobPath)) pointerPath) None])
               ++ [Call (Printf (MsgProcessed filename)) ()])).
        rewrite <- List.app_assoc, symlink_answers_app, Hlinkm. reflexivity. }
      rewrite Hcr, Hlinks. split; [| split; [| split; [| split]]].
      * discriminate.
      * discriminate.
      * discriminate.
      * reflexivity.
      * auto.
  - rewrite exec_mbind.
    destruct (exec h (copyFile blobPath pointerPath) s0) as [[c trc] sc] eqn:Hc.
    assert (Hres : exec h (match c with
                           | Some err0 => mret (Some (Errorf "error copying" err0))
                           | None => mret None
                           end) sc
                   = (match c with
                      | Some err0 => Some (Errorf "error copying" err0)
                      | None => None
                      end, [], sc)) by (destruct c; reflexivity).
    rewrite Hres. cbv iota beta. rewrite Hfinal. intros [= <- <- <-].
    rewrite app_nil_r.
    set (tail := match match c with
                       | Some err0 => Some (Errorf "error copying" err0)
                       | None => None
                       end with
                 | Some _ => []
                 | None => [Call (Printf (MsgProcessed filename)) ()]
                 end).
    destruct (Hcopy _ _ _ _ tail Hc) as (Hc1 & Hc2 & Hc3).
    assert (Htail : symlink_answers tail = []) by (subst tail; destruct c; reflexivity).
    match goal with
    | |- context [copy_result ?T] =>
        assert (Hcr : copy_result T = Some c);
        [| assert (Hlinks : symlink_answers T = symlink_answers tr0) ]
    end.
    { rewrite copy_result_skip by exact Hopen0. exact Hc1. }
    { rewrite symlink_answers_app, Hc2, Htail, app_nil_r. reflexivity. }
    rewrite Hcr, Hlinks. split; [| split; [| split; [| split]]].
    + intros e [= ->]. reflexivity.
    + intros [= ->]. reflexivity.
    + intros e He. destruct Hlink0 as [Hl | [e' Hl]]; rewrite Hl in He; discriminate.
    + intros He. destruct Hlink0 as [Hl | [e' Hl]]; rewrite Hl in He; discriminate.
    + destruct c; [discriminate |]. auto.
Qed.

Lemma placed_prefix (r : option error) (pre tr : list event) :
  Forall not_placing pre → placed r tr → placed r (pre ++ tr).
Proof.
  intros Hpre (H1 & H2 & H3 & H4 & H5).
  assert (Hc : copy_result (pre ++ tr) = copy_result tr).
  { apply copy_result_skip. eapply Forall_impl; [exact Hpre |]. intros ev [Ho _]. exact Ho. }
  assert (Hl : symlink_answers (pre ++ tr) = symlink_answers tr).
  { rewrite symlink_answers_app. unfold symlink_answers at 1.
    rewrite omap_none; [reflexivity |].
    eapply Forall_impl; [exact Hpre |]. intros ev [_ Hk]. exact Hk. }
  unfold placed. rewrite Hc, Hl. split; [exact H1 |]. split; [exact H2 |].
  split; [| split; [exact H4 |]].
  - intros e He. destruct (H3 e He) as [Hw Hn]. split; [| exact Hn].
    rewrite printed_app. apply elem_of_app. right. exact Hw.
  - intros Hr. destruct (H5 Hr) as [Hs | [Hs | [f Hs]]]; auto.
    right. right. exists f. rewrite printed_app. apply elem_of_app. right. exact Hs.
Qed.

Lemma placed_failed (err : error) (tr : list event) :
  Forall not_placing tr → placed (Some err) tr.
Proof.
  intros Htr. rewrite <- (app_nil_r tr). apply placed_prefix; [exact Htr |].
  repeat split; discriminate.
Qed.

Lemma fetch_blob_not_placing (modelRepo revision filename blobPath : string) (s : S) :
  Forall not_placing (exec h (fetch_blob modelRepo revision filename blobPath) s).1.2.
Proof.
  pose proof (exec_makes_only h (λ X e, ∀ a, not_placing (Call e a))
                (fetch_blob modelRepo revision filename blobPath) s) as Hm.
  eapply Forall_impl; [apply Hm |].
  - apply fetch_blob_calls; intros; split; reflexivity.
  - intros [X e a] He. apply He.
Qed.

Lemma fetch_and_place_run (blobExists : bool)
    (modelRepo revision filename blobPath pointerPath : string)
    (s s' : S) (r : option error) (tr : list event) :
  exec h (fetch_and_place blobExists modelRepo revision filename blobPath pointerPath) s
    = (r, tr, s') →
  placed r tr.
Proof.
  unfold fetch_and_place. rewrite exec_mbind.
  assert (Hpre : Forall not_placing
            (exec h (if negb blobExists
                     then fetch_blob modelRepo revision filename blobPath
                     else mret None) s).1.2).
  { destruct (negb blobExists); [apply fetch_blob_not_placing | constructor]. }
  destruct (exec h (if negb blobExists then _ else _) s) as [[r1 tr1] s1].
  simpl in Hpre. destruct r1 as [err |].
  - simpl. rewrite app_nil_r. intros [= <- <- <-]. apply placed_failed, Hpre.
  - destruct (exec h (place_pointer _ _ _) s1) as [[r2 tr2] s2] eqn:H2.
    intros [= <- <- <-]. apply placed_prefix; [exact Hpre |].
    apply (place_pointer_run _ _ _ _ _ _ _ H2).
Qed.

Lemma downloadFile_placed (modelRepo revision filename blobId : string)
    (size : Z) (storageFolder snapshotDir : string)
    (s s' : S) (r : option error) (tr : list event) :
  exec h (downloadFile modelRepo revision filename blobId size
            storageFolder snapshotDir) s = (r, tr, s') →
  placed r tr.
Proof.
  unfold downloadFile.
  cbn [mbind prog_bind bind call mret prog_ret]. rewrite exec_Vis.
  destruct (h _ (MkdirAll _) s) as [[err |] s1].
  { simpl. intros [= <- <- <-]. apply placed_failed.
    repeat constructor. }
  rewrite exec_Vis. destruct (h _ (Stat _) s1) as [st1 s2].
  rewrite exec_Vis. destruct (h _ (Stat _) s2) as [st2 s3].
  destruct (bool_decide (st2 = None) && negb (bool_decide (st1 = None))).
  - rewrite exec_Vis. destruct (h _ (Printf _) s3) as [[] s4].
    destruct (exec h (fetch_and_place _ _ _ _ _ _) s4) as [[r1 tr1] s5] eqn:Hf.
    intros [= <- <- <-].
    apply (placed_prefix _ [_; _; _; _]); [repeat constructor |].
    apply (fetch_and_place_run _ _ _ _ _ _ _ _ _ _ Hf).
  - destruct (bool_decide (st2 = None) && bool_decide (st1 = None)).
    + simpl. destruct (h _ (Printf _) s3) as [[] s4]. intros [= <- <- <-].
      split; [discriminate |]. split; [discriminate |].
      split; [discriminate |]. split; [reflexivity |].
      intros _. right. right. exists filename.
      unfold printed. simpl. left.
    + destruct (exec h (fetch_and_place _ _ _ _ _ _) s3) as [[r1 tr1] s5] eqn:Hf.
      intros [= <- <- <-].
      apply (placed_prefix _ [_; _; _]); [repeat constructor |].
      apply (fetch_and_place_run _ _ _ _ _ _ _ _ _ _ Hf).
Qed.

(** C2, as amended.  In every call of [downloadFile]: when the copy of the
    blob to the pointer fails, at the opening of the blob, at the creation
    of the pointer or in the copy itself, the call returns that error under
    the heading of the copy; when the copy succeeds the call succeeds.  A
    symbolic link that fails after the probe has succeeded is answered by a
    warning line and by a copy, whose result is then the result of the
    call: the failure of the link alone is not returned. *)
Theorem copy_failure_is_surfaced (modelRepo revision filename blobId : string)
    (size : Z) (storageFolder snapshotDir : string)
    (s s' : S) (r : option error) (tr : list event) :
  exec h (downloadFile modelRepo revision filename blobId size
            storageFolder snapshotDir) s = (r, tr, s') →
  (∀ e, copy_result tr = Some (Some e) → r = Some (Errorf "error copying" e))
  ∧ (copy_result tr = Some None → r = None)
  ∧ (∀ e, symlink_answers tr = [None; Some e] →
       WarnSymlinkCopy e ∈ printed tr
       ∧ ∃ c, copy_result tr = Some c
              ∧ r = match c with
                    | Some ce => Some (Errorf "error copying" ce)
                    | None => None
                    end).
Proof.
  intros Hrun.
  destruct (downloadFile_placed _ _ _ _ _ _ _ _ _ _ _ Hrun) as (H1 & H2 & H3 & _ & _).
  split; [exact H1 |]. split; [exact H2 |].
  intros e He. destruct (H3 e He) as [Hw Hn]. split; [exact Hw |].
  destruct (copy_result tr) as [c |] eqn:Hc; [| contradiction].
  exists c. split; [reflexivity |].
  destruct c as [ce |]; [apply H1 | apply H2]; reflexivity.
Qed.

End Placing.

(** ** Two entries with one content hash (C9) *)

Lemma renames_app (tr1 tr2 : list event) :
  renames (tr1 ++ tr2) = renames tr1 ++ renames tr2.
Proof. apply omap_app. Qed.

Lemma renames_cons (ev : event) (tr : list event) :
  renames (ev :: tr)
  = match renamed_of ev with
    | Some x => x :: renames tr
    | None => renames tr
    end.
Proof. reflexivity. Qed.

Section SharedBlob.
Context `{GoLib} {S : Type} (h : handler S).

Lemma no_renames {R : Type} (p : prog R) (s : S) :
  makes_only (λ X e, ∀ a, renamed_of (Call e a) = None) p →
  renames (exec h p s).1.2 = [].
Proof.
  intros Hp. apply omap_none.
  pose proof (exec_makes_only h _ p s Hp) as Hall.
  eapply Forall_impl; [exact Hall |]. intros [X e a] He. apply He.
Qed.

(** The fetch of a blob renames at most once, at its end, from the
    temporary file to the blob, and succeeds just when that rename does. *)
Lemma fetch_blob_renames (modelRepo revision filename blobPath : string)
    (s s' : S) (r : option error) (tr : list event) :
  exec h (fetch_blob modelRepo revision filename blobPath) s = (r, tr, s') →
  (renames tr = [] ∧ r ≠ None)
  ∨ ∃ a, renames tr = [(blobPath +:+ ".incomplete", blobPath, a)]
         ∧ (r = None ↔ a = None).
Proof.
  unfold fetch_blob. set (url := "https://huggingface.co/" +:+ _).
  rewrite exec_mbind.
  pose proof (no_renames (getFileMetadata url) s
                ltac:(apply getFileMetadata_calls; intros; reflexivity)) as Hm.
  destruct (exec h (getFileMetadata url) s) as [[m tr1] s1].
  simpl in Hm.
  destruct m as [err | metadata].
  { simpl. rewrite app_nil_r. intros [= <- <- <-]. left. split; [exact Hm | discriminate]. }
  cbn [mbind prog_bind bind call mret prog_ret].
  rewrite exec_Vis. destruct (h _ (Printf _) s1) as [[] s2].
  first [rewrite exec_mbind | rewrite exec_bind].
  pose proof (no_renames (downloadWithProgress url (blobPath +:+ ".incomplete")
                            (md_Size metadata)) s2
                ltac:(apply downloadWithProgress_calls; intros; reflexivity)) as Hd.
  destruct (exec h (downloadWithProgress _ _ _) s2) as [[d tr2] s3].
  simpl in Hd.
  destruct d as [err |].
  { simpl. rewrite app_nil_r. intros [= <- <- <-]. left.
    rewrite renames_app, renames_cons, Hm, Hd.
    split; [reflexivity | discriminate]. }
  rewrite exec_Vis. destruct (h _ (Rename _ _) s3) as [a s4].
  intros Hrun. right. exists a.
  destruct a as [err |]; simpl in Hrun; injection Hrun as <- <- <-;
    rewrite renames_app, renames_cons, renames_app, Hm, Hd;
    (split; [reflexivity |]); split; congruence.
Qed.

(** So does a whole call of [downloadFile]. *)
Lemma downloadFile_renames (modelRepo revision filename blobId : string)
    (size : Z) (storageFolder snapshotDir : string)
    (s s' : S) (r : option error) (tr : list event) :
  let blobPath := Path.Join [storageFolder; "blobs"; blobId] in
  exec h (downloadFile modelRepo revision filename blobId size
            storageFolder snapshotDir) s = (r, tr, s') →
  renames tr = []
  ∨ ∃ a, renames tr = [(blobPath +:+ ".incomplete", blobPath, a)]
         ∧ (r = None → a = None).
Proof.
  intros blobPath.
  assert (Hfp : ∀ b s0 r0 tr0 s0',
            exec h (fetch_and_place b modelRepo revision filename blobPath
                      (Path.Join [snapshotDir; Path.to_native filename])) s0
              = (r0, tr0, s0') →
            renames tr0 = []
            ∨ ∃ a, renames tr0 = [(blobPath +:+ ".incomplete", blobPath, a)]
                   ∧ (r0 = None → a = None)).
  { intros b s0 r0 tr0 s0'. unfold fetch_and_place. rewrite exec_mbind.
    assert (Hplace : makes_only (λ X e, ∀ a, renamed_of (Call e a) = None)
              (place_pointer filename blobPath
                 (Path.Join [snapshotDir; Path.to_native filename]))).
    { apply place_pointer_calls. intros X e He a.
      destruct e; simpl in He; try reflexivity; contradiction. }
    destruct b; cbn [negb].
    - simpl exec. cbv iota beta.
      pose proof (no_renames (place_pointer filename blobPath
                    (Path.Join [snapshotDir; Path.to_native filename])) s0 Hplace) as Hp.
      destruct (exec h (place_pointer _ _ _) s0) as [[r2 tr2] s2]. simpl in Hp.
      intros [= <- <- <-]. left. apply Hp.
    - destruct (exec h (fetch_blob _ _ _ _) s0) as [[r1 tr1] s1] eqn:Hf.
      apply fetch_blob_renames in Hf.
      destruct r1 as [err |].
      + simpl. rewrite app_nil_r. intros [= <- <- <-].
        destruct Hf as [[Hf _] | (a & Hf & _)]; [left; exact Hf |].
        right. exists a. split; [exact Hf | discriminate].
      + pose proof (no_renames (place_pointer filename blobPath
                      (Path.Join [snapshotDir; Path.to_native filename])) s1 Hplace) as Hp.
        destruct (exec h (place_pointer _ _ _) s1) as [[r2 tr2] s2]. simpl in Hp.
        intros [= <- <- <-]. rewrite renames_app, Hp, app_nil_r.
        destruct Hf as [[_ Hf] | (a & Hf & Ha)]; [contradiction |].
        right. exists a. split; [exact Hf |]. intros _. apply Ha. reflexivity. }
  unfold downloadFile. fold blobPath.
  cbn [mbind prog_bind bind call mret prog_ret]. rewrite exec_Vis.
  destruct (h _ (MkdirAll _) s) as [[err |] s1].
  { simpl. intros [= <- <- <-]. left. reflexivity. }
  rewrite exec_Vis. destruct (h _ (Stat _) s1) as [st1 s2].
  rewrite exec_Vis. destruct (h _ (Stat _) s2) as [st2 s3].
  destruct (bool_decide (st2 = None) && negb (bool_decide (st1 = None))).
  - rewrite exec_Vis. destruct (h _ (Printf _) s3) as [[] s4].
    destruct (exec h (fetch_and_place _ _ _ _ _ _) s4) as [[r1 tr1] s5] eqn:Hf.
    intros [= <- <- <-]. apply (Hfp _ _ _ _ _ Hf).
  - destruct (bool_decide (st2 = None) && bool_decide (st1 = None)).
    + simpl. destruct (h _ (Printf _) s3) as [[] s4]. intros [= <- <- <-].
      left. reflexivity.
    + destruct (exec h (fetch_and_place _ _ _ _ _ _) s3) as [[r1 tr1] s5] eqn:Hf.
      intros [= <- <- <-]. apply (Hfp _ _ _ _ _ Hf).
Qed.

(** One after the other.  Two entries with one content hash, their calls
    of [downloadFile] made in turn, the second finding the blob in the pool
    when it looks for it: on this path the check of [downloadFile] does
    what it is there for.  The two calls together rename at most once, from
    the temporary file to the blob, in the first call, which succeeds only
    if that rename did; the second call makes no request, writes no body
    and renames nothing; and each call that succeeds has placed its
    pointer, by a link, by a copy of the blob, or because it found it in
    place.  Nothing makes the goroutines of [Download] take turns: the run
    [shared_blob_fetched_twice] below is one in which they do not. *)
Lemma shared_blob_fetched_once (modelRepo revision : string) (fa fb : Sibling)
    (storageFolder snapshotDir : string) (s : S) :
  Blob fa = Blob fb →
  let blobPath := Path.Join [storageFolder; "blobs"; Blob fa] in
  let first := exec h (downloadFile modelRepo revision (RID fa) (Blob fa) (Size fa)
                         storageFolder snapshotDir) s in
  let pointer_b := Path.Join [snapshotDir; Path.to_native (RID fb)] in
  (h _ (Stat blobPath) (h _ (MkdirAll (Path.Dir pointer_b)) first.2).2).1 = None →
  let second := exec h (downloadFile modelRepo revision (RID fb) (Blob fb) (Size fb)
                          storageFolder snapshotDir) first.2 in
  (renames (first.1.2 ++ second.1.2) = []
   ∨ ∃ a, renames (first.1.2 ++ second.1.2)
          = [(blobPath +:+ ".incomplete", blobPath, a)]
          ∧ (first.1.1 = None → a = None))
  ∧ http_calls second.1.2 = [] ∧ renames second.1.2 = []
  ∧ write_errors second.1.2 = []
  ∧ (first.1.1 = None → pointer_placed first.1.2)
  ∧ (second.1.1 = None → pointer_placed second.1.2).
Proof.
  intros Hblob blobPath first pointer_b Hstat second.
  assert (Hquiet : http_calls second.1.2 = [] ∧ renames second.1.2 = []
                   ∧ write_errors second.1.2 = []).
  { apply not_fetching_no_request. subst second.
    apply downloadFile_cached. rewrite <- Hblob. exact Hstat. }
  destruct Hquiet as (Hq1 & Hq2 & Hq3).
  assert (Hplaced : ∀ run : option error * list event * S,
            (∃ f s0, exec h (downloadFile modelRepo revision (RID f) (Blob f) (Size f)
                               storageFolder snapshotDir) s0 = run) →
            run.1.1 = None → pointer_placed run.1.2).
  { intros [[r tr] s'] (f & s0 & Hrun) Hr. simpl in Hr |- *.
    destruct (downloadFile_placed h _ _ _ _ _ _ _ _ _ _ _ Hrun) as (_ & _ & _ & _ & H5).
    apply H5, Hr. }
  split; [| split; [exact Hq1 | split; [exact Hq2 | split; [exact Hq3 | split]]]].
  - rewrite renames_app, Hq2, app_nil_r. subst first.
    destruct (exec h (downloadFile _ _ (RID fa) _ _ _ _) s) as [[ra tra] sa] eqn:Ha.
    apply (downloadFile_renames _ _ _ _ _ _ _ _ _ _ _ Ha).
  - apply Hplaced. exists fa, s. reflexivity.
  - apply Hplaced. exists fb, first.2. reflexivity.
Qed.

End SharedBlob.

(** * The scenarios, run *)

Lemma run_eta {A B C : Type} (p : A * B * C) : p = (p.1.1, p.1.2, p.2).
Proof. destruct p as [[a b] c]. reflexivity. Qed.

(** ** The end-to-end scenario *)

(** [blobs/abc123] holds the 42 bytes, [snapshots/<commit>/config.json]
    links to it, [README.md] is not in the snapshot, [refs/main] holds the
    commit, and the call returns the storage folder. *)
Example end_to_end :
  let run := Run.download [] "org/tiny-model" Scenario.tiny_machine in
  run.1.1 = Returned "/models" None
  ∧ (String.length <$> World.read run.2 "/models/blobs/abc123") = Some 42%nat
  ∧ World.lstat run.2 "/models/snapshots/c0ffee/config.json"
    = Some (World.Link "../../blobs/abc123")
  ∧ World.read run.2 "/models/snapshots/c0ffee/config.json" = Some Fixture.config_json
  ∧ World.lstat run.2 "/models/snapshots/c0ffee/README.md" = None
  ∧ World.read run.2 "/models/refs/main" = Some "c0ffee".
Proof. vm_compute. repeat split. Qed.

(** A second call on the same disk makes one request, for the listing. *)
Example second_download_is_network_free :
  let first := Run.download [] "org/tiny-model" Scenario.tiny_machine in
  let second := Run.download [] "org/tiny-model" first.2 in
  second.1.1 = Returned "/models" None
  ∧ (URL <$> (http_calls second.1.2).*1)
    = [Hub.tree_url "org/tiny-model" "main"]
  ∧ World.names second.2 = World.names first.2.
Proof. vm_compute. repeat split. Qed.


(** ** What [Download] returns (C1) *)

(** On the end-to-end scenario the theorem gives the custom path. *)
Lemma Download_returns_storage_folder_witness :
  let run := Run.download [] "org/tiny-model" Scenario.tiny_machine in
  run.1.1 = Returned "/models" None
  ∧ (customPath Fixture.downloader ≠ "" → "/models" = customPath Fixture.downloader)
  ∧ ∃ modelInfo commitHash tr0 s0,
      Run.resolve "org/tiny-model" (default_revision "main") Scenario.tiny_machine
        = (inr (modelInfo, commitHash), tr0, s0)
      ∧ Call (MkdirAll (Path.Join ["/models"; "snapshots"; commitHash])) None ∈ run.1.2.
Proof.
  intros run. split; [vm_compute; reflexivity |].
  assert (Hrun : Download (H := reference_lib) World.step [] Fixture.downloader
                   "org/tiny-model" "main" Scenario.tiny_machine
                 = (Returned "/models" None, run.1.2, run.2)).
  { transitivity (run.1.1, run.1.2, run.2); [apply (run_eta run) |]. do 2 f_equal. }
  destruct (Download_returns_storage_folder (H := reference_lib) World.step []
              Fixture.downloader "org/tiny-model" "main" Scenario.tiny_machine
              run.2 "/models" run.1.2 Hrun) as (Hcustom & _ & Hsnap).
  split; [exact Hcustom | exact Hsnap].
Defined.

(** C1, as stated, fails: the call of the end-to-end scenario succeeds and
    returns [/models]; the snapshot directory of the commit it resolved,
    which it has created, is [/models/snapshots/c0ffee]. *)
Lemma Download_returns_snapshot_dir_counterexample :
  let run := Run.download [] "org/tiny-model" Scenario.tiny_machine in
  (∃ modelInfo,
     (Run.resolve "org/tiny-model" "main" Scenario.tiny_machine).1.1
     = inr (modelInfo, "c0ffee"))
  ∧ Path.Join ["/models"; "snapshots"; "c0ffee"] = "/models/snapshots/c0ffee"
  ∧ World.lstat run.2 "/models/snapshots/c0ffee" = Some World.Dir
  ∧ run.1.1 = Returned "/models" None
  ∧ run.1.1 ≠ Returned (Path.Join ["/models"; "snapshots"; "c0ffee"]) None.
Proof.
  split; [eexists; vm_compute; reflexivity |].
  vm_compute. repeat split. discriminate.
Qed.

(** With no custom path the folder is the one of the hub cache. *)
Example default_storage_folder :
  (Download (H := reference_lib) World.step [] NewDownloader "org/tiny-model" "main"
     Scenario.tiny_machine).1.1
  = Returned "/home/u/.cache/huggingface/hub/models--org--tiny-model" None.
Proof. vm_compute. reflexivity. Qed.

(** ** Placing the pointer without symbolic links (C2) *)

(** C2, as stated, fails: on a volume without symbolic links the link of
    [config.json] fails with an I/O error, the error is printed as a
    warning, the blob is copied, and [downloadFile] returns no error. *)
Lemma link_failure_counterexample :
  let run := Run.file "org/tiny-model" "config.json" "abc123" 42 Run.no_links_ready in
  symlink_answers run.1.2 = [None; Some World.EPERM]
  ∧ WarnSymlinkCopy World.EPERM ∈ printed run.1.2
  ∧ run.1.1 = None
  ∧ World.lstat run.2 "/models/snapshots/c0ffee/config.json" = Some (World.File 7)
  ∧ World.read run.2 "/models/snapshots/c0ffee/config.json" = Some Fixture.config_json.
Proof.
  vm_compute. repeat split. apply list_elem_of_In. simpl. auto.
Qed.

(** The theorem on that run: the copy succeeded, so does the call. *)
Lemma copy_failure_is_surfaced_witness :
  let run := Run.file "org/tiny-model" "config.json" "abc123" 42 Run.no_links_ready in
  copy_result run.1.2 = Some None
  ∧ (copy_result run.1.2 = Some None → run.1.1 = None)
  ∧ (∀ e, symlink_answers run.1.2 = [None; Some e] →
       WarnSymlinkCopy e ∈ printed run.1.2
       ∧ ∃ c, copy_result run.1.2 = Some c
              ∧ run.1.1 = match c with
                          | Some ce => Some (Errorf "error copying" ce)
                          | None => None
                          end).
Proof.
  intros run. split; [vm_compute; reflexivity |].
  destruct (copy_failure_is_surfaced (H := reference_lib) World.step
              "org/tiny-model" "main" "config.json" "abc123" 42
              "/models" "/models/snapshots/c0ffee" Run.no_links_ready
              run.2 run.1.1 run.1.2 (run_eta run)) as (_ & Hok & Hlink).
  split; [exact Hok | exact Hlink].
Defined.

(** A copy that fails is returned: the pointer path is taken by a
    directory, on a volume without symbolic links. *)
Example copy_failure_is_returned :
  let w := (World.do_MkdirAll Run.no_links_ready
              "/models/snapshots/c0ffee/config.json/x").2 in
  let run := Run.file "org/tiny-model" "config.json" "abc123" 42 w in
  copy_result run.1.2 = Some (Some World.EISDIR)
  ∧ run.1.1 = Some (Errorf "error copying" World.EISDIR).
Proof. vm_compute. split; reflexivity. Qed.

(** ** A body shorter than declared (C3) *)

(** The hub declares 42 bytes and delivers 41: the call fails with the
    size mismatch, the temporary file is on the disk with the 41 bytes, and
    there is no blob. *)
Lemma size_mismatch_fails_witness :
  let run := Run.file "org/tiny-model" "config.json" "abc123" 42 Run.short_ready in
  let probe := head_request Run.config_url "" in
  let get := mkRequest "GET" Run.config_url [] in
  http_calls run.1.2
    = [(probe, inr (Run.answer Scenario.short_hub probe));
       (get, inr (Run.answer Scenario.short_hub get))]
  ∧ run.1.1 = Some (Errorf "error downloading" (ErrSizeMismatch 41 42))
  ∧ (∃ fd, created run.1.2 = [("/models/blobs/abc123" +:+ ".incomplete", inr fd)])
  ∧ Forall (λ ev, ¬ displacing_call (ev_call ev)) run.1.2.
Proof.
  intros run probe get.
  assert (Hhttp : http_calls run.1.2
                  = [(probe, inr (Run.answer Scenario.short_hub probe));
                     (get, inr (Run.answer Scenario.short_hub get))])
    by (vm_compute; reflexivity).
  split; [exact Hhttp |].
  apply (size_mismatch_fails (H := reference_lib) World.step
           "org/tiny-model" "main" "config.json" "abc123" 42
           "/models" "/models/snapshots/c0ffee" Run.short_ready
           run.2 run.1.1 run.1.2 probe get
           (Run.answer Scenario.short_hub probe) (Run.answer Scenario.short_hub get) 41
           (run_eta run) Hhttp).
  - reflexivity.
  - vm_compute. reflexivity.
  - vm_compute. reflexivity.
  - reflexivity.
  - vm_compute. reflexivity.
  - vm_compute. discriminate.
Defined.

Example size_mismatch_on_disk :
  let run := Run.file "org/tiny-model" "config.json" "abc123" 42 Run.short_ready in
  (String.length <$> World.read run.2 "/models/blobs/abc123.incomplete") = Some 41%nat
  ∧ World.lstat run.2 "/models/blobs/abc123" = None
  ∧ World.lstat run.2 "/models/snapshots/c0ffee/config.json" = None.
Proof. vm_compute. repeat split. Qed.

(** ** A blob that is already in the pool (C4) *)

(** On the disk that the end-to-end scenario leaves, without the snapshot
    entry: the blob is found, no request is made, the pointer is placed. *)
Lemma cached_blob_no_network_witness :
  let w := (World.do_Remove (Run.download [] "org/tiny-model" Scenario.tiny_machine).2
              "/models/snapshots/c0ffee/config.json").2 in
  let run := Run.file "org/tiny-model" "config.json" "abc123" 42 w in
  World.lstat w "/models/snapshots/c0ffee/config.json" = None
  ∧ Forall (λ ev, ¬ fetching_call (ev_call ev)) run.1.2
  ∧ http_calls run.1.2 = []
  ∧ run.1.1 = None
  ∧ World.read run.2 "/models/snapshots/c0ffee/config.json" = Some Fixture.config_json.
Proof.
  intros w run. split; [vm_compute; reflexivity |].
  destruct (cached_blob_no_network (H := reference_lib) World.step
              "org/tiny-model" "main" "config.json" "abc123" 42
              "/models" "/models/snapshots/c0ffee" w) as [Hquiet Hnone].
  - vm_compute. reflexivity.
  - split; [exact Hquiet |]. split; [exact Hnone |]. vm_compute. split; reflexivity.
Defined.

(** ** The commit identifier (C5) *)

(** The end-to-end scenario: the hub sends the commit header. *)
Lemma commit_id_derivation_witness :
  let run := Run.resolve "org/tiny-model" "main" Scenario.tiny_machine in
  run.1.1 = inr (mkModelInfo (siblings_of Fixture.tiny_listing), "c0ffee")
  ∧ ∃ req resp files,
      http_calls run.1.2 = [(req, inr resp)]
      ∧ StatusCode resp = StatusOK
      ∧ json_tree (RespBody resp) = inr files
      ∧ mkModelInfo (siblings_of Fixture.tiny_listing) = mkModelInfo (siblings_of files)
      ∧ (Header_Get (Header resp) "X-Repo-Commit" ≠ "" →
         "c0ffee" = Header_Get (Header resp) "X-Repo-Commit").
Proof.
  intros run.
  assert (Hres : run.1.1 = inr (mkModelInfo (siblings_of Fixture.tiny_listing), "c0ffee"))
    by (vm_compute; reflexivity).
  split; [exact Hres |].
  assert (Hrun : exec World.step (getModelInfo (H := reference_lib) "org/tiny-model" "main")
                   Scenario.tiny_machine
                 = (inr (mkModelInfo (siblings_of Fixture.tiny_listing), "c0ffee"),
                    run.1.2, run.2)).
  { transitivity (run.1.1, run.1.2, run.2); [apply (run_eta run) |]. rewrite Hres.
    reflexivity. }
  destruct (commit_id_derivation (H := reference_lib) World.step "org/tiny-model" "main"
              Scenario.tiny_machine run.2 _ "c0ffee" run.1.2 Hrun)
    as (req & resp & files & H1 & H2 & H3 & H4 & H5 & _).
  exists req, resp, files. auto.
Defined.

(** C5, as stated, fails: with no commit header and a first entry without
    object identifier, the code resolves to the revision label, where the
    statement gives the (empty) hash of the first listed file. *)
Lemma commit_id_counterexample :
  ∃ modelInfo commitHash,
    (Run.resolve "org/tiny-model" "main" (Fixture.machine Cases.headerless_hub)).1.1
    = inr (modelInfo, commitHash)
    ∧ Siblings modelInfo ≠ []
    ∧ commitHash = "main"
    ∧ spec_commit_id "" (Siblings modelInfo) "main" = ""
    ∧ commitHash ≠ spec_commit_id "" (Siblings modelInfo) "main".
Proof.
  eexists _, _. split; [vm_compute; reflexivity |]. repeat split; discriminate.
Qed.

(** And with a directory at the head of the listing the code takes the
    directory's identifier, not the hash of the first listed file. *)
Example commit_id_folder_first :
  ∃ modelInfo,
    (Run.resolve "org/tiny-model" "main" (Fixture.machine Cases.folder_first_hub)).1.1
    = inr (modelInfo, "7ree01")
    ∧ spec_commit_id "" (Siblings modelInfo) "main" = "abc123".
Proof. eexists. split; vm_compute; reflexivity. Qed.

(** ** The ignored entry (C6) *)

(** [README.md] in the end-to-end scenario: the pattern for [.md] matches
    it, one goroutine is launched, for [config.json], and no request of the
    fan-out is for [README.md]. *)
Lemma ignored_entries_excluded_witness :
  let ready := Run.setup Fixture.downloader "org/tiny-model" "main" Scenario.tiny_machine in
  let readme := mkSibling "README.md" 10 "def456" false in
  ∃ fo md,
    ready.1.1 = inr fo
    ∧ Run.patterns !! 0%nat = Some md
    ∧ regexp_MatchString (GoLib := reference_lib) md (RID readme) = true
    ∧ (RID ∘ task_file <$> fo_tasks fo) = ["config.json"]
    ∧ (∀ t, t ∈ fo_tasks fo → RID (task_file t) ≠ RID readme)
    ∧ ∀ sched,
        Forall (λ ev, ∀ req, request_of ev = Some req →
                  URL req ≠ resolve_url "org/tiny-model" "main" (RID readme))
          (run_pool World.step sched (task_body <$> fo_tasks fo) [] ready.2).1.2.
Proof.
  intros ready readme.
  set (fo := mkFanout "/models"
               (launch (H := reference_lib) Run.patterns "org/tiny-model" "main" "/models"
                  "/models/snapshots/c0ffee"
                  (siblings_of Fixture.tiny_listing))).
  set (md := MiniRegexp.Cat (MiniRegexp.Chr ".") (MiniRegexp.Cat (MiniRegexp.Chr "m")
              (MiniRegexp.Cat (MiniRegexp.Chr "d")
                 (MiniRegexp.Cat MiniRegexp.Eol MiniRegexp.Eps)))).
  assert (Hfo : ready.1.1 = inr fo) by reflexivity.
  assert (Hready : exec World.step
                     (Download_setup (H := reference_lib) Fixture.downloader
                        "org/tiny-model" "main") Scenario.tiny_machine
                   = (inr fo, ready.1.2, ready.2)).
  { transitivity (ready.1.1, ready.1.2, ready.2); [apply (run_eta ready) |].
    rewrite Hfo. reflexivity. }
  destruct (ignored_entries_excluded (H := reference_lib) World.step Fixture.downloader
              "org/tiny-model" "main" Scenario.tiny_machine ready.2 fo ready.1.2
              Run.patterns md readme) as (_ & Htasks & Hrequests).
  - reflexivity.
  - exact Hready.
  - apply list_elem_of_In. left. reflexivity.
  - reflexivity.
  - exists fo, md. split; [exact Hfo |]. split; [reflexivity |].
    split; [reflexivity |]. split; [reflexivity |].
    split; [exact Htasks | exact Hrequests].
Defined.

(** ** A resolution that fails (C7) *)

(** A hub that cannot be reached: the error comes back, and the calls made
    are those of the resolution. *)
Lemma Download_resolution_failure_witness :
  let resolution := Run.resolve "invalid/repo/name" "main" (Fixture.machine Hub.unreachable) in
  Download (H := reference_lib) World.step [] Fixture.downloader "invalid/repo/name" "main"
      (Fixture.machine Hub.unreachable)
    = (Returned "" (Some (Errorf "could not get model info"
         (Errorf "error making API request"
            (OSErr "dial tcp: lookup huggingface.co: no such host")))),
       resolution.1.2, resolution.2)
  ∧ Forall (λ ev, ev_kind ev ≠ FileSystem) resolution.1.2.
Proof.
  intros resolution.
  apply (Download_resolution_failure (H := reference_lib) World.step []
           Fixture.downloader "invalid/repo/name" "main" Run.patterns).
  - reflexivity.
  - transitivity (resolution.1.1, resolution.1.2, resolution.2);
      [apply (run_eta resolution) | reflexivity].
Defined.

(** With the storage root on the disk of that machine: nothing is there
    after the failed call. *)
Example resolution_failure_leaves_no_directory :
  let w := (Download (H := reference_lib) World.step [] Fixture.downloader
              "invalid/repo/name" "main" (Fixture.machine Hub.unreachable)).2 in
  World.names w = World.names (Fixture.machine Hub.unreachable)
  ∧ World.lstat w "/models" = None.
Proof. vm_compute. split; reflexivity. Qed.

(** ** The revision pointer (C8) *)

(** The end-to-end scenario: [refs/main] is written with the commit. *)
Lemma revision_pointer_witness :
  let w := Scenario.tiny_machine in
  let resolution := Run.resolve "org/tiny-model" "main" w in
  let layout := exec World.step
                  (create_dirs (layout_dirs "/models"))
                  resolution.2 in
  layout.1.1 = None
  ∧ ∃ trw s3,
      exec World.step (cache_commit_hash "/models" "main" "c0ffee")
        layout.2 = ((), trw, s3)
      ∧ ∃ a1 a2,
          trw = Call (MkdirAll (Path.Dir (Path.Join ["/models"; "refs"; "main"]))) a1
                :: Call (WriteFile (Path.Join ["/models"; "refs"; "main"]) "c0ffee") a2
                :: match a2 with
                   | Some err => [Call (Printf (WarnRevisionRef err)) ()]
                   | None => []
                   end.
Proof.
  intros w resolution layout.
  assert (Hlayout : layout.1.1 = None) by (vm_compute; reflexivity).
  split; [exact Hlayout |].
  destruct (revision_pointer (H := reference_lib) World.step Fixture.downloader
              "org/tiny-model" "main" Run.patterns
              (mkModelInfo (siblings_of Fixture.tiny_listing)) "c0ffee" "/models"
              w resolution.2 resolution.2 layout.2 resolution.1.2 [] layout.1.2)
    as (trw & s3 & a & s4 & Hw & _ & Hne & _).
  - reflexivity.
  - transitivity (resolution.1.1, resolution.1.2, resolution.2);
      [apply (run_eta resolution) | reflexivity].
  - reflexivity.
  - transitivity (layout.1.1, layout.1.2, layout.2); [apply (run_eta layout) |].
    rewrite Hlayout. reflexivity.
  - exists trw, s3. split; [exact Hw |]. apply Hne. discriminate.
Defined.

(** A ref that cannot be written: a warning, and the call succeeds. *)
Example unwritable_ref_is_a_warning :
  let w := Fixture.machine Fixture.tiny_hub in
  let w := World.mk (World.names w) (World.inodes w) (World.handles w) (World.next_id w)
             (World.env w) (World.hub w) (World.requests w) (World.clock w)
             (World.tick w) (World.no_symlink w)
             (λ p, String.eqb p "/models/refs/main") (World.stdout w) in
  let run := Run.download [] "org/tiny-model" w in
  run.1.1 = Returned "/models" None
  ∧ head (World.stdout run.2) = Some (WarnRevisionRef World.EACCES)
  ∧ World.lstat run.2 "/models/refs/main" = None.
Proof. vm_compute. repeat split. Qed.

(** ** Two files of one content (C9) *)

(** C9.  The code on two entries of one content hash whose goroutines
    overlap: [a.bin] and [b.bin] of [org/twins], both with the object
    identifier [abc123], on an empty disk, each goroutine looking for the
    blob before the other has promoted it.  [downloadFile] checks that the
    blob is absent and then fetches it, with nothing between the two that
    holds the other goroutine back: both goroutines transfer the body (the
    listing and two bodies make three [GET] requests), both write it into
    the one temporary file [<blob>.incomplete], and both rename.  The first
    rename promotes the blob; the second finds no temporary file, so that
    its goroutine fails, [Download] returns that error for a repository
    that is in order, and the snapshot has no entry for [b.bin].  The blob
    was fetched twice and one of the two snapshot paths resolves to
    nothing, where C9 has one fetch and both paths resolving to the blob,
    as the same code gives when the goroutines take turns
    ([shared_blob_in_turn]). *)
Theorem shared_blob_fetched_twice :
  let run := Run.download Scenario.overlapping "org/twins" Scenario.twin_machine in
  run.1.1 = Returned "" (Some (Errorf "error processing b.bin"
                                 (Errorf "error renaming temp file" World.ENOENT)))
  ∧ renames run.1.2
    = [("/models/blobs/abc123.incomplete", "/models/blobs/abc123", None);
       ("/models/blobs/abc123.incomplete", "/models/blobs/abc123", Some World.ENOENT)]
  ∧ length (filter (λ c, Method c.1 = "GET") (http_calls run.1.2)) = 3%nat
  ∧ World.read run.2 "/models/blobs/abc123" = Some "hello"
  ∧ World.read run.2 "/models/snapshots/c0ffee/a.bin" = Some "hello"
  ∧ World.read run.2 "/models/snapshots/c0ffee/b.bin" = None.
Proof. vm_compute. repeat split. Qed.

(** One after the other, on the two files. *)
Lemma shared_blob_fetched_once_witness :
  let fa := mkSibling "a.bin" 5 "abc123" false in
  let fb := mkSibling "b.bin" 5 "abc123" false in
  let first := Run.file "org/twins" "a.bin" "abc123" 5 Run.twin_ready in
  let second := Run.file "org/twins" "b.bin" "abc123" 5 first.2 in
  Blob fa = Blob fb
  ∧ renames (first.1.2 ++ second.1.2)
    = [("/models/blobs/abc123.incomplete", "/models/blobs/abc123", None)]
  ∧ http_calls second.1.2 = [] ∧ renames second.1.2 = []
  ∧ write_errors second.1.2 = []
  ∧ (first.1.1 = None → pointer_placed first.1.2)
  ∧ (second.1.1 = None → pointer_placed second.1.2).
Proof.
  intros fa fb first second. split; [reflexivity |].
  split; [vm_compute; reflexivity |].
  destruct (shared_blob_fetched_once (H := reference_lib) World.step "org/twins" "main"
              fa fb "/models" "/models/snapshots/c0ffee" Run.twin_ready)
    as (_ & H2 & H3 & H4 & H5 & H6).
  - reflexivity.
  - vm_compute. reflexivity.
  - split; [exact H2 |]. split; [exact H3 |]. split; [exact H4 |].
    split; [exact H5 | exact H6].
Defined.

(** Under the schedule that runs the goroutines one after the other the
    blob is transferred once and both entries read as the blob. *)
Example shared_blob_in_turn :
  let run := Run.download [] "org/twins" Scenario.twin_machine in
  run.1.1 = Returned "/models" None
  ∧ length (filter (λ c, Method c.1 = "GET") (http_calls run.1.2)) = 2%nat
  ∧ World.read run.2 "/models/blobs/abc123" = Some "hello"
  ∧ World.read run.2 "/models/snapshots/c0ffee/a.bin" = Some "hello"
  ∧ World.read run.2 "/models/snapshots/c0ffee/b.bin" = Some "hello".
Proof. vm_compute. repeat split. Qed.

(** ** A pattern that does not compile (C10) *)

(** The pattern [(] on the reference library: the panic, on an untouched
    machine. *)
Lemma Download_panics_on_invalid_pattern_witness :
  ignorePatterns (SetIgnorePatterns Fixture.downloader ["\.md$"; "("]) = ["\.md$"; "("]
  ∧ customPath (SetIgnorePatterns Fixture.downloader ["\.md$"; "("]) = "/models"
  ∧ ∃ pattern e,
      Download (H := reference_lib) World.step []
        (SetIgnorePatterns Fixture.downloader ["\.md$"; "("])
        "org/tiny-model" "main" (Fixture.machine Fixture.tiny_hub)
        = (Panicked pattern e, [], Fixture.machine Fixture.tiny_hub)
      ∧ pattern ∈ ["\.md$"; "("]
      ∧ regexp_Compile (GoLib := reference_lib) pattern = inl e.
Proof.
  apply (Download_panics_on_invalid_pattern (H := reference_lib) World.step []
           Fixture.downloader ["\.md$"; "("] "(" (OSErr "missing closing )")).
  - apply list_elem_of_In. simpl. auto.
  - reflexivity.
Defined.

(** * The rest of the package

    Properties of the functions of [downloader.go] beyond those the
    specification states: the helpers on strings, the paths the program
    builds, and the redirect policy of the client. *)

(** ** Decimal numbers *)

Lemma digit_of_pretty_N_char (x : N) :
  (x < 10)%N → digit_of (pretty_N_char x) = Some (Z.of_N x).
Proof.
  intros Hx.
  assert (Hc : x ∈ [0; 1; 2; 3; 4; 5; 6; 7; 8; 9]%N).
  { rewrite !elem_of_cons. lia. }
  rewrite !elem_of_cons, elem_of_nil in Hc.
  destruct Hc as [-> | [-> | [-> | [-> | [-> | [-> | [-> | [-> | [-> | [-> | []]]]]]]]]]];
    reflexivity.
Qed.

Lemma digit_not_blank (c : ascii) (d : Z) :
  digit_of c = Some d →
  is_space c = false ∧ Ascii.eqb c "-" = false ∧ Ascii.eqb c "+" = false.
Proof.
  unfold digit_of, is_space. intros Hd.
  destruct (_ && _) eqn:E in Hd; [| discriminate].
  apply andb_true_iff in E as [E1 E2].
  apply Nat.leb_le in E1. apply Nat.leb_le in E2.
  repeat split.
  - rewrite !orb_false_iff, !Nat.eqb_neq. lia.
  - apply Ascii.eqb_neq. intros ->. vm_compute in E1. lia.
  - apply Ascii.eqb_neq. intros ->. vm_compute in E1. lia.
Qed.

(** The scanner on the digits that [pretty] prints. *)
Lemma scan_digits_pretty_N_go (x : N) (s : string) (seen : bool) :
  (0 < x)%N →
  scan_digits (pretty_N_go x s) (Some 0) seen = scan_digits s (Some (Z.of_N x)) true
  ∧ ∃ c rest d, pretty_N_go x s = String c rest ∧ digit_of c = Some d.
Proof.
  revert s seen. induction (N.lt_wf_0 x) as [x _ IH]. intros s seen Hx.
  rewrite pretty_N_go_step by assumption.
  assert (Hm : (x `mod` 10 < 10)%N) by (apply N.mod_lt; lia).
  pose proof (digit_of_pretty_N_char _ Hm) as Hd.
  destruct (decide (x `div` 10 = 0)%N) as [E | E].
  - rewrite E, pretty_N_go_0. split; [| eauto].
    simpl. rewrite Hd. simpl. do 3 f_equal.
    pose proof (N.div_mod x 10). lia.
  - assert (Hlt : (x `div` 10 < x)%N) by (apply N.div_lt; lia).
    destruct (IH _ Hlt (String (pretty_N_char (x `mod` 10)) s) seen) as [IH1 IH2]; [apply N.neq_0_lt_0; assumption |].
    split; [| exact IH2].
    rewrite IH1. simpl. rewrite Hd. simpl. do 3 f_equal.
    pose proof (N.div_mod x 10). lia.
Qed.

Lemma scan_int64_digit (s : string) (c : ascii) (rest : string) (d : Z) :
  s = String c rest → digit_of c = Some d →
  scan_int64 s
  = match scan_digits s (Some 0) false with
    | (Some v, true) => if (- 2 ^ 63 <=? v) && (v <? 2 ^ 63) then v else 0
    | _ => 0
    end.
Proof.
  intros -> Hd. destruct (digit_not_blank _ _ Hd) as (Hsp & Hm & Hp).
  unfold scan_int64. cbn [skip_spaces]. rewrite Hsp, Hm, Hp. reflexivity.
Qed.

Lemma scan_int64_pretty_pos (p : positive) :
  scan_int64 (pretty (Z.pos p))
  = if Z.pos p <? 2 ^ 63 then Z.pos p else 0.
Proof.
  change (pretty (Z.pos p)) with (pretty_N_go (N.pos p) "").
  destruct (scan_digits_pretty_N_go (N.pos p) "" false) as [Hs (c & rest & d & Hc & Hd)];
    [lia |].
  rewrite (scan_int64_digit _ _ _ _ Hc Hd), Hs. simpl scan_digits. cbn iota beta.
  change (Z.of_N (N.pos p)) with (Z.pos p).
  destruct (Z.leb_spec (- 2 ^ 63) (Z.pos p)); [| lia]. reflexivity.
Qed.

Lemma scan_int64_minus (s : string) :
  scan_int64 (String "-" s)
  = match scan_digits s (Some 0) false with
    | (Some v, true) => if (- 2 ^ 63 <=? - v) && (- v <? 2 ^ 63) then - v else 0
    | _ => 0
    end.
Proof. reflexivity. Qed.

Lemma scan_int64_pretty_neg (p : positive) :
  scan_int64 (pretty (Z.neg p))
  = if - 2 ^ 63 <=? Z.neg p then Z.neg p else 0.
Proof.
  change (pretty (Z.neg p)) with (String "-" (pretty_N_go (N.pos p) "")).
  destruct (scan_digits_pretty_N_go (N.pos p) "" false) as [Hs _]; [lia |].
  rewrite scan_int64_minus, Hs. simpl scan_digits. cbn iota beta.
  change (- Z.of_N (N.pos p)) with (Z.neg p).
  destruct (Z.ltb_spec (Z.neg p) (2 ^ 63)); [| lia].
  rewrite andb_true_r. reflexivity.
Qed.

Lemma pretty_Z_nonempty (n : Z) : pretty n ≠ "".
Proof.
  destruct n as [| p | p]; [discriminate | | discriminate].
  change (pretty (Z.pos p)) with (pretty_N_go (N.pos p) "").
  destruct (scan_digits_pretty_N_go (N.pos p) "" false) as [_ (c & rest & d & Hc & _)];
    [lia |].
  rewrite Hc. discriminate.
Qed.

(** X1.  [parseInt64] gives back the number whose decimal numeral it is
    given, when the number has 64 bits, and zero when it has not. *)
Theorem parseInt64_decimal (n : Z) :
  parseInt64 (pretty n) = if (- 2 ^ 63 <=? n) && (n <? 2 ^ 63) then n else 0.
Proof.
  unfold parseInt64.
  destruct (String.eqb_spec (pretty n) "") as [E | _];
    [exfalso; exact (pretty_Z_nonempty n E) |].
  destruct n as [| p | p].
  - reflexivity.
  - rewrite scan_int64_pretty_pos.
    destruct (Z.leb_spec (- 2 ^ 63) (Z.pos p)); [reflexivity | lia].
  - rewrite scan_int64_pretty_neg.
    destruct (Z.ltb_spec (Z.neg p) (2 ^ 63)); [| lia].
    rewrite andb_true_r. reflexivity.
Qed.

(** ** Splitting, joining and cleaning paths *)

Section Paths.
Import Path Lexical.

Lemma Split_nonempty (sep : ascii) (s : string) : Split sep s ≠ [].
Proof.
  destruct s as [| c s]; simpl; [discriminate |].
  destruct (Ascii.eqb c sep); [discriminate |].
  destruct (Split sep s); discriminate.
Qed.

Lemma Split_app (sep : ascii) (a b : string) :
  Split sep (a +:+ String sep b) = Split sep a ++ Split sep b.
Proof.
  induction a as [| c a IH]; simpl.
  - rewrite Ascii.eqb_refl. reflexivity.
  - destruct (Ascii.eqb c sep); [rewrite IH; reflexivity |].
    rewrite IH. pose proof (Split_nonempty sep a).
    destruct (Split sep a); [contradiction | reflexivity].
Qed.

(** [strings.Join(strings.Split(s, sep), sep) == s]. *)
Lemma Join_Split (sep : ascii) (s : string) :
  Join_with (String sep "") (Split sep s) = s.
Proof.
  induction s as [| c s IH]; simpl; [reflexivity |].
  pose proof (Split_nonempty sep s).
  destruct (Ascii.eqb_spec c sep) as [-> | Hc].
  - destruct (Split sep s) as [| w ws]; [contradiction |].
    simpl in *. rewrite IH. reflexivity.
  - destruct (Split sep s) as [| w ws]; [contradiction |].
    destruct ws; simpl in *; rewrite <- IH; reflexivity.
Qed.

Lemma to_native_id (s : string) : to_native s = s.
Proof. apply Join_Split. Qed.

Lemma Join_with_cons (sep e : string) (es : list string) :
  es ≠ [] → Join_with sep (e :: es) = e +:+ sep +:+ Join_with sep es.
Proof. destruct es; [contradiction | reflexivity]. Qed.

Lemma Split_Join (es : list string) :
  es ≠ [] → Forall (λ e, Split slash e = [e]) es →
  Split slash (Join_with "/" es) = es.
Proof.
  induction es as [| e es IH]; [contradiction |]. intros _ Hes.
  inversion Hes as [| ? ? He Hrest]; subst.
  destruct es as [| e' es]; [exact He |].
  rewrite Join_with_cons by discriminate.
  change (e +:+ "/" +:+ Join_with "/" (e' :: es))
    with (e +:+ String slash (Join_with "/" (e' :: es))).
  rewrite Split_app, He, IH by (discriminate || assumption). reflexivity.
Qed.

Lemma Split_elems (s : string) : Forall (λ e, Split slash e = [e]) (Split slash s).
Proof.
  induction s as [| c s IH]; simpl; [repeat constructor |].
  destruct (Ascii.eqb_spec c slash) as [-> | Hc].
  - constructor; [reflexivity | assumption].
  - destruct (Split slash s) as [| w ws]; [repeat constructor; simpl |].
    + apply Ascii.eqb_neq in Hc. rewrite Hc. reflexivity.
    + inversion IH as [| ? ? Hw Hws]; subst. constructor; [| assumption].
      simpl. apply Ascii.eqb_neq in Hc. rewrite Hc, Hw. reflexivity.
Qed.

Lemma no_slash_not_rooted (e rest : string) :
  Split slash e = [e] → e ≠ "" → rooted (e +:+ rest) = false.
Proof.
  destruct e as [| c e]; [contradiction |]. simpl. intros He _.
  destruct (Ascii.eqb c slash); [| reflexivity].
  pose proof (Split_nonempty slash e). destruct (Split slash e); congruence.
Qed.

(** *** The element loop *)

Lemma clean_elems_app (root : bool) (out es1 es2 : list string) :
  clean_elems root out (es1 ++ es2)
  = clean_elems root (rev (clean_elems root out es1)) es2.
Proof.
  revert out. induction es1 as [| e es1 IH]; intros out; simpl.
  - rewrite rev_involutive. reflexivity.
  - destruct (_ || _); [apply IH |].
    destruct (String.eqb e ".."); [| apply IH].
    destruct out as [| top out]; [destruct root; apply IH |].
    destruct (String.eqb top ".."); apply IH.
Qed.

Lemma clean_elems_skip (root : bool) (out : list string) (e : string) (es : list string) :
  e = "" ∨ e = "." → clean_elems root out (e :: es) = clean_elems root out es.
Proof. intros [-> | ->]; reflexivity. Qed.

Lemma clean_elems_push (root : bool) (out : list string) (e : string) (es : list string) :
  e ≠ "" → e ≠ "." → e ≠ ".." →
  clean_elems root out (e :: es) = clean_elems root (e :: out) es.
Proof.
  intros H1 H2 H3. simpl.
  apply String.eqb_neq in H1, H2, H3. rewrite H1, H2, H3. reflexivity.
Qed.

Lemma proper_push (root : bool) (out : list string) (e : string) (es : list string) :
  proper e → clean_elems root out (e :: es) = clean_elems root (e :: out) es.
Proof. intros (H1 & H2 & H3 & _). apply clean_elems_push; assumption. Qed.

Lemma normal_false_proper (es : list string) : normal false es → Forall proper es.
Proof.
  induction es as [| e es IH]; simpl; [constructor |].
  intros [(_ & [=] & _) | [He Hes]]. constructor; auto.
Qed.

Lemma proper_normal (d : bool) (es : list string) : Forall proper es → normal d es.
Proof.
  revert d. induction es as [| e es IH]; intros d Hes; simpl; [exact I |].
  inversion Hes; subst. right. auto.
Qed.

Lemma normal_weaken (d : bool) (es : list string) : normal d es → normal true es.
Proof.
  destruct es as [| e es]; simpl; [tauto |].
  intros [(-> & _ & H) | H]; [left | right]; auto.
Qed.

Lemma normal_mid (d : bool) (C : list string) (e : string) (T : list string) :
  normal d (C ++ e :: T) →
  (e = ".." ∧ Forall (λ x, x = "..") C ∧ d = true) ∨ proper e.
Proof.
  revert d. induction C as [| c C IH]; intros d; simpl.
  - intros [(-> & -> & _) | [He _]]; [left | right]; auto.
  - intros [(-> & -> & H) | [Hc H]].
    + destruct (IH _ H) as [(-> & HC & _) | He]; [left | right]; auto.
    + destruct (IH _ H) as [(_ & _ & [=]) | He]. right; auto.
Qed.

Lemma normal_suffix (d : bool) (C T : list string) :
  normal d (C ++ T) → normal true T.
Proof.
  revert d. induction C as [| c C IH]; intros d; simpl.
  - apply normal_weaken.
  - intros [(_ & _ & H) | [_ H]]; eauto.
Qed.

Lemma normal_prefix (d : bool) (C T : list string) :
  normal d (C ++ T) → normal d C.
Proof.
  revert d. induction C as [| c C IH]; intros d; simpl; [tauto |].
  intros [(-> & -> & H) | [Hc H]]; [left | right]; eauto.
Qed.

Lemma normal_snoc (d : bool) (es : list string) (e : string) :
  normal d es → proper e → normal d (es ++ [e]).
Proof.
  revert d. induction es as [| c es IH]; intros d; simpl.
  - intros _ He. right. auto.
  - intros [(-> & -> & H) | [Hc H]] He; [left | right]; auto.
Qed.

Lemma normal_dots (d : bool) (es : list string) :
  normal d (es ++ [".."]) → d = true ∧ normal d (es ++ [".."; ".."]).
Proof.
  revert d. induction es as [| c es IH]; intros d; simpl.
  - intros [(_ & -> & _) | [(_ & _ & Hp & _) _]]; [| contradiction].
    split; [reflexivity |]. left. repeat split. left. auto.
  - intros [(-> & -> & H) | [Hc H]].
    + split; [reflexivity |]. left. repeat split. apply IH, H.
    + destruct (IH _ H) as [[=] _].
Qed.

Lemma dots_top (root : bool) (C : list string) (es : list string) :
  Forall (λ x, x = "..") C → root = false →
  clean_elems root (rev C) (".." :: es) = clean_elems root (rev (C ++ [".."])) es.
Proof.
  intros HC ->. rewrite rev_app_distr. simpl.
  destruct (rev C) as [| top out] eqn:E; [reflexivity |].
  assert (Htop : top = "..").
  { apply (proj1 (List.Forall_forall _ _) HC).
    apply in_rev. rewrite E. left. reflexivity. }
  rewrite Htop. reflexivity.
Qed.

(** The loop leaves the elements of a clean path as they are. *)
Lemma clean_elems_normal (root d : bool) (C T : list string) :
  normal d (C ++ T) → (d = true → root = false) →
  clean_elems root (rev C) T = C ++ T.
Proof.
  revert C. induction T as [| e T IH]; intros C HN Hd.
  - simpl. rewrite rev_involutive, app_nil_r. reflexivity.
  - destruct (normal_mid _ _ _ _ HN) as [(-> & HC & ->) | He].
    + rewrite dots_top by auto.
      rewrite IH; rewrite <- ?List.app_assoc; auto.
    + rewrite proper_push by assumption.
      change (e :: rev C) with (rev [e] ++ rev C). rewrite <- rev_app_distr.
      rewrite IH; rewrite <- ?List.app_assoc; auto.
Qed.

(** What the loop returns is clean. *)
Lemma clean_elems_is_normal (root : bool) (out es : list string) :
  Forall (λ e, Split slash e = [e]) es →
  normal (negb root) (rev out) → normal (negb root) (clean_elems root out es).
Proof.
  revert out. induction es as [| e es IH]; intros out Hes Hout; simpl; [assumption |].
  apply Forall_cons in Hes as [He Hes'].
  specialize (λ out, IH out Hes').
  destruct (String.eqb_spec e "") as [-> | H1]; [simpl; auto |].
  destruct (String.eqb_spec e ".") as [-> | H2]; [simpl; auto |]. simpl.
  destruct (String.eqb_spec e "..") as [-> | H3].
  - destruct out as [| top out].
    + destruct root; apply IH; simpl; auto.
    + destruct (String.eqb_spec top "..") as [-> | Ht].
      * apply IH. simpl in *. rewrite <- List.app_assoc. apply normal_dots, Hout.
      * apply IH. simpl in Hout. eapply normal_prefix, Hout.
  - apply IH. simpl. apply normal_snoc; [assumption |]. repeat split; assumption.
Qed.

Lemma elements_normal (p : string) : normal (negb (rooted p)) (elements p).
Proof. apply clean_elems_is_normal; [apply Split_elems | exact I]. Qed.

Lemma Clean_render (p : string) : Clean p = render (rooted p) (elements p).
Proof.
  unfold Clean, render, elements.
  destruct (String.eqb_spec p "") as [-> | Hp]; reflexivity.
Qed.

Lemma normal_elems (d : bool) (es : list string) :
  normal d es → Forall (λ e, e ≠ "" ∧ e ≠ "." ∧ Split slash e = [e]) es.
Proof.
  revert d. induction es as [| e es IH]; intros d; simpl; [constructor |].
  intros [(-> & _ & H) | [(H1 & H2 & _ & H4) H]]; constructor; eauto.
Qed.

Lemma normal_no_slash (d : bool) (es : list string) :
  normal d es → Forall (λ e, Split slash e = [e]) es.
Proof.
  intros H. eapply Forall_impl; [exact (normal_elems _ _ H) |].
  simpl. tauto.
Qed.

Lemma append_empty_r (s : string) : s +:+ "" = s.
Proof.
  induction s as [| a s IH]; [reflexivity |].
  change (String a (s +:+ "") = String a s). congruence.
Qed.

Lemma rooted_Join_with (es : list string) (e : string) :
  e ≠ "" → Split slash e = [e] → rooted (Join_with "/" (e :: es)) = false.
Proof.
  intros He Hs. destruct es as [| e' es].
  - simpl. rewrite <- (no_slash_not_rooted e "" Hs He), append_empty_r. reflexivity.
  - rewrite Join_with_cons by discriminate. apply no_slash_not_rooted; assumption.
Qed.

(** The loop on the elements of a path written from elements. *)
Lemma clean_elems_Split_Join (root : bool) (out es : list string) :
  Forall (λ e, Split slash e = [e]) es →
  clean_elems root out (Split slash (Join_with "/" es)) = clean_elems root out es.
Proof.
  intros Hes. destruct es as [| e es]; [reflexivity |].
  rewrite Split_Join by (discriminate || assumption). reflexivity.
Qed.

Lemma Split_rooted (s : string) :
  Split slash (String slash s) = "" :: Split slash s.
Proof. reflexivity. Qed.

Lemma elements_render (root : bool) (es : list string) :
  normal (negb root) es →
  rooted (render root es) = root ∧ elements (render root es) = es.
Proof.
  intros HN. pose proof (normal_no_slash _ _ HN) as Hs.
  destruct root; unfold elements, render.
  - change ("/" +:+ Join_with "/" es) with (String slash (Join_with "/" es)).
    split; [reflexivity |]. simpl rooted. rewrite Split_rooted.
    rewrite clean_elems_skip by auto.
    rewrite clean_elems_Split_Join by assumption.
    apply (clean_elems_normal true false []); simpl; [assumption | discriminate].
  - destruct es as [| e es]; [split; reflexivity |].
    pose proof (normal_elems _ _ HN) as He.
    apply Forall_cons in He as [(He1 & _ & He2) _].
    rewrite rooted_Join_with by assumption. split; [reflexivity |].
    rewrite clean_elems_Split_Join by assumption.
    apply (clean_elems_normal false true []); simpl; [assumption | reflexivity].
Qed.

(** [Clean] leaves a clean path as it is. *)
Lemma Clean_idem (p : string) : Clean (Clean p) = Clean p.
Proof.
  rewrite (Clean_render p).
  destruct (elements_render _ _ (elements_normal p)) as [Hr He].
  rewrite Clean_render, Hr, He. reflexivity.
Qed.

Lemma rooted_app (p q : string) : p ≠ "" → rooted (p +:+ q) = rooted p.
Proof. destruct p; [contradiction | reflexivity]. Qed.

Lemma elements_slash_app (p q : string) :
  p ≠ "" →
  rooted (p +:+ "/" +:+ q) = rooted p
  ∧ elements (p +:+ "/" +:+ q)
    = clean_elems (rooted p) (rev (elements p)) (Split slash q).
Proof.
  intros Hp. split; [apply rooted_app, Hp |].
  unfold elements. rewrite rooted_app by assumption.
  change (p +:+ "/" +:+ q) with (p +:+ String slash q).
  rewrite Split_app, clean_elems_app. reflexivity.
Qed.

Lemma Join_two (p q : string) : p ≠ "" → Join [p; q] = Clean (p +:+ "/" +:+ q).
Proof.
  intros Hp. unfold Join. apply String.eqb_neq in Hp. rewrite Hp. reflexivity.
Qed.

Lemma strip_common_spec (b t b' t' : list string) :
  strip_common b t = (b', t') → ∃ c, b = c ++ b' ∧ t = c ++ t'.
Proof.
  revert t. induction b as [| x b IH]; intros t; simpl.
  - intros [= <- <-]. exists []. auto.
  - destruct t as [| y t]; [intros [= <- <-]; exists []; auto |].
    destruct (String.eqb_spec x y) as [-> | Hxy].
    + intros H. destruct (IH _ H) as (c & -> & ->). exists (y :: c). auto.
    + intros [= <- <-]. exists []. auto.
Qed.

(** [..] as many times as there are elements pops them all. *)
Lemma clean_elems_pops (root : bool) (ps out es : list string) :
  Forall proper ps →
  clean_elems root (ps ++ out) (replicate (length ps) ".." ++ es)
  = clean_elems root out es.
Proof.
  induction ps as [| p ps IH]; intros Hps; [reflexivity |].
  apply Forall_cons in Hps as [(_ & _ & Hp & _) Hps]. simpl.
  apply String.eqb_neq in Hp. rewrite Hp. apply IH, Hps.
Qed.

Lemma normal_tail_proper (d : bool) (C : list string) (x : string) (B : list string) :
  normal d (C ++ x :: B) → x ≠ ".." → Forall proper (x :: B).
Proof.
  intros HN Hx. apply normal_suffix in HN. simpl in HN.
  destruct HN as [(-> & _) | [Hp HB]]; [contradiction |].
  constructor; [assumption | apply normal_false_proper, HB].
Qed.

Lemma filter_nonempty (es : list string) :
  Forall (λ e, e ≠ "") es → filter (λ e, e ≠ "") es = es.
Proof.
  induction 1 as [| e es He Hes IH]; [reflexivity |].
  rewrite filter_cons_True by assumption. congruence.
Qed.

Lemma normal_nonempty (d : bool) (es : list string) :
  normal d es → Forall (λ e, e ≠ "") es.
Proof.
  intros H. eapply Forall_impl; [exact (normal_elems _ _ H) |]. simpl. tauto.
Qed.

(** The elements [Rel] walks over, on a clean path. *)
Lemma elems_of_render (root : bool) (es : list string) :
  normal (negb root) es →
  elems_of (render root es)
  = if root then es else match es with [] => ["."] | _ => es end.
Proof.
  intros HN. pose proof (normal_no_slash _ _ HN) as Hs.
  pose proof (normal_nonempty _ _ HN) as Hne.
  unfold elems_of, render. destruct root.
  - change ("/" +:+ Join_with "/" es) with (String slash (Join_with "/" es)).
    rewrite Split_rooted, filter_cons_False by (intros H; apply H; reflexivity).
    destruct es as [| e es]; [reflexivity |].
    rewrite Split_Join by (discriminate || assumption).
    apply filter_nonempty, Hne.
  - destruct es as [| e es]; [reflexivity |].
    rewrite Split_Join by (discriminate || assumption).
    apply filter_nonempty, Hne.
Qed.

Lemma render_not_dot (es : list string) (e : string) :
  normal true (e :: es) → render false (e :: es) ≠ ".".
Proof.
  intros HN E. pose proof (normal_no_slash _ _ HN) as Hs.
  pose proof (normal_elems _ _ HN) as He.
  apply Forall_cons in He as [(_ & He & _) _].
  assert (H : Split slash (render false (e :: es)) = ["."]) by (rewrite E; reflexivity).
  unfold render in H. rewrite Split_Join in H by (discriminate || assumption).
  congruence.
Qed.

(** The base of [Rel] once [.] has been replaced by the empty path. *)
Lemma Rel_base (root : bool) (es : list string) :
  normal (negb root) es →
  let base := render root es in
  let base' := if String.eqb base "." then "" else base in
  rooted base' = root ∧ elems_of base' = es.
Proof.
  intros HN. destruct (elements_render _ _ HN) as [Hr _].
  pose proof (elems_of_render _ _ HN) as He. simpl.
  destruct root.
  - change (render true es) with (String slash (Join_with "/" es)) in *.
    simpl String.eqb. destruct (Join_with "/" es); split; assumption || reflexivity.
  - destruct es as [| e es]; [split; reflexivity |].
    destruct (String.eqb_spec (render false (e :: es)) ".") as [E | _].
    + exfalso. exact (render_not_dot _ _ HN E).
    + split; assumption.
Qed.

Lemma fmap_const_replicate {A B : Type} (b : B) (l : list A) :
  (λ _, b) <$> l = replicate (length l) b.
Proof.
  induction l as [| a l IH]; [reflexivity |]. rewrite fmap_cons, IH. reflexivity.
Qed.

(** The heart of [Rel]: from the base, up over what the base has of its
    own and down what the target has of its own, is the target. *)
Lemma Rel_core (root : bool) (C B' T'' T : list string) :
  normal (negb root) (C ++ B') → normal (negb root) T →
  (C ++ T'' = T ∨ (root = false ∧ T = [] ∧ C ++ T'' = ["."])) →
  render root T ≠ render root (C ++ B') →
  match B' with x :: _ => x ≠ ".." | [] => True end →
  clean_elems root (rev (C ++ B')) (replicate (length B') ".." ++ T'') = T.
Proof.
  intros HB HT HT' Hne Hx.
  assert (Hd : negb root = true → root = false) by (destruct root; auto).
  assert (Hpops : ∀ es, clean_elems root (rev (C ++ B')) (replicate (length B') ".." ++ es)
                        = clean_elems root (rev C) es).
  { intros es. destruct B' as [| x B'']; [rewrite app_nil_r; reflexivity |].
    rewrite rev_app_distr, <- (length_rev (x :: B'')).
    apply clean_elems_pops, Forall_rev.
    - eapply normal_tail_proper; eassumption. }
  rewrite Hpops.
  destruct HT' as [<- | (-> & -> & HT')].
  - eapply clean_elems_normal; eassumption.
  - destruct C as [| c C].
    + simpl in HT'. subst T''. simpl in *. 
      destruct B' as [| x B'']; [contradiction | reflexivity].
    + exfalso. injection HT' as -> HT'.
      pose proof (normal_elems _ _ HB) as He.
      apply Forall_cons in He as [(_ & He & _) _]. contradiction.
Qed.

(** [Join(basepath, Rel(basepath, targpath))] is [targpath], cleaned. *)
Lemma Rel_Join (basepath targpath r : string) :
  Rel basepath targpath = Some r → Join [basepath; r] = Clean targpath.
Proof.
  unfold Rel. rewrite (Clean_render basepath), (Clean_render targpath).
  pose proof (elements_normal basepath) as HB.
  pose proof (elements_normal targpath) as HT.
  set (B := elements basepath) in *. set (T := elements targpath) in *.
  set (rb := rooted basepath) in *. set (rt := rooted targpath) in *.
  destruct (String.eqb_spec (render rt T) (render rb B)) as [E | NE].
  { intros [= <-]. rewrite E.
    destruct (String.eqb_spec basepath "") as [-> | Hb]; [reflexivity |].
    rewrite Join_two, Clean_render by assumption.
    destruct (elements_slash_app basepath "." Hb) as [-> ->].
    fold rb B. simpl. rewrite rev_involutive. reflexivity. }
  destruct (Rel_base _ _ HB) as [Hrb HeB]. simpl in Hrb, HeB. rewrite Hrb, HeB.
  destruct (elements_render _ _ HT) as [Hrt _]. rewrite Hrt.
  pose proof (elems_of_render _ _ HT) as HeT. rewrite HeT.
  destruct (Bool.eqb_spec rb rt) as [Hr | Hr]; [| discriminate]. simpl negb. cbv iota.
  set (T' := if rt then T else match T with [] => ["."] | _ => T end) in *.
  assert (HT' : T' = T ∨ (rt = false ∧ T = [] ∧ T' = ["."])).
  { subst T'. destruct rt; [auto |]. destruct T; auto. }
  destruct (strip_common B T') as [b t] eqn:Hs.
  destruct (strip_common_spec _ _ _ _ Hs) as (C & HBC & HTC).
  assert (Hcore : match b with x :: _ => x ≠ ".." | [] => True end →
                  ∀ out, out = rev B →
                  clean_elems rt out (Split slash
                    (Join_with "/" (replicate (length b) ".." ++ t))) = T).
  { intros Hx out ->. rewrite clean_elems_Split_Join.
    - assert (HB' : normal (negb rt) B) by (rewrite <- Hr; exact HB).
      assert (NE' : render rt T ≠ render rt B) by (rewrite <- Hr at 2; exact NE).
      rewrite HBC. apply Rel_core; rewrite <- ?HBC, <- ?HTC; assumption.
    - apply Forall_app. split; [apply Forall_replicate; reflexivity |].
      assert (Hs' : Forall (λ e, Split slash e = [e]) T').
      { destruct HT' as [-> | (_ & _ & ->)]; [eapply normal_no_slash, HT |].
        repeat constructor. }
      rewrite HTC in Hs'. apply Forall_app in Hs'. tauto. }
  assert (Hfin : ∀ es, match b with x :: _ => x ≠ ".." | [] => True end →
                 es = replicate (length b) ".." ++ t →
                 Join [basepath; Join_with "/" es] = render rt T).
  { intros es Hx ->.
    destruct (String.eqb_spec basepath "") as [Eb | Hb].
    - assert (HB0 : B = []) by (subst B; rewrite Eb; reflexivity).
      assert (Hrb0 : rt = false) by (rewrite <- Hr; subst rb; rewrite Eb; reflexivity).
      rewrite HB0 in HBC. symmetry in HBC. apply app_eq_nil in HBC as [-> ->].
      simpl in HTC. subst t. simpl replicate. simpl app.
      assert (Hne : ∃ e rest, T' = e :: rest ∧ e ≠ "" ∧ Split slash e = [e]).
      { destruct HT' as [E | (_ & _ & ->)].
        - rewrite E. subst T'. rewrite Hrb0 in E. destruct T as [| e rest].
          + discriminate.
          + pose proof (normal_elems _ _ HT) as He.
            apply Forall_cons in He as [(He1 & _ & He2) _]. eauto.
        - exists ".", []. repeat split. discriminate. }
      destruct Hne as (e & rest & HT'e & He1 & He2).
      rewrite Eb. unfold Join.
      simpl String.eqb at 1. cbv iota.
      assert (Hnr : rooted (Join_with "/" T') = false).
      { rewrite HT'e. apply rooted_Join_with; assumption. }
      assert (Hnz : Join_with "/" T' ≠ "").
      { rewrite HT'e. destruct e as [| c e]; [contradiction |].
        destruct rest; simpl; discriminate. }
      apply String.eqb_neq in Hnz. rewrite Hnz.
      change (Join_with "/" [Join_with "/" T']) with (Join_with "/" T').
      rewrite Clean_render. unfold elements. rewrite Hnr.
      assert (Hnil : [] = rev B) by (rewrite HB0; reflexivity).
      pose proof (Hcore Hx [] Hnil) as Hc. rewrite Hrb0 in Hc |- *.
      f_equal. exact Hc.
    - rewrite Join_two, Clean_render by assumption.
      destruct (elements_slash_app basepath
                  (Join_with "/" (replicate (length b) ".." ++ t)) Hb) as [-> ->].
      fold rb B. rewrite Hr. f_equal. apply Hcore; auto. }
  destruct b as [| x b].
  - intros [= <-]. apply (Hfin t I). reflexivity.
  - destruct (String.eqb_spec x "..") as [-> | Hx]; [discriminate |].
    intros Hsome.
    assert (Hr' : r = Join_with "/" (((λ _, "..") <$> (x :: b)) ++ t)) by congruence.
    rewrite Hr', (fmap_const_replicate ".." (x :: b)).
    apply (Hfin _ Hx). reflexivity.
Qed.

Lemma string_app_assoc (a b c : string) : (a +:+ b) +:+ c = a +:+ (b +:+ c).
Proof.
  induction a as [| x a IH]; [reflexivity |].
  change (String x ((a +:+ b) +:+ c) = String x (a +:+ (b +:+ c))). congruence.
Qed.

Lemma Split_single (c : ascii) (a : string) :
  Split slash (String c a) = [String c a] →
  Ascii.eqb c slash = false ∧ Split slash a = [a].
Proof.
  simpl. pose proof (Split_nonempty slash a).
  destruct (Ascii.eqb c slash).
  - destruct (Split slash a); [contradiction | discriminate].
  - destruct (Split slash a) as [| w ws]; [contradiction |].
    intros [= -> ->]. auto.
Qed.

(** Two strings without a separator make one. *)
Lemma Split_single_app (a b : string) :
  Split slash a = [a] → Split slash b = [b] → Split slash (a +:+ b) = [a +:+ b].
Proof.
  induction a as [| c a IH]; intros Ha Hb; [exact Hb |].
  apply Split_single in Ha as [Hc Ha].
  change (String c a +:+ b) with (String c (a +:+ b)).
  simpl. rewrite Hc, (IH Ha Hb). reflexivity.
Qed.

Lemma Split_single_Join_with (sep : string) (es : list string) :
  Split slash sep = [sep] → Forall (λ e, Split slash e = [e]) es →
  Split slash (Join_with sep es) = [Join_with sep es].
Proof.
  intros Hsep. induction 1 as [| e es He Hes IH]; [reflexivity |].
  destruct es as [| e' es]; [exact He |].
  rewrite Join_with_cons by discriminate.
  repeat apply Split_single_app; assumption.
Qed.

(** *** Directories *)

Lemma dir_part_no_slash (e : string) : Split slash e = [e] → dir_part e = "".
Proof.
  induction e as [| c e IH]; [reflexivity |]. intros He.
  apply Split_single in He as [Hc He]. simpl. rewrite (IH He), Hc. reflexivity.
Qed.

Lemma dir_part_app (a b : string) :
  dir_part (a +:+ String slash b) = a +:+ String slash (dir_part b).
Proof.
  induction a as [| c a IH].
  - change ("" +:+ String slash b) with (String slash b).
    change ("" +:+ String slash (dir_part b)) with (String slash (dir_part b)).
    simpl. destruct (String.eqb_spec (dir_part b) "") as [-> | _]; reflexivity.
  - change (String c a +:+ String slash b) with (String c (a +:+ String slash b)).
    simpl. rewrite IH.
    change (String c a +:+ String slash (dir_part b))
      with (String c (a +:+ String slash (dir_part b))).
    destruct (a +:+ String slash (dir_part b)) eqn:E; [| reflexivity].
    destruct a; discriminate.
Qed.

Lemma Join_with_snoc (sep : string) (es : list string) (e : string) :
  es ≠ [] → Join_with sep (es ++ [e]) = Join_with sep es +:+ sep +:+ e.
Proof.
  induction es as [| x es IH]; [contradiction |]. intros _.
  destruct es as [| y es]; [reflexivity |].
  change ((x :: y :: es) ++ [e]) with (x :: ((y :: es) ++ [e])).
  rewrite !Join_with_cons by (discriminate || (destruct es; discriminate)).
  rewrite IH by discriminate. rewrite !string_app_assoc. reflexivity.
Qed.

Lemma render_nonempty (root : bool) (es : list string) :
  normal (negb root) es → render root es ≠ "".
Proof.
  intros HN. destruct root; [discriminate |].
  destruct es as [| e es]; [discriminate |].
  pose proof (normal_elems _ _ HN) as He.
  apply Forall_cons in He as [(He & _) _].
  unfold render. destruct e; [contradiction |]. destruct es; discriminate.
Qed.

Lemma Clean_slash_end (root : bool) (es : list string) :
  normal (negb root) es → Clean (render root es +:+ "/") = render root es.
Proof.
  intros HN. destruct (elements_render _ _ HN) as [Hr He].
  rewrite Clean_render.
  destruct (elements_slash_app (render root es) "" (render_nonempty _ _ HN)) as [H1 H2].
  change (render root es +:+ "/" +:+ "") with (render root es +:+ "/") in H1, H2.
  rewrite H1, H2, Hr, He. simpl. rewrite rev_involutive. reflexivity.
Qed.

(** The directory of a clean path that ends with a proper element is the
    path without that element. *)
Lemma Dir_snoc (root : bool) (es : list string) (e : string) :
  normal (negb root) es → proper e →
  Dir (render root (es ++ [e])) = render root es.
Proof.
  intros HN (He1 & He2 & He3 & He4). unfold Dir.
  destruct es as [| x es].
  - destruct root.
    + change (render true ([] ++ [e])) with ("" +:+ String slash e).
      rewrite dir_part_app, (dir_part_no_slash _ He4). reflexivity.
    + change (render false ([] ++ [e])) with e.
      rewrite (dir_part_no_slash _ He4). reflexivity.
  - assert (Hr : render root ((x :: es) ++ [e])
                 = render root (x :: es) +:+ String slash e).
    { unfold render. destruct root.
      - rewrite Join_with_snoc by discriminate. rewrite string_app_assoc. reflexivity.
      - change ((x :: es) ++ [e]) with (x :: (es ++ [e])).
        destruct (es ++ [e]) eqn:E; [destruct es; discriminate |]. rewrite <- E.
        change (x :: (es ++ [e])) with ((x :: es) ++ [e]).
        rewrite Join_with_snoc by discriminate. reflexivity. }
    rewrite Hr, dir_part_app, (dir_part_no_slash _ He4).
    apply Clean_slash_end, HN.
Qed.

Lemma Clean_snoc (p e : string) :
  p ≠ "" → proper e →
  Clean (p +:+ "/" +:+ e) = render (rooted p) (elements p ++ [e]).
Proof.
  intros Hp He. rewrite Clean_render.
  destruct (elements_slash_app p e Hp) as [-> ->].
  destruct He as (He1 & He2 & He3 & He4). rewrite He4.
  rewrite clean_elems_push by assumption. simpl.
  rewrite rev_involutive. reflexivity.
Qed.

Lemma Dir_Clean_snoc (p e : string) :
  p ≠ "" → proper e → Dir (Clean (p +:+ "/" +:+ e)) = Clean p.
Proof.
  intros Hp He. rewrite Clean_snoc by assumption.
  rewrite Dir_snoc by (apply elements_normal || assumption).
  symmetry. apply Clean_render.
Qed.

(** What [Join] returns is clean. *)
Lemma Join_clean (es : list string) : Join es = "" ∨ Clean (Join es) = Join es.
Proof.
  induction es as [| e es IH]; [left; reflexivity |].
  unfold Join; fold Join. destruct (String.eqb e ""); [exact IH |].
  right. apply Clean_idem.
Qed.

Lemma Join_nonempty (es : list string) : Join es ≠ "" → Clean (Join es) = Join es.
Proof. destruct (Join_clean es); [contradiction | auto]. Qed.

Lemma Clean_nonempty (p : string) : Clean p ≠ "".
Proof. rewrite Clean_render. apply render_nonempty, elements_normal. Qed.

(** ** The folder of a repository *)

Lemma repoFolderName_unfold (repoID repoType : string) :
  repoFolderName repoID repoType
  = repoType +:+ "s" +:+ "--" +:+ Join_with "--" (Split slash repoID).
Proof.
  unfold repoFolderName. simpl app.
  pose proof (Split_nonempty slash repoID).
  rewrite Join_with_cons by assumption. rewrite string_app_assoc. reflexivity.
Qed.

Lemma repoFolderName_proper (repoID : string) :
  proper (repoFolderName repoID "model").
Proof.
  rewrite repoFolderName_unfold.
  change ("model" +:+ "s" +:+ "--" +:+ Join_with "--" (Split slash repoID))
    with (String "m" ("odels--" +:+ Join_with "--" (Split slash repoID))).
  repeat split; try discriminate.
  change (String "m" ("odels--" +:+ Join_with "--" (Split slash repoID)))
    with ("models--" +:+ Join_with "--" (Split slash repoID)).
  apply Split_single_app; [reflexivity |].
  apply Split_single_Join_with; [reflexivity | apply Split_elems].
Qed.

Lemma Join_with_nonempty (sep x : string) (es : list string) :
  x ≠ "" → Join_with sep (x :: es) ≠ "".
Proof.
  intros Hx. destruct x as [| c x]; [contradiction |]. destruct es; discriminate.
Qed.

Lemma Dir_Join_snoc (es : list string) (e : string) :
  proper e → Exists (λ x, x ≠ "") es → Dir (Join (es ++ [e])) = Join es.
Proof.
  intros He. induction es as [| x es IH]; intros Hex; [inversion Hex |].
  change ((x :: es) ++ [e]) with (x :: (es ++ [e])).
  unfold Join; fold Join.
  destruct (String.eqb_spec x "") as [-> | Hx].
  - apply IH. inversion Hex; subst; [contradiction | assumption].
  - change (x :: (es ++ [e])) with ((x :: es) ++ [e]).
    rewrite Join_with_snoc by discriminate.
    apply Dir_Clean_snoc; [apply Join_with_nonempty |]; assumption.
Qed.

(** X4.  Whatever the repository identifier, the folder of the repository
    in the default cache is a child of the hub directory
    [<home>/.cache/huggingface/hub]: the identifier contributes one path
    element, its slashes replaced, and cannot lead elsewhere. *)
Theorem repo_folder_under_hub (homeDir modelRepo : string) :
  Path.Dir (Path.Join [homeDir; ".cache"; "huggingface"; "hub";
                       repoFolderName modelRepo "model"])
  = Path.Join [homeDir; ".cache"; "huggingface"; "hub"].
Proof.
  apply (Dir_Join_snoc [homeDir; ".cache"; "huggingface"; "hub"]).
  - apply repoFolderName_proper.
  - apply Exists_cons_tl, Exists_cons_hd. discriminate.
Qed.

(** X5.  Two identifiers can have one folder: for [a] and [b] without a
    slash, the folder of [a/b] is that of [a--b]. *)
Theorem repoFolderName_collision (a b repoType : string) :
  Path.Split Path.slash a = [a] → Path.Split Path.slash b = [b] →
  repoFolderName (a +:+ "/" +:+ b) repoType
  = repoFolderName (a +:+ "--" +:+ b) repoType.
Proof.
  intros Ha Hb. rewrite !repoFolderName_unfold. do 3 f_equal.
  change (a +:+ "/" +:+ b) with (a +:+ String slash b).
  rewrite Split_app, Ha, Hb.
  rewrite (Split_single_app a ("--" +:+ b)); [reflexivity | assumption |].
  apply (Split_single_app "--" b); [reflexivity | assumption].
Qed.

Lemma repoFolderName_collision_witness :
  Path.Split Path.slash "org" = ["org"] ∧ Path.Split Path.slash "tiny" = ["tiny"]
  ∧ repoFolderName ("org" +:+ "/" +:+ "tiny") "model"
    = repoFolderName ("org" +:+ "--" +:+ "tiny") "model".
Proof.
  split; [reflexivity |]. split; [reflexivity |].
  apply repoFolderName_collision; reflexivity.
Defined.

(** X7.  The target that [downloadFile] gives the symbolic link, read from
    the directory of the pointer, is the path of the blob. *)
Theorem link_target_resolves (storageFolder snapshotDir filename blobId relPath : string) :
  let blobPath := Path.Join [storageFolder; "blobs"; blobId] in
  let pointerPath := Path.Join [snapshotDir; Path.to_native filename] in
  Path.Rel (Path.Dir pointerPath) blobPath = Some relPath →
  Path.Join [Path.Dir pointerPath; relPath] = blobPath.
Proof.
  intros blobPath pointerPath HR. rewrite (Rel_Join _ _ _ HR).
  apply Join_nonempty. subst blobPath. unfold Join; fold Join.
  destruct (String.eqb storageFolder ""); [| apply Clean_nonempty].
  simpl String.eqb. cbv iota. apply Clean_nonempty.
Qed.

Lemma link_target_resolves_witness :
  let blobPath := Path.Join ["/models"; "blobs"; "abc123"] in
  let pointerPath := Path.Join ["/models/snapshots/c0ffee";
                                Path.to_native "onnx/model.onnx"] in
  Path.Rel (Path.Dir pointerPath) blobPath = Some "../../../blobs/abc123"
  ∧ Path.Join [Path.Dir pointerPath; "../../../blobs/abc123"] = blobPath.
Proof.
  intros blobPath pointerPath. split; [reflexivity |].
  apply (link_target_resolves "/models" "/models/snapshots/c0ffee"
           "onnx/model.onnx" "abc123").
  reflexivity.
Defined.

Lemma clean_elems_no_dotdot (root : bool) (out es : list string) :
  Forall (λ e, e ≠ "..") es →
  clean_elems root out es = rev out ++ filter (λ e, e ≠ "" ∧ e ≠ ".") es.
Proof.
  revert out. induction es as [| e es IH]; intros out Hes.
  - simpl. rewrite app_nil_r. reflexivity.
  - apply Forall_cons in Hes as [He Hes].
    destruct (decide (e = "" ∨ e = ".")) as [Hskip | Hkeep].
    + rewrite clean_elems_skip by assumption.
      rewrite filter_cons_False by tauto. apply IH, Hes.
    + rewrite clean_elems_push by tauto.
      rewrite filter_cons_True by tauto.
      rewrite IH by assumption. simpl. rewrite <- List.app_assoc. reflexivity.
Qed.

(** X6.  A file name without [..] among its elements has its pointer inside
    the snapshot directory: the elements of the pointer path are those of
    the snapshot directory followed by the elements of the name. *)
Theorem pointer_inside_snapshot (snapshotDir filename : string) :
  snapshotDir ≠ "" →
  Forall (λ e, e ≠ "..") (Path.Split Path.slash filename) →
  Lexical.elements (Path.Join [snapshotDir; Path.to_native filename])
  = Lexical.elements snapshotDir
      ++ filter (λ e, e ≠ "" ∧ e ≠ ".") (Path.Split Path.slash filename).
Proof.
  intros Hs Hf. rewrite to_native_id, Join_two by assumption.
  destruct (elements_slash_app snapshotDir filename Hs) as [Hr He].
  rewrite Clean_render, Hr, He.
  rewrite clean_elems_no_dotdot, rev_involutive by assumption.
  refine (proj2 (elements_render (rooted snapshotDir) _ _)).
  rewrite <- (rev_involutive (elements snapshotDir)) at 1.
  rewrite <- (clean_elems_no_dotdot (rooted snapshotDir)) by assumption.
  apply clean_elems_is_normal; [apply Split_elems |].
  rewrite rev_involutive. apply elements_normal.
Qed.

Lemma pointer_inside_snapshot_witness :
  "/models/snapshots/c0ffee" ≠ ""
  ∧ Forall (λ e, e ≠ "..") (Path.Split Path.slash "onnx/./model.onnx")
  ∧ Lexical.elements (Path.Join ["/models/snapshots/c0ffee";
                                 Path.to_native "onnx/./model.onnx"])
    = Lexical.elements "/models/snapshots/c0ffee"
        ++ filter (λ e, e ≠ "" ∧ e ≠ ".") (Path.Split Path.slash "onnx/./model.onnx").
Proof.
  assert (H1 : "/models/snapshots/c0ffee" ≠ "") by discriminate.
  assert (H2 : Forall (λ e, e ≠ "..") (Path.Split Path.slash "onnx/./model.onnx"))
    by (repeat constructor; discriminate).
  split; [exact H1 |]. split; [exact H2 |].
  apply pointer_inside_snapshot; assumption.
Defined.

End Paths.

(** ** Entity tags *)

Lemma rev_string_snoc (acc s : string) (a : ascii) :
  rev_string acc (s +:+ String a "") = String a (rev_string acc s).
Proof.
  revert acc. induction s as [| b s IH]; intros acc; [reflexivity |].
  change (String b s +:+ String a "") with (String b (s +:+ String a "")).
  simpl. apply IH.
Qed.

Lemma trim_left_snoc (c : ascii) (s : string) :
  trim_left c (s +:+ String c "")
  = if String.eqb (trim_left c s) "" then "" else trim_left c s +:+ String c "".
Proof.
  induction s as [| a s IH].
  - simpl. change ("" +:+ String c "") with (String c ""). simpl.
    rewrite Ascii.eqb_refl. reflexivity.
  - change (String a s +:+ String c "") with (String a (s +:+ String c "")).
    simpl. destruct (Ascii.eqb a c); [exact IH | reflexivity].
Qed.

(** Quotes around a string do not change what [Trim] leaves of it. *)
Lemma Trim_wrapped (c : ascii) (s : string) :
  Trim c (String c (s +:+ String c "")) = Trim c s.
Proof.
  unfold Trim. simpl trim_left at 2. rewrite Ascii.eqb_refl, trim_left_snoc.
  destruct (String.eqb_spec (trim_left c s) "") as [-> | _]; [reflexivity |].
  rewrite rev_string_snoc. simpl. rewrite Ascii.eqb_refl. reflexivity.
Qed.

Lemma TrimPrefix_added (pre s : string) : TrimPrefix (pre +:+ s) pre = s.
Proof.
  unfold TrimPrefix.
  assert (H : String.prefix pre (pre +:+ s) = true
              ∧ drop_chars (String.length pre) (pre +:+ s) = s).
  { induction pre as [| a pre [IH1 IH2]]; [destruct s; split; reflexivity |].
    change (String a pre +:+ s) with (String a (pre +:+ s)). simpl.
    destruct (Ascii.ascii_dec a a); [| congruence]. split; assumption. }
  destruct H as [-> ->]. reflexivity.
Qed.

(** X2.  A weak validator is normalised as the strong one it marks. *)
Theorem normalizeETag_weak (etag : string) :
  String.prefix "W/" etag = false →
  normalizeETag ("W/" +:+ etag) = normalizeETag etag.
Proof.
  intros Hp. unfold normalizeETag at 1.
  change (String.eqb ("W/" +:+ etag) "") with false. cbv iota.
  rewrite TrimPrefix_added. unfold normalizeETag.
  destruct (String.eqb_spec etag "") as [-> | _]; [reflexivity |].
  unfold TrimPrefix. rewrite Hp. reflexivity.
Qed.

Lemma normalizeETag_weak_witness :
  let etag := String dquote ("abc123" +:+ String dquote "") in
  String.prefix "W/" etag = false
  ∧ normalizeETag ("W/" +:+ etag) = normalizeETag etag.
Proof.
  intros etag. split; [reflexivity |]. apply normalizeETag_weak. reflexivity.
Defined.

(** X3.  An entity tag in quotes is normalised to what stands between the
    quotes, when that has no quote at either end. *)
Theorem normalizeETag_quoted (tag : string) :
  Trim dquote tag = tag →
  normalizeETag (String dquote (tag +:+ String dquote "")) = tag.
Proof.
  intros Ht. unfold normalizeETag. simpl String.eqb. cbv iota.
  unfold TrimPrefix. simpl String.prefix. cbv iota.
  rewrite Trim_wrapped. exact Ht.
Qed.

Lemma normalizeETag_quoted_witness :
  Trim dquote "abc123" = "abc123"
  ∧ normalizeETag (String dquote ("abc123" +:+ String dquote "")) = "abc123".
Proof. split; [reflexivity |]. apply normalizeETag_quoted. reflexivity. Defined.

(** ** The redirect policy *)

Lemma copy_missing_union (entries : list (string * list string))
    (header : gmap string (list string)) :
  copy_missing entries header = header ∪ list_to_map entries.
Proof.
  revert header. induction entries as [| [k v] entries IH]; intros header.
  - simpl. rewrite (right_id ∅ (∪)). reflexivity.
  - simpl. rewrite IH. destruct (header !! k) as [x |] eqn:E.
    + apply map_eq. intros i. rewrite !lookup_union.
      destruct (decide (i = k)) as [-> | Hi].
      * rewrite E, lookup_insert_eq. destruct (list_to_map entries !! k); reflexivity.
      * rewrite lookup_insert_ne by congruence. reflexivity.
    + rewrite <- insert_union_l. apply insert_union_r. assumption.
Qed.

(** X8.  With fewer than ten requests behind it, a redirected request is let
    through with its header completed from the header of the first request
    of the chain: the keys it has keep their values, the keys it lacks get
    those of the first request, in whatever order the loop visits them.
    The header with which the first request was sent, the bearer token
    included, thus reaches every host the chain leads to. *)
Theorem CheckRedirect_completes_header
    (range : gmap string (list string) → list (string * list string))
    (reqHeader first : gmap string (list string))
    (rest : list (gmap string (list string))) :
  (∀ m, range m ≡ₚ map_to_list m) →
  (length (first :: rest) < 10)%nat →
  CheckRedirect range reqHeader (first :: rest) = (reqHeader ∪ first, None).
Proof.
  intros Hrange Hlen. unfold CheckRedirect.
  destruct (Nat.leb_spec 10 (length (first :: rest))); [lia |].
  rewrite copy_missing_union. do 2 f_equal.
  rewrite <- (list_to_map_to_list first) at 2.
  apply list_to_map_proper; [| apply Hrange].
  rewrite (Hrange first). apply NoDup_fst_map_to_list.
Qed.

Lemma CheckRedirect_completes_header_witness :
  let first : gmap string (list string) := {[ "Authorization" := ["Bearer t0ken"] ]} in
  let reqHeader : gmap string (list string) := {[ "Referer" := ["https://huggingface.co/"] ]} in
  (∀ m : gmap string (list string), map_to_list m ≡ₚ map_to_list m)
  ∧ (length [first] < 10)%nat
  ∧ CheckRedirect map_to_list reqHeader [first] = (reqHeader ∪ first, None).
Proof.
  intros first reqHeader.
  split; [reflexivity |]. split; [simpl; lia |].
  apply CheckRedirect_completes_header; [reflexivity | simpl; lia].
Defined.

(** X9.  At the tenth redirect the policy stops the chain: the request is
    refused exactly when ten requests or more are behind it, and a request
    that is refused is left as it is. *)
Theorem CheckRedirect_limit
    (range : gmap string (list string) → list (string * list string))
    (reqHeader : gmap string (list string))
    (via : list (gmap string (list string))) :
  ((CheckRedirect range reqHeader via).2 ≠ None ↔ (10 ≤ length via)%nat)
  ∧ (CheckRedirect range reqHeader via).2
    = (if (10 <=? length via)%nat then Some (OSErr "too many redirects") else None)
  ∧ ((CheckRedirect range reqHeader via).2 ≠ None →
     (CheckRedirect range reqHeader via).1 = reqHeader).
Proof.
  unfold CheckRedirect.
  destruct (Nat.leb_spec 10 (length via)).
  - simpl. repeat split; auto; discriminate.
  - assert (E : (match via with
                 | [] => (reqHeader, None)
                 | first :: _ => (copy_missing (range first) reqHeader, None)
                 end).2 = @None error) by (destruct via; reflexivity).
    rewrite E. repeat split; try (intros Hn; exfalso; apply Hn; reflexivity).
    lia.
Qed.

(** * Every run of the program

    Properties of [downloadFile], of [Download] and of the command that
    hold in every environment: they are proved of the programs, for every
    answer to every call. *)

Lemma every_run_weaken {R : Type} (p : prog R) (Q Q' : R → list event → Prop) :
  (∀ r tr, Q r tr → Q' r tr) → every_run p Q → every_run p Q'.
Proof.
  revert Q Q'. induction p as [r | X e k IH]; intros Q Q' HQ; simpl; [apply HQ |].
  intros Hk x. eapply IH; [| apply Hk]. intros r tr. apply HQ.
Qed.

Lemma every_run_bind {A B : Type} (p : prog A) (f : A → prog B)
    (Q : B → list event → Prop) :
  every_run p (λ a tr1, every_run (f a) (λ b tr2, Q b (tr1 ++ tr2))) →
  every_run (bind p f) Q.
Proof.
  revert Q. induction p as [a | X e k IH]; intros Q; simpl; [tauto |].
  intros Hk x. apply IH. eapply every_run_weaken; [| apply Hk]. 
  intros a tr1. simpl. apply every_run_weaken. intros b tr2. tauto.
Qed.

Lemma every_run_mbind {A B : Type} (p : prog A) (f : A → prog B)
    (Q : B → list event → Prop) :
  every_run p (λ a tr1, every_run (f a) (λ b tr2, Q b (tr1 ++ tr2))) →
  every_run (p ≫= f) Q.
Proof. apply every_run_bind. Qed.

Lemma every_run_and {R : Type} (p : prog R) (Q1 Q2 : R → list event → Prop) :
  every_run p Q1 → every_run p Q2 → every_run p (λ r tr, Q1 r tr ∧ Q2 r tr).
Proof.
  revert Q1 Q2. induction p as [r | X e k IH]; intros Q1 Q2; simpl; [tauto |].
  intros H1 H2 x. apply (IH x (λ r tr, Q1 r (Call e x :: tr)) (λ r tr, Q2 r (Call e x :: tr)));
    auto.
Qed.

(** What holds of every run holds of the run in any environment. *)
Lemma exec_every_run {S R : Type} (h : handler S) (p : prog R)
    (Q : R → list event → Prop) (s : S) :
  every_run p Q → Q (exec h p s).1.1 (exec h p s).1.2.
Proof.
  revert Q s. induction p as [r | X e k IH]; intros Q s; simpl; [tauto |].
  intros Hk. destruct (h X e s) as [x s1]. specialize (IH x _ s1 (Hk x)).
  destruct (exec h (k x) s1) as [[r tr] s2]. exact IH.
Qed.

(** A program that makes only calls in [P] has only such calls in its
    traces. *)
Lemma makes_only_every_run {R : Type} (P : ∀ X, osE X → Prop) (p : prog R) :
  makes_only P p → every_run p (λ _ tr, Forall (λ ev, P _ (ev_call ev)) tr).
Proof.
  induction p as [r | X e k IH]; simpl; [constructor |].
  intros [He Hk] x. eapply every_run_weaken; [| apply IH, Hk].
  intros r tr Htr. constructor; assumption.
Qed.

Lemma returns_only_every_run {R : Type} (Q : R → Prop) (p : prog R) :
  returns_only Q p → every_run p (λ r _, Q r).
Proof.
  induction p as [r | X e k IH]; simpl; [tauto |].
  intros Hk x. apply IH, Hk.
Qed.

(** ** Open files *)

Lemma opens_app (tr1 tr2 : list event) : opens (tr1 ++ tr2) = opens tr1 ++ opens tr2.
Proof. apply omap_app. Qed.

Lemma closes_app (tr1 tr2 : list event) : closes (tr1 ++ tr2) = closes tr1 ++ closes tr2.
Proof. apply omap_app. Qed.

Lemma handle_free_trace (tr : list event) :
  Forall (λ ev, handle_free (ev_call ev)) tr → opens tr = [] ∧ closes tr = [].
Proof.
  induction 1 as [| [X e a] tr He _ [IH1 IH2]]; [split; reflexivity |].
  destruct e; simpl in He; try contradiction; split; assumption.
Qed.

Section Handles.
Context `{GoLib}.

Lemma closes_bind {A B : Type} (p : prog A) (f : A → prog B) :
  closes_what_it_opens p → (∀ a, closes_what_it_opens (f a)) →
  closes_what_it_opens (bind p f).
Proof.
  intros Hp Hf. apply every_run_bind.
  eapply every_run_weaken; [| exact Hp]. intros a tr1 H1. simpl.
  eapply every_run_weaken; [| exact (Hf a)]. intros b tr2 H2. simpl.
  rewrite opens_app, closes_app, H1, H2. reflexivity.
Qed.

Lemma closes_mbind {A B : Type} (p : prog A) (f : A → prog B) :
  closes_what_it_opens p → (∀ a, closes_what_it_opens (f a)) →
  closes_what_it_opens (p ≫= f).
Proof. apply closes_bind. Qed.

Lemma closes_handle_free {R : Type} (p : prog R) :
  makes_only (@handle_free) p → closes_what_it_opens p.
Proof.
  intros Hp. eapply every_run_weaken; [| apply makes_only_every_run, Hp].
  intros r tr Htr. simpl in Htr.
  destruct (handle_free_trace tr Htr) as [Ho Hc]. rewrite Ho, Hc. reflexivity.
Qed.

Lemma closes_ret {R : Type} (r : R) : closes_what_it_opens (mret r).
Proof. unfold closes_what_it_opens. cbn. reflexivity. Qed.

Lemma closes_call {X : Type} (e : osE X) : handle_free e → closes_what_it_opens (call e).
Proof. intros He. apply closes_handle_free. simpl. auto. Qed.

Lemma copyFile_closes (src dst : string) : closes_what_it_opens (copyFile src dst).
Proof.
  unfold closes_what_it_opens, copyFile. simpl.
  intros [err | source]; simpl; [reflexivity |].
  intros [err | destination]; simpl.
  - intros c. reflexivity.
  - intros [n err] c1 c2. simpl. apply Permutation_swap.
Qed.

Lemma transfer_handle_free (url : string) (out : file) (expectedSize : Z) :
  makes_only (@handle_free) (transfer url out expectedSize).
Proof. apply transfer_calls; intros; exact I. Qed.

Lemma downloadWithProgress_closes (url filepath : string) (expectedSize : Z) :
  closes_what_it_opens (downloadWithProgress url filepath expectedSize).
Proof.
  unfold closes_what_it_opens, downloadWithProgress.
  cbn [mbind prog_bind bind call every_run].
  intros [err |]; [simpl; reflexivity |].
  cbn [bind every_run]. intros [err | out]; [simpl; reflexivity |].
  unfold defer. apply every_run_mbind.
  eapply every_run_weaken; [| apply makes_only_every_run, transfer_handle_free].
  intros r tr Htr. simpl in Htr |- *. intros x.
  destruct (handle_free_trace tr Htr) as [Ho Hc].
  change (Call (MkdirAll (Path.Dir filepath)) None
            :: Call (Create filepath) (inr out) :: tr ++ [Call (FileClose out) x])
    with ([Call (MkdirAll (Path.Dir filepath)) None; Call (Create filepath) (inr out)]
            ++ tr ++ [Call (FileClose out) x]).
  rewrite !opens_app, !closes_app, Ho, Hc. reflexivity.
Qed.

Ltac closes_step :=
  first
    [ apply closes_ret
    | apply closes_call; exact I
    | apply copyFile_closes
    | apply downloadWithProgress_closes
    | apply closes_mbind
    | apply closes_bind
    | match goal with
      | |- closes_what_it_opens (match ?x with _ => _ end) => destruct x
      | |- closes_what_it_opens (if ?b then _ else _) => destruct b
      | |- ∀ _, _ => intro
      end ].

Lemma getFileMetadata_closes (url : string) :
  closes_what_it_opens (getFileMetadata url).
Proof.
  apply closes_handle_free, getFileMetadata_calls; intros; exact I.
Qed.

Lemma isSymlinkSupported_closes : closes_what_it_opens isSymlinkSupported.
Proof.
  apply closes_handle_free, isSymlinkSupported_calls; intros; exact I.
Qed.

Lemma place_pointer_closes (filename blobPath pointerPath : string) :
  closes_what_it_opens (place_pointer filename blobPath pointerPath).
Proof.
  unfold place_pointer.
  apply closes_mbind; [apply isSymlinkSupported_closes |].
  repeat closes_step.
Qed.

Lemma fetch_blob_closes (modelRepo revision filename blobPath : string) :
  closes_what_it_opens (fetch_blob modelRepo revision filename blobPath).
Proof.
  unfold fetch_blob.
  apply closes_mbind; [apply getFileMetadata_closes |].
  repeat closes_step.
Qed.

Lemma fetch_and_place_closes (blobExists : bool)
    (modelRepo revision filename blobPath pointerPath : string) :
  closes_what_it_opens
    (fetch_and_place blobExists modelRepo revision filename blobPath pointerPath).
Proof.
  unfold fetch_and_place.
  apply closes_mbind.
  - destruct (negb blobExists); [apply fetch_blob_closes | apply closes_ret].
  - intros [err |]; [apply closes_ret | apply place_pointer_closes].
Qed.

(** X10.  [downloadFile] leaves no file open: in every run, whatever the
    file system and the network answer and wherever the function returns,
    the files it has closed are the files it has opened. *)
Theorem downloadFile_closes_its_files {S : Type} (h : handler S)
    (modelRepo revision filename blobId : string) (size : Z)
    (storageFolder snapshotDir : string) (s : S) :
  let tr := (exec h (downloadFile modelRepo revision filename blobId size
                       storageFolder snapshotDir) s).1.2 in
  closes tr ≡ₚ opens tr.
Proof.
  apply (exec_every_run h _ (λ _ tr, closes tr ≡ₚ opens tr)).
  unfold downloadFile.
  repeat first [apply fetch_and_place_closes | closes_step].
Qed.

End Handles.

(** ** The bytes of a blob *)

Lemma foldr_append_app (l1 l2 : list string) :
  foldr append "" (l1 ++ l2) = foldr append "" l1 +:+ foldr append "" l2.
Proof.
  induction l1 as [| a l1 IH]; [reflexivity |].
  simpl. rewrite IH, string_app_assoc. reflexivity.
Qed.

Lemma written_app (tr1 tr2 : list event) :
  written (tr1 ++ tr2) = written tr1 +:+ written tr2.
Proof. unfold written. rewrite omap_app. apply foldr_append_app. Qed.

Lemma byte_count_app (a b : string) :
  byte_count (a +:+ b) = byte_count a + byte_count b.
Proof.
  unfold byte_count. induction a as [| c a IH]; [reflexivity |].
  change (String c a +:+ b) with (String c (a +:+ b)).
  cbn [String.length]. lia.
Qed.

Lemma byte_count_zero (a : string) : byte_count a ≤ 0 → a = "".
Proof. destruct a; [reflexivity |]. unfold byte_count. cbn [String.length]. lia. Qed.

Lemma wrap64_range (z : Z) : - 2 ^ 63 ≤ wrap64 z < 2 ^ 63.
Proof. unfold wrap64. pose proof (Z.mod_pos_bound (z + 2 ^ 63) (2 ^ 64)). lia. Qed.

Lemma wrap64_add (a b : Z) : wrap64 (wrap64 a + b) = wrap64 (a + b).
Proof.
  unfold wrap64. f_equal.
  replace ((a + 2 ^ 63) mod 2 ^ 64 - 2 ^ 63 + b + 2 ^ 63)
    with ((a + 2 ^ 63) mod 2 ^ 64 + b) by lia.
  rewrite Z.add_mod_idemp_l by lia. f_equal. lia.
Qed.

Lemma settled_trace (tr : list event) :
  Forall (λ ev, settled (ev_call ev)) tr →
  http_calls tr = [] ∧ write_errors tr = [] ∧ written tr = "" ∧ renames tr = [].
Proof.
  induction 1 as [| [X e a] tr He _ (IH1 & IH2 & IH3 & IH4)]; [repeat split |].
  destruct e; simpl in He; try contradiction; repeat split; assumption.
Qed.

Lemma loop_trace (tr : list event) :
  Forall (λ ev, loop_call (ev_call ev)) tr → http_calls tr = [] ∧ renames tr = [].
Proof.
  induction 1 as [| [X e a] tr He _ (IH1 & IH2)]; [repeat split |].
  destruct e; simpl in He; try contradiction; repeat split; assumption.
Qed.

Section Integrity.
Context `{GoLib}.

(** The loop, when it ends at the end of the body: every write was
    accepted, the bytes written are those of the body, and the count is
    their number, in 64 bits. *)
Lemma read_loop_every_run (out : file) (expectedSize : Z) (body : list ReadResult)
    (downloaded last : Z) :
  - 2 ^ 63 ≤ downloaded < 2 ^ 63 →
  every_run (read_loop out expectedSize body downloaded last)
    (λ r tr, ∀ n, r = inr n →
       write_errors tr = [] ∧ written tr = io_ReadAll body
       ∧ n = wrap64 (downloaded + byte_count (written tr))).
Proof.
  revert downloaded last.
  induction body as [| rd rest IH]; intros downloaded last Hd.
  { simpl. intros n [= <-]. repeat split. rewrite Z.add_0_r, wrap64_small; auto. }
  simpl read_loop.
  assert (Hgo : ∀ eof, (eof = RNil ∨ eof = REOF) → rd_err rd = eof →
    every_run
      (r ← (if 0 <? byte_count (rd_data rd)
            then w ← call (FileWrite out (rd_data rd));
                 match w with
                 | Some err => mret (inl (Errorf "error writing to file" err))
                 | None =>
                     let downloaded0 := wrap64 (downloaded + byte_count (rd_data rd)) in
                     now ← call Now;
                     (if progressInterval <? time_Sub now last
                      then _ ← call (Printf (if 0 <? expectedSize
                                             then MsgProgressPercent downloaded0 expectedSize
                                             else MsgProgressBytes downloaded0));
                           now0 ← call Now; mret (inr (downloaded0, now0))
                      else mret (inr (downloaded0, last)))
                 end
            else mret (inr (downloaded, last)));
       match r with
       | inl err => mret (inl err)
       | inr (downloaded0, lastProgressUpdate) =>
           match eof with
           | REOF => mret (inr downloaded0)
           | _ => read_loop out expectedSize rest downloaded0 lastProgressUpdate
           end
       end)
      (λ r tr, ∀ n, r = inr n →
         write_errors tr = [] ∧ written tr = io_ReadAll (rd :: rest)
         ∧ n = wrap64 (downloaded + byte_count (written tr)))).
  { intros eof Heof Hrd.
    assert (Hnext : ∀ d l pre,
              - 2 ^ 63 ≤ d < 2 ^ 63 →
              write_errors pre = [] →
              written pre = rd_data rd →
              d = wrap64 (downloaded + byte_count (rd_data rd)) →
              every_run
                (match eof with
                 | REOF => mret (inr d)
                 | _ => read_loop out expectedSize rest d l
                 end)
                (λ b tr2, ∀ n, b = inr n →
                   write_errors (pre ++ tr2) = []
                   ∧ written (pre ++ tr2) = io_ReadAll (rd :: rest)
                   ∧ n = wrap64 (downloaded + byte_count (written (pre ++ tr2))))).
    { intros d l pre Hdr Hw Hwr Hdv.
      assert (Hall : ∀ tr2 n,
                write_errors tr2 = [] → written tr2 = io_ReadAll
                  (match eof with REOF => [] | _ => rest end) →
                n = wrap64 (d + byte_count (written tr2)) →
                write_errors (pre ++ tr2) = []
                ∧ written (pre ++ tr2) = io_ReadAll (rd :: rest)
                ∧ n = wrap64 (downloaded + byte_count (written (pre ++ tr2)))).
      { intros tr2 n H1 H2 H3. unfold write_errors in *. rewrite omap_app.
        fold (write_errors pre) (write_errors tr2).
        unfold write_errors in Hw, H1 |- *. rewrite Hw, H1.
        rewrite written_app, Hwr, H2. split; [reflexivity |]. split.
        - simpl io_ReadAll. rewrite Hrd.
          destruct Heof as [-> | ->]; [reflexivity |]. simpl. apply append_empty_r.
        - rewrite H3, Hdv, wrap64_add, byte_count_app, H2. f_equal. lia. }
      destruct Heof as [-> | ->].
      - eapply every_run_weaken; [| apply (IH d l Hdr)].
        intros b tr2 Hb n Hn. destruct (Hb n Hn) as (H1 & H2 & H3). apply Hall; auto.
      - simpl. intros n [= <-]. apply Hall; try reflexivity.
        simpl. rewrite Z.add_0_r, wrap64_small; auto. }
    apply every_run_mbind.
    destruct (0 <? byte_count (rd_data rd)) eqn:Hpos.
    - cbn [mbind prog_bind bind call every_run mret prog_ret].
      intros [err |]; [simpl; intros n [=] |].
      cbv zeta. cbn [bind every_run]. intros now.
      destruct (progressInterval <? time_Sub now last).
      + cbn [mbind prog_bind bind call every_run mret prog_ret]. intros [] now0.
        eapply every_run_weaken; [| apply (Hnext _ now0
          [Call (FileWrite out (rd_data rd)) None; Call Now now;
           Call (Printf (if 0 <? expectedSize
                         then MsgProgressPercent
                                (wrap64 (downloaded + byte_count (rd_data rd))) expectedSize
                         else MsgProgressBytes
                                (wrap64 (downloaded + byte_count (rd_data rd))))) ();
           Call Now now0])].
        * intros b tr2 Hb. exact Hb.
        * apply wrap64_range.
        * reflexivity.
        * unfold written. simpl. apply append_empty_r.
        * reflexivity.
      + cbn [mbind prog_bind bind call every_run mret prog_ret].
        eapply every_run_weaken; [| apply (Hnext _ last
          [Call (FileWrite out (rd_data rd)) None; Call Now now])].
        * intros b tr2 Hb. exact Hb.
        * apply wrap64_range.
        * reflexivity.
        * unfold written. simpl. apply append_empty_r.
        * reflexivity.
    - cbn [mbind prog_bind bind call every_run mret prog_ret].
      apply Z.ltb_ge in Hpos. pose proof (byte_count_zero _ Hpos) as Hz.
      eapply every_run_weaken; [| apply (Hnext downloaded last [])].
      + intros b tr2 Hb. exact Hb.
      + exact Hd.
      + reflexivity.
      + rewrite Hz. reflexivity.
      + rewrite Hz. simpl. rewrite Z.add_0_r, wrap64_small; auto. }
  destruct (rd_err rd) eqn:Hrd.
  - apply (Hgo RNil); auto.
  - apply (Hgo REOF); auto.
  - simpl. intros n [=].
Qed.

Lemma transfer_every_run (url : string) (out : file) (expectedSize : Z) :
  every_run (transfer url out expectedSize)
    (λ r tr, renames tr = [] ∧ (r = None → transferred expectedSize tr)).
Proof.
  unfold transfer, http_NewRequest, with_token.
  destruct (http_NewRequest_error "GET" url) as [err |].
  { simpl. split; [reflexivity | discriminate]. }
  cbn [mbind prog_bind bind call every_run mret prog_ret].
  intros token [err | resp]; [simpl; split; [reflexivity | discriminate] |].
  destruct (StatusCode resp =? StatusOK) eqn:Hst; cbn [negb];
    [| simpl; split; [reflexivity | discriminate]].
  apply Z.eqb_eq in Hst.
  cbn [bind every_run]. intros now. apply every_run_bind.
  eapply every_run_weaken;
    [| apply every_run_and;
       [apply (read_loop_every_run out expectedSize (reads (RespBody resp)) 0 now); lia
       | apply makes_only_every_run,
           (read_loop_calls (@loop_call) out expectedSize (reads (RespBody resp)) 0 now);
         intros; exact I]].
  intros [err | downloaded] tr [Hloop Hcalls]; simpl in Hcalls.
  { simpl. split; [| discriminate].
    destruct (loop_trace tr Hcalls) as [_ Hr].
    unfold renames in *. simpl. rewrite omap_app, Hr. reflexivity. }
  destruct (Hloop downloaded eq_refl) as (Hw & Hdata & Hn).
  destruct (loop_trace tr Hcalls) as [Hh Hr].
  cbn [mbind prog_bind bind call every_run mret prog_ret]. intros [].
  assert (Hsum : ∀ (req : Request) (full : list event),
            full = Call (Getenv HF_TOKEN_ENV) token :: Call (HttpDo req) (inr resp)
                     :: Call Now now :: tr ++ [Call (Printf MsgNewline) ()] →
            renames full = [] ∧ http_calls full = [(req, inr resp)]
            ∧ write_errors full = [] ∧ written full = written tr).
  { intros req full ->. unfold renames, http_calls, write_errors, written in *. simpl.
    rewrite !omap_app. simpl. rewrite Hr, Hh, Hw, !app_nil_r. repeat split. }
  match goal with
  | |- context [Call (HttpDo ?r) (inr resp)] =>
      destruct (Hsum r _ eq_refl) as (S1 & S2 & S3 & S4)
  end.
  destruct ((0 <? expectedSize) && negb (downloaded =? expectedSize)) eqn:Hcheck;
    simpl; (split; [exact S1 |]); [discriminate |].
  intros _. eexists _, resp. split; [exact S2 |]. split; [exact Hst |].
  split; [exact S3 |]. rewrite S4. split; [exact Hdata |].
  intros Hpos. apply andb_false_iff in Hcheck as [Hc | Hc].
  - apply Z.ltb_ge in Hc. lia.
  - apply negb_false_iff, Z.eqb_eq in Hc. rewrite <- Hc, Hn. reflexivity.
Qed.

(** Calls that make no request and touch no file leave what a trace shows
    of a transfer as it is. *)
Lemma settled_frame (pre tr post : list event) :
  Forall (λ ev, settled (ev_call ev)) pre → Forall (λ ev, settled (ev_call ev)) post →
  http_calls (pre ++ tr ++ post) = http_calls tr
  ∧ write_errors (pre ++ tr ++ post) = write_errors tr
  ∧ written (pre ++ tr ++ post) = written tr
  ∧ renames (pre ++ tr ++ post) = renames tr.
Proof.
  intros Hpre Hpost.
  destruct (settled_trace _ Hpre) as (A1 & A2 & A3 & A4).
  destruct (settled_trace _ Hpost) as (B1 & B2 & B3 & B4).
  rewrite !written_app, A3, B3, append_empty_r.
  unfold http_calls, write_errors, renames in *.
  rewrite !omap_app, A1, A2, A4, B1, B2, B4, !app_nil_r. repeat split.
Qed.

Lemma downloadWithProgress_every_run (url filepath : string) (expectedSize : Z) :
  every_run (downloadWithProgress url filepath expectedSize)
    (λ r tr, renames tr = [] ∧ (r = None → transferred expectedSize tr)).
Proof.
  unfold downloadWithProgress.
  cbn [mbind prog_bind bind call every_run mret prog_ret].
  intros [err |]; [simpl; split; [reflexivity | discriminate] |].
  cbn [bind every_run]. intros [err | out]; [simpl; split; [reflexivity | discriminate] |].
  unfold defer. apply every_run_mbind.
  eapply every_run_weaken; [| apply transfer_every_run].
  intros r tr [Hr Ht].
  cbn [close mbind prog_bind bind call every_run mret prog_ret]. intros c.
  destruct (settled_frame
              [Call (MkdirAll (Path.Dir filepath)) None; Call (Create filepath) (inr out)]
              tr [Call (FileClose out) c]) as (F1 & F2 & F3 & F4);
    [repeat constructor; exact I | repeat constructor; exact I |].
  cbn [app] in F1, F2, F3, F4. rewrite F4. split; [exact Hr |].
  intros Hnone. destruct (Ht Hnone) as (get & resp & T1 & T2 & T3 & T4 & T5).
  exists get, resp. rewrite F1, F2, F3. auto.
Qed.

Lemma getFileMetadata_every_run (url : string) :
  every_run (getFileMetadata url)
    (λ m tr, renames tr = [] ∧ write_errors tr = [] ∧ written tr = ""
             ∧ match m with
               | inl _ => True
               | inr metadata =>
                   ∃ probe resp,
                     http_calls tr = [(probe, inr resp)] ∧ StatusCode resp = StatusOK
                     ∧ md_Size metadata
                       = parseInt64 (Header_Get (Header resp) "Content-Length")
               end).
Proof.
  unfold getFileMetadata, http_NewRequest, with_token.
  destruct (http_NewRequest_error "HEAD" url) as [err |]; [simpl; auto |].
  cbn [mbind prog_bind bind call every_run mret prog_ret].
  intros token [err | resp]; [simpl; auto |].
  destruct (StatusCode resp =? StatusOK) eqn:Hst; cbn [negb]; [| simpl; auto].
  apply Z.eqb_eq in Hst. simpl. repeat split. eexists _, resp. repeat split. exact Hst.
Qed.

Lemma fetched_frame (pre tr post : list event) :
  Forall (λ ev, settled (ev_call ev)) pre → Forall (λ ev, settled (ev_call ev)) post →
  (renames tr ≠ [] → fetched tr) →
  renames (pre ++ tr ++ post) ≠ [] → fetched (pre ++ tr ++ post).
Proof.
  intros Hpre Hpost Htr.
  destruct (settled_frame pre tr post Hpre Hpost) as (F1 & F2 & F3 & F4).
  rewrite F4. intros Hr. unfold fetched. rewrite F1, F2, F3. exact (Htr Hr).
Qed.

Lemma fetched_snoc_rename (tr : list event) (o n : string) (a : option error) :
  fetched tr → fetched (tr ++ [Call (Rename o n) a]).
Proof.
  intros (p1 & r1 & p2 & r2 & G1 & G2 & G3 & G4 & G5 & G6).
  exists p1, r1, p2, r2. rewrite written_app.
  change (written [Call (Rename o n) a]) with "". rewrite !append_empty_r.
  unfold http_calls, write_errors in *. rewrite !omap_app, G1, G4.
  simpl. repeat split; auto.
Qed.

Lemma fetch_blob_every_run (modelRepo revision filename blobPath : string) :
  every_run (fetch_blob modelRepo revision filename blobPath)
    (λ _ tr, renames tr ≠ [] → fetched tr).
Proof.
  unfold fetch_blob. set (url := "https://huggingface.co/" +:+ _).
  apply every_run_mbind.
  eapply every_run_weaken; [| apply getFileMetadata_every_run].
  intros [err | metadata] tr1 (M1 & M2 & M3 & M4).
  { simpl. rewrite app_nil_r. intros Hr. contradiction. }
  destruct M4 as (probe & presp & M4 & M5 & M6).
  cbn [mbind prog_bind bind call every_run mret prog_ret]. intros [].
  apply every_run_bind.
  eapply every_run_weaken; [| apply downloadWithProgress_every_run].
  intros d tr2 [D1 D2].
  assert (Hsum : ∀ tail, Forall (λ ev, settled (ev_call ev)) tail →
            http_calls (tr1 ++ Call (Printf (MsgDownloading filename (md_Size metadata))) ()
                          :: tr2 ++ tail) = http_calls tr1 ++ http_calls tr2
            ∧ write_errors (tr1 ++ Call (Printf (MsgDownloading filename (md_Size metadata))) ()
                              :: tr2 ++ tail) = write_errors tr2
            ∧ written (tr1 ++ Call (Printf (MsgDownloading filename (md_Size metadata))) ()
                         :: tr2 ++ tail) = written tr2).
  { intros tail Htail. destruct (settled_trace _ Htail) as (T1 & T2 & T3 & T4).
    change (Call (Printf (MsgDownloading filename (md_Size metadata))) () :: tr2 ++ tail)
      with ([Call (Printf (MsgDownloading filename (md_Size metadata))) ()] ++ tr2 ++ tail).
    rewrite !written_app, M3, T3. unfold http_calls, write_errors in *.
    rewrite !omap_app, M2, T1, T2. simpl. rewrite !app_nil_r, append_empty_r.
    repeat split. }
  destruct d as [err |].
  { cbn [every_run mret prog_ret]. rewrite app_nil_r. intros Hr. exfalso. apply Hr.
    rewrite renames_app, M1. exact D1. }
  specialize (D2 eq_refl). destruct D2 as (get & gresp & T1 & T2 & T3 & T4 & T5).
  cbn [mbind prog_bind bind call every_run mret prog_ret]. intros rn.
  assert (Hgood : ∀ tail, Forall (λ ev, settled (ev_call ev)) tail →
            fetched (tr1 ++ Call (Printf (MsgDownloading filename (md_Size metadata))) ()
                       :: tr2 ++ tail)).
  { intros tail Htail. destruct (Hsum tail Htail) as (S1 & S2 & S3).
    exists probe, presp, get, gresp. rewrite S1, S2, S3, M4, T1.
    repeat split; auto. rewrite <- M6. exact T5. }
  assert (Hren : ∀ a,
            fetched (tr1 ++ Call (Printf (MsgDownloading filename (md_Size metadata))) ()
                       :: tr2 ++ [Call (Rename (blobPath +:+ ".incomplete") blobPath) a])).
  { intros a. pose proof (Hgood [] (List.Forall_nil _)) as Hg.
    rewrite app_nil_r in Hg.
    change (tr1 ++ Call (Printf (MsgDownloading filename (md_Size metadata))) ()
              :: tr2 ++ [Call (Rename (blobPath +:+ ".incomplete") blobPath) a])
      with (tr1 ++ (Call (Printf (MsgDownloading filename (md_Size metadata))) ()
                      :: tr2) ++ [Call (Rename (blobPath +:+ ".incomplete") blobPath) a]).
    rewrite List.app_assoc. apply fetched_snoc_rename, Hg. }
  destruct rn as [err |]; cbn [every_run mret prog_ret]; intros _; apply Hren.
Qed.

Lemma place_pointer_settled (filename blobPath pointerPath : string) :
  every_run (place_pointer filename blobPath pointerPath)
    (λ _ tr, Forall (λ ev, settled (ev_call ev)) tr).
Proof.
  apply makes_only_every_run, place_pointer_calls.
  intros X e He. destruct e; simpl in *; auto.
Qed.

Lemma fetch_and_place_every_run (blobExists : bool)
    (modelRepo revision filename blobPath pointerPath : string) :
  every_run (fetch_and_place blobExists modelRepo revision filename blobPath pointerPath)
    (λ _ tr, renames tr ≠ [] → fetched tr).
Proof.
  unfold fetch_and_place. apply every_run_mbind.
  assert (Hplace : ∀ tr1, (renames tr1 ≠ [] → fetched tr1) →
            every_run (place_pointer filename blobPath pointerPath)
              (λ _ tr2, renames (tr1 ++ tr2) ≠ [] → fetched (tr1 ++ tr2))).
  { intros tr1 H1. eapply every_run_weaken; [| apply place_pointer_settled].
    intros r tr2 H2. apply (fetched_frame [] tr1 tr2); auto. }
  destruct (negb blobExists).
  - eapply every_run_weaken; [| apply fetch_blob_every_run].
    intros [err |] tr1 H1.
    + cbn [every_run mret prog_ret]. rewrite app_nil_r. exact H1.
    + apply Hplace, H1.
  - cbn [every_run mret prog_ret]. apply Hplace. intros Hr. contradiction.
Qed.

(** X11.  A blob is promoted only after a complete transfer.  In every run
    of [downloadFile] in which a rename is attempted at all, the probe and
    the transfer were both answered with status 200, every write to the
    temporary file was accepted, the bytes written are the bytes of the
    response body in their order, and, when the probe declared a positive
    size, they are that many (counted in 64 bits, as the code counts). *)
Theorem blob_promoted_after_complete_transfer {S : Type} (h : handler S)
    (modelRepo revision filename blobId : string) (size : Z)
    (storageFolder snapshotDir : string) (s : S) :
  let tr := (exec h (downloadFile modelRepo revision filename blobId size
                       storageFolder snapshotDir) s).1.2 in
  renames tr ≠ [] →
  ∃ probe probe_resp get get_resp,
    http_calls tr = [(probe, inr probe_resp); (get, inr get_resp)]
    ∧ StatusCode probe_resp = StatusOK ∧ StatusCode get_resp = StatusOK
    ∧ write_errors tr = []
    ∧ written tr = io_ReadAll (reads (RespBody get_resp))
    ∧ (0 < parseInt64 (Header_Get (Header probe_resp) "Content-Length") →
       wrap64 (byte_count (written tr))
       = parseInt64 (Header_Get (Header probe_resp) "Content-Length")).
Proof.
  apply (exec_every_run h _ (λ _ tr, renames tr ≠ [] → fetched tr)).
  unfold downloadFile.
  set (blobPath := Path.Join [storageFolder; "blobs"; blobId]).
  set (pointerPath := Path.Join [snapshotDir; Path.to_native filename]).
  cbn [mbind prog_bind bind call every_run mret prog_ret].
  intros [err |]; [simpl; intros Hr; contradiction |].
  cbn [bind every_run]. intros st1 st2.
  assert (Hfp : ∀ b pre, Forall (λ ev, settled (ev_call ev)) pre →
            every_run (fetch_and_place b modelRepo revision filename blobPath pointerPath)
              (λ _ tr, renames (pre ++ tr) ≠ [] → fetched (pre ++ tr))).
  { intros b pre Hpre. eapply every_run_weaken; [| apply fetch_and_place_every_run].
    intros r tr Htr. pose proof (fetched_frame pre tr [] Hpre (List.Forall_nil _) Htr) as Hf.
    rewrite app_nil_r in Hf. exact Hf. }
  destruct (bool_decide (st2 = None) && negb (bool_decide (st1 = None))).
  - cbn [mbind prog_bind bind call every_run mret prog_ret]. intros [].
    apply (Hfp _ [Call (MkdirAll (Path.Dir pointerPath)) None; Call (Stat blobPath) st1;
                  Call (Stat pointerPath) st2;
                  Call (Printf (WarnPointerNoBlob filename)) ()]).
    repeat constructor.
  - destruct (bool_decide (st2 = None) && bool_decide (st1 = None)).
    + cbn [mbind prog_bind bind call every_run mret prog_ret]. intros [].
      simpl. intros Hr. contradiction.
    + apply (Hfp _ [Call (MkdirAll (Path.Dir pointerPath)) None; Call (Stat blobPath) st1;
                    Call (Stat pointerPath) st2]).
      repeat constructor.
Qed.

End Integrity.

Lemma blob_promoted_after_complete_transfer_witness :
  let tr := (Run.file "org/tiny-model" "config.json" "abc123" 42 Run.tiny_ready).1.2 in
  renames tr ≠ []
  ∧ ∃ probe probe_resp get get_resp,
      http_calls tr = [(probe, inr probe_resp); (get, inr get_resp)]
      ∧ StatusCode probe_resp = StatusOK ∧ StatusCode get_resp = StatusOK
      ∧ write_errors tr = []
      ∧ written tr = io_ReadAll (reads (RespBody get_resp))
      ∧ (0 < parseInt64 (Header_Get (Header probe_resp) "Content-Length") →
         wrap64 (byte_count (written tr))
         = parseInt64 (Header_Get (Header probe_resp) "Content-Length")).
Proof.
  intros tr.
  assert (Hr : renames tr ≠ []) by (vm_compute; discriminate).
  split; [exact Hr |].
  exact (blob_promoted_after_complete_transfer (H := reference_lib) World.step
           "org/tiny-model" "main" "config.json" "abc123" 42
           "/models" "/models/snapshots/c0ffee" Run.tiny_ready Hr).
Defined.

(** ** The order of fetching and placing *)

Lemma every_run_true {R : Type} (p : prog R) : every_run p (λ _ _, True).
Proof. induction p as [r | X e k IH]; simpl; auto. Qed.

Section Order.
Context `{GoLib}.

Lemma fetch_blob_renamed (modelRepo revision filename blobPath : string) :
  every_run (fetch_blob modelRepo revision filename blobPath)
    (λ r tr, Forall not_placing tr
             ∧ (r = None →
                Call (Rename (blobPath +:+ ".incomplete") blobPath) None ∈ tr)).
Proof.
  apply every_run_and.
  - eapply every_run_weaken;
      [| apply (makes_only_every_run (λ X e, ∀ a, not_placing (Call e a))),
           fetch_blob_calls; intros; split; reflexivity].
    intros r tr Htr. eapply Forall_impl; [exact Htr |]. intros [X e a] He. apply He.
  - unfold fetch_blob. apply every_run_mbind.
    eapply every_run_weaken; [| apply every_run_true].
    intros [err | metadata] tr1 _; [simpl; discriminate |].
    cbn [mbind prog_bind bind call every_run mret prog_ret]. intros [].
    apply every_run_bind. eapply every_run_weaken; [| apply every_run_true].
    intros [err |] tr2 _; [simpl; discriminate |].
    cbn [mbind prog_bind bind call every_run mret prog_ret].
    intros [err |]; cbn [every_run]; [discriminate |]. intros _.
    rewrite !elem_of_app, elem_of_cons, !elem_of_app, !elem_of_cons.
    right. right. right. left. reflexivity.
Qed.

(** X12.  The pointer of a file is placed only when its blob is in the pool.
    In every run of [downloadFile], either no link is made and no file is
    opened for copying, or the blob was found where [downloadFile] looked
    for it, or the temporary file was renamed to the blob, without error. *)
Theorem pointer_placed_after_blob {S : Type} (h : handler S)
    (modelRepo revision filename blobId : string) (size : Z)
    (storageFolder snapshotDir : string) (s : S) :
  let blobPath := Path.Join [storageFolder; "blobs"; blobId] in
  let tr := (exec h (downloadFile modelRepo revision filename blobId size
                       storageFolder snapshotDir) s).1.2 in
  Forall not_placing tr
  ∨ Call (Stat blobPath) None ∈ tr
  ∨ Call (Rename (blobPath +:+ ".incomplete") blobPath) None ∈ tr.
Proof.
  intros blobPath.
  apply (exec_every_run h _
           (λ _ tr, Forall not_placing tr ∨ Call (Stat blobPath) None ∈ tr
                    ∨ Call (Rename (blobPath +:+ ".incomplete") blobPath) None ∈ tr)).
  unfold downloadFile. fold blobPath.
  set (pointerPath := Path.Join [snapshotDir; Path.to_native filename]).
  cbn [mbind prog_bind bind call every_run mret prog_ret].
  intros [err |]; [simpl; left; repeat constructor |].
  cbn [bind every_run]. intros st1 st2.
  assert (Hfp : ∀ pre, Forall not_placing pre →
            (bool_decide (st1 = None) = true → Call (Stat blobPath) None ∈ pre) →
            every_run (fetch_and_place (bool_decide (st1 = None)) modelRepo revision
                         filename blobPath pointerPath)
              (λ _ tr, Forall not_placing (pre ++ tr)
                       ∨ Call (Stat blobPath) None ∈ pre ++ tr
                       ∨ Call (Rename (blobPath +:+ ".incomplete") blobPath) None
                           ∈ pre ++ tr)).
  { intros pre Hpre Hstat. unfold fetch_and_place. apply every_run_mbind.
    destruct (bool_decide (st1 = None)); cbn [negb].
    - cbn [every_run mret prog_ret]. eapply every_run_weaken; [| apply every_run_true].
      intros r tr _. right. left. rewrite elem_of_app. left. auto.
    - eapply every_run_weaken; [| apply fetch_blob_renamed].
      intros [err |] tr1 [Hnp Hrn].
      + cbn [every_run mret prog_ret]. left. rewrite app_nil_r.
        apply Forall_app. split; assumption.
      + eapply every_run_weaken; [| apply every_run_true].
        intros r tr2 _. right. right. rewrite !elem_of_app. right. left. auto. }
  assert (Hpre : ∀ tail, Forall not_placing tail →
            Forall not_placing
              (Call (MkdirAll (Path.Dir pointerPath)) None :: Call (Stat blobPath) st1
                 :: Call (Stat pointerPath) st2 :: tail)).
  { intros tail Htail. repeat (constructor; [split; reflexivity |]). exact Htail. }
  assert (Hin : ∀ tail, bool_decide (st1 = None) = true →
            Call (Stat blobPath) None
              ∈ Call (MkdirAll (Path.Dir pointerPath)) None :: Call (Stat blobPath) st1
                  :: Call (Stat pointerPath) st2 :: tail).
  { intros tail Hb. apply bool_decide_eq_true in Hb. subst st1.
    rewrite !elem_of_cons. right. left. reflexivity. }
  destruct (bool_decide (st2 = None) && negb (bool_decide (st1 = None))).
  - cbn [mbind prog_bind bind call every_run mret prog_ret]. intros [].
    apply (Hfp [Call (MkdirAll (Path.Dir pointerPath)) None; Call (Stat blobPath) st1;
                Call (Stat pointerPath) st2;
                Call (Printf (WarnPointerNoBlob filename)) ()]).
    + apply Hpre. repeat constructor.
    + apply Hin.
  - destruct (bool_decide (st2 = None) && bool_decide (st1 = None)).
    + cbn [mbind prog_bind bind call every_run mret prog_ret]. intros [].
      left. apply Hpre. repeat constructor.
    + apply (Hfp [Call (MkdirAll (Path.Dir pointerPath)) None; Call (Stat blobPath) st1;
                  Call (Stat pointerPath) st2]).
      * apply Hpre. constructor.
      * apply Hin.
Qed.

(** X13.  A file that is in place is left alone.  When the blob and the
    pointer are both found, [downloadFile] reports the file as existing
    and returns without error: the run is the creation of the pointer's
    directory, the two checks and the line printed, and nothing else. *)
Theorem file_in_place_untouched {S : Type} (h : handler S)
    (modelRepo revision filename blobId : string) (size : Z)
    (storageFolder snapshotDir : string) (s : S) :
  let blobPath := Path.Join [storageFolder; "blobs"; blobId] in
  let pointerPath := Path.Join [snapshotDir; Path.to_native filename] in
  let made := h _ (MkdirAll (Path.Dir pointerPath)) s in
  let blob := h _ (Stat blobPath) made.2 in
  let pointer := h _ (Stat pointerPath) blob.2 in
  made.1 = None → blob.1 = None → pointer.1 = None →
  (exec h (downloadFile modelRepo revision filename blobId size
             storageFolder snapshotDir) s).1
  = (None, [Call (MkdirAll (Path.Dir pointerPath)) None; Call (Stat blobPath) None;
            Call (Stat pointerPath) None; Call (Printf (MsgFileExists filename)) ()]).
Proof.
  intros blobPath pointerPath made blob pointer Hm Hb Hp.
  unfold downloadFile. fold blobPath pointerPath.
  cbn [mbind prog_bind bind call mret prog_ret]. rewrite exec_Vis.
  subst made blob pointer.
  destruct (h _ (MkdirAll _) s) as [m s1]. simpl in Hm, Hb, Hp. subst m.
  rewrite exec_Vis. destruct (h _ (Stat blobPath) s1) as [b s2].
  simpl in Hb, Hp. subst b.
  rewrite exec_Vis. destruct (h _ (Stat pointerPath) s2) as [p s3].
  simpl in Hp. subst p.
  rewrite !bool_decide_eq_true_2 by reflexivity. simpl.
  destruct (h _ (Printf _) s3) as [[] s4]. reflexivity.
Qed.

End Order.

(** A second call for [config.json] after the end-to-end run. *)
Lemma file_in_place_untouched_witness :
  let w := (Run.download [] "org/tiny-model" Scenario.tiny_machine).2 in
  let blobPath := Path.Join ["/models"; "blobs"; "abc123"] in
  let pointerPath := Path.Join ["/models/snapshots/c0ffee"; Path.to_native "config.json"] in
  let made := World.step _ (MkdirAll (Path.Dir pointerPath)) w in
  let blob := World.step _ (Stat blobPath) made.2 in
  let pointer := World.step _ (Stat pointerPath) blob.2 in
  made.1 = None ∧ blob.1 = None ∧ pointer.1 = None
  ∧ (Run.file "org/tiny-model" "config.json" "abc123" 42 w).1
    = (None, [Call (MkdirAll (Path.Dir pointerPath)) None; Call (Stat blobPath) None;
              Call (Stat pointerPath) None; Call (Printf (MsgFileExists "config.json")) ()]).
Proof.
  intros w blobPath pointerPath made blob pointer.
  assert (H1 : made.1 = None) by (vm_compute; reflexivity).
  assert (H2 : blob.1 = None) by (vm_compute; reflexivity).
  assert (H3 : pointer.1 = None) by (vm_compute; reflexivity).
  split; [exact H1 |]. split; [exact H2 |]. split; [exact H3 |].
  exact (file_in_place_untouched (H := reference_lib) World.step "org/tiny-model" "main"
           "config.json" "abc123" 42 "/models" "/models/snapshots/c0ffee" w H1 H2 H3).
Defined.

(** ** The probe for symbolic links and the copy *)

(** X14.  The probe for symbolic links cleans up after itself.  A run of
    [isSymlinkSupported] is the failed creation of the temporary directory
    and nothing else, or it ends with the removal of the directory it
    created, whatever happened in between; all it writes and links lies in
    that directory; and it answers yes exactly when the directory, the
    file and the link were all made. *)
Theorem probe_cleans_up {S : Type} (h : handler S) (s : S) :
  let r := (exec h isSymlinkSupported s).1.1 in
  let tr := (exec h isSymlinkSupported s).1.2 in
  (∃ e, tr = [Call (MkdirTemp "" "symlink-test") (inl e)] ∧ r = false)
  ∨ ∃ tempDir written removed,
      let testFile := Path.Join [tempDir; "test-file"] in
      let testLink := Path.Join [tempDir; "test-link"] in
      (tr = [Call (MkdirTemp "" "symlink-test") (inr tempDir);
             Call (WriteFile testFile "test") written;
             Call (RemoveAll tempDir) removed]
       ∧ written ≠ None ∧ r = false)
      ∨ ∃ linked,
          tr = [Call (MkdirTemp "" "symlink-test") (inr tempDir);
                Call (WriteFile testFile "test") None;
                Call (Symlink testFile testLink) linked;
                Call (RemoveAll tempDir) removed]
          ∧ (r = true ↔ linked = None).
Proof.
  apply (exec_every_run h isSymlinkSupported
           (λ r tr,
              (∃ e, tr = [Call (MkdirTemp "" "symlink-test") (inl e)] ∧ r = false)
              ∨ ∃ tempDir written removed,
                  (tr = [Call (MkdirTemp "" "symlink-test") (inr tempDir);
                         Call (WriteFile (Path.Join [tempDir; "test-file"]) "test") written;
                         Call (RemoveAll tempDir) removed]
                   ∧ written ≠ None ∧ r = false)
                  ∨ ∃ linked,
                      tr = [Call (MkdirTemp "" "symlink-test") (inr tempDir);
                            Call (WriteFile (Path.Join [tempDir; "test-file"]) "test") None;
                            Call (Symlink (Path.Join [tempDir; "test-file"])
                                    (Path.Join [tempDir; "test-link"])) linked;
                            Call (RemoveAll tempDir) removed]
                      ∧ (r = true ↔ linked = None))).
  unfold isSymlinkSupported, defer, remove_all.
  cbn [mbind prog_bind bind call every_run mret prog_ret].
  intros [e | tempDir]; cbn [bind every_run]; [left; eauto |].
  intros [e |]; cbn [bind every_run].
  - intros removed. right. exists tempDir, (Some e), removed. left.
    repeat split. discriminate.
  - intros linked removed. right. exists tempDir, None, removed. right.
    exists linked. split; [reflexivity |]. apply bool_decide_eq_true.
Qed.

(** X15.  What [copyFile] returns is the first failure among the opening of
    the source, the creation of the destination and the copy; what the
    two [Close] answer is dropped.  When the source cannot be opened the
    destination is not created; every file opened is closed, the
    destination first. *)
Theorem copyFile_runs {S : Type} (h : handler S) (src dst : string) (s : S) :
  let r := (exec h (copyFile src dst) s).1.1 in
  let tr := (exec h (copyFile src dst) s).1.2 in
  (∃ e, tr = [Call (OpenFile src) (inl e)] ∧ r = Some e)
  ∨ (∃ source e c,
       tr = [Call (OpenFile src) (inr source); Call (Create dst) (inl e);
             Call (FileClose source) c]
       ∧ r = Some e)
  ∨ ∃ source destination n copied c1 c2,
      tr = [Call (OpenFile src) (inr source); Call (Create dst) (inr destination);
            Call (Copy destination source) (n, copied);
            Call (FileClose destination) c1; Call (FileClose source) c2]
      ∧ r = copied.
Proof.
  apply (exec_every_run h (copyFile src dst)
           (λ r tr,
              (∃ e, tr = [Call (OpenFile src) (inl e)] ∧ r = Some e)
              ∨ (∃ source e c,
                   tr = [Call (OpenFile src) (inr source); Call (Create dst) (inl e);
                         Call (FileClose source) c]
                   ∧ r = Some e)
              ∨ ∃ source destination n copied c1 c2,
                  tr = [Call (OpenFile src) (inr source);
                        Call (Create dst) (inr destination);
                        Call (Copy destination source) (n, copied);
                        Call (FileClose destination) c1; Call (FileClose source) c2]
                  ∧ r = copied)).
  unfold copyFile, defer, close.
  cbn [mbind prog_bind bind call every_run mret prog_ret].
  intros [e | source]; cbn [bind every_run]; [left; eauto |].
  intros [e | destination]; cbn [bind every_run].
  - intros c. right. left. eauto 6.
  - intros [n copied] c1 c2. right. right. eauto 10.
Qed.




Section Requests.
Context `{GoLib}.







End Requests.

Lemma returns_only_bind_with {A B : Type} (P : A → Prop) (Q : B → Prop)
    (p : prog A) (f : A → prog B) :
  returns_only P p → (∀ a, P a → returns_only Q (f a)) → returns_only Q (bind p f).
Proof.
  intros Hp Hf. induction p as [a | X e k IH]; simpl in *; [auto |].
  intros x. apply IH, Hp.
Qed.

Lemma returns_only_true {R : Type} (p : prog R) : returns_only (λ _, True) p.
Proof. induction p; simpl; auto. Qed.

Section Outcome.
Context `{GoLib}.

Lemma create_dirs_returns (dirs : list string) :
  returns_only (λ e, ∀ err, e = Some err → Download_error err) (create_dirs dirs).
Proof.
  induction dirs as [| dir rest IH]; simpl; [discriminate |].
  intros [err |]; [| exact IH]. simpl. intros e [= <-]. constructor.
Qed.

Lemma storage_location_returns (d : Downloader) (modelRepo : string) :
  returns_only (λ r, match r with
                     | inl err => Download_error err
                     | inr root => root ≠ ""
                     end)
    (storage_location d modelRepo).
Proof.
  unfold storage_location.
  destruct (String.eqb_spec (customPath d) "") as [E | E]; simpl; [| exact E].
  intros [err | homeDir]; simpl; [constructor |].
  unfold Path.Join.
  destruct (String.eqb homeDir ""); [simpl String.eqb; cbv iota |];
    apply Clean_nonempty.
Qed.

(** What [Download] returns before the fan-out is an error of one of its
    steps; what it hands to the fan-out is a folder with a name. *)
Lemma Download_setup_returns (d : Downloader) (modelRepo revision : string) :
  returns_only (λ r, match r with
                     | inl (Returned path (Some err)) => path = "" ∧ Download_error err
                     | inl (Returned _ None) => False
                     | inl (Panicked _ _) => True
                     | inr fo => fo_storage fo ≠ ""
                     end)
    (Download_setup d modelRepo revision).
Proof.
  unfold Download_setup.
  destruct (MustCompile_all (ignorePatterns d)) as [[p e] | res]; [exact I |].
  apply (returns_only_bind_with (λ _, True)); [apply returns_only_true |].
  intros [err | [modelInfo commitHash]] _; [simpl; split; [reflexivity | constructor] |].
  eapply returns_only_bind_with; [apply storage_location_returns |].
  intros [err | storageFolder] Hroot; [simpl; auto |].
  eapply returns_only_bind_with; [apply create_dirs_returns |].
  intros [err |] Hdirs; [simpl; auto |].
  apply (returns_only_bind_with (λ _, True)); [apply returns_only_true |].
  intros _ _. simpl. intros [err |]; simpl; [| exact Hroot].
  split; [reflexivity | constructor].
Qed.

(** How [Download] ends. *)
Lemma Download_outcome {S : Type} (h : handler S) (sched : list nat)
    (d : Downloader) (modelRepo revision : string) (s : S) :
  match (Download h sched d modelRepo revision s).1.1 with
  | Returned path (Some err) => path = "" ∧ Download_error err
  | Returned path None => path ≠ ""
  | Panicked _ _ => True
  end.
Proof.
  unfold Download.
  pose proof (exec_returns_only h _ _ s (Download_setup_returns d modelRepo revision))
    as Hsetup.
  pose proof (Download_setup_inv h d modelRepo revision s) as Hinv.
  destruct (exec h (Download_setup d modelRepo revision) s) as [[r tr] s1].
  specialize (Hinv _ _ _ eq_refl). simpl in Hsetup.
  destruct r as [out | fo]; simpl.
  { destruct out as [path [err |] | p e]; auto. }
  destruct Hinv as (res & mi & c & tr0 & s0 & tr1 & s1' & tr2 & s2 & trw & s3
                    & _ & _ & _ & _ & _ & _ & _ & Hlaunch).
  pose proof (run_pool_good h (λ _ _, True) processing_error sched
                (task_body <$> fo_tasks fo) [] s1) as Hpool.
  rewrite Hlaunch in Hpool.
  specialize (Hpool (launch_sends _ _ _ _ _ _) (List.Forall_nil _)).
  rewrite <- Hlaunch in Hpool.
  destruct (run_pool h sched (task_body <$> fo_tasks fo) [] s1) as [[chan tr'] sp].
  simpl in Hpool |- *. destruct Hpool as [Hchan _].
  destruct chan as [| err chan]; simpl; [exact Hsetup |].
  split; [reflexivity |].
  apply Forall_cons in Hchan as [(filename & cause & ->) _]. constructor.
Qed.


(** X17.  [Download] returns an error or a path, never both and never
    neither: with an error the path is empty and the error is that of the
    step that failed (the listing, the home directory, one of the
    directories of the layout, the snapshot directory, or a file, under its
    name); without one the path is not empty. *)
Theorem Download_error_or_path {S : Type} (h : handler S) (sched : list nat)
    (d : Downloader) (modelRepo revision : string) (s : S) :
  match (Download h sched d modelRepo revision s).1.1 with
  | Returned path (Some err) => path = "" ∧ Download_error err
  | Returned path None => path ≠ ""
  | Panicked _ _ => True
  end.
Proof. apply Download_outcome. Qed.

Lemma create_dirs_ok {S : Type} (h : handler S) (dirs : list string)
    (s s' : S) (tr : list event) :
  exec h (create_dirs dirs) s = (None, tr, s') →
  tr = (λ dir, Call (MkdirAll dir) None) <$> dirs.
Proof.
  revert s tr. induction dirs as [| dir rest IH]; intros s tr; simpl.
  - intros [= <- <-]. reflexivity.
  - destruct (h _ (MkdirAll dir) s) as [[err |] s1]; simpl; [discriminate |].
    destruct (exec h (create_dirs rest) s1) as [[r tr1] s2] eqn:E.
    intros [= -> <- <-]. rewrite (IH _ _ E). reflexivity.
Qed.

(** X18.  When [Download] succeeds, the folder it returns and the
    directories [blobs], [refs] and [snapshots] under it have each been
    made by a call that was answered without error. *)
Theorem Download_makes_the_layout {S : Type} (h : handler S) (sched : list nat)
    (d : Downloader) (modelRepo revision : string) (s s' : S)
    (path : string) (tr : list event) :
  Download h sched d modelRepo revision s = (Returned path None, tr, s') →
  Forall (λ dir, Call (MkdirAll dir) None ∈ tr)
    [path; Path.Join [path; "blobs"]; Path.Join [path; "refs"];
     Path.Join [path; "snapshots"]].
Proof.
  unfold Download.
  destruct (exec h (Download_setup _ _ _) s) as [[r tra] sa] eqn:Hsetup.
  pose proof (Download_setup_inv h _ _ _ _ _ _ _ Hsetup) as Hinv.
  destruct r as [out | fo].
  { intros [= -> <- <-]. exact (False_ind _ Hinv). }
  destruct (run_pool h sched _ [] sa) as [[chan trb] sb].
  destruct chan as [| err chan]; [| discriminate].
  intros [= <- <- <-].
  destruct Hinv as (res & mi & c & tr0 & s0 & tr1 & s1 & tr2 & s2 & trw & s3
                    & _ & _ & _ & H2 & _ & _ & Htr & _).
  apply create_dirs_ok in H2. subst tra tr2.
  apply Forall_forall. intros dir Hdir.
  rewrite !elem_of_app. left. right. right. left.
  apply list_elem_of_fmap. exists dir. split; [reflexivity | exact Hdir].
Qed.

End Outcome.

(** The end-to-end run. *)
Lemma Download_makes_the_layout_witness :
  let run := Run.download [] "org/tiny-model" Scenario.tiny_machine in
  run.1.1 = Returned "/models" None
  ∧ Forall (λ dir, Call (MkdirAll dir) None ∈ run.1.2)
      ["/models"; Path.Join ["/models"; "blobs"]; Path.Join ["/models"; "refs"];
       Path.Join ["/models"; "snapshots"]].
Proof.
  intros run.
  assert (H1 : run.1.1 = Returned "/models" None) by (vm_compute; reflexivity).
  split; [exact H1 |].
  assert (Hrun : Download (H := reference_lib) World.step [] Fixture.downloader
                   "org/tiny-model" "main" Scenario.tiny_machine
                 = (Returned "/models" None, run.1.2, run.2)).
  { transitivity (run.1.1, run.1.2, run.2); [apply (run_eta run) |]. do 2 f_equal. }
  exact (Download_makes_the_layout (H := reference_lib) World.step [] Fixture.downloader
           "org/tiny-model" "main" Scenario.tiny_machine run.2 "/models" run.1.2 Hrun).
Defined.


Section Hub.
Context `{GoLib}.






Lemma run_pool_idle {S : Type} (h : handler S) (sched : list nat)
    (chan : list error) (s : S) :
  run_pool h sched [] chan s = (chan, [], s).
Proof. destruct sched; reflexivity. Qed.

(** X20.  Nothing to fetch.  When every entry of the manifest is ignored, and
    so when the manifest is empty, no goroutine is launched: under every
    schedule [Download] does what it does before the fan-out and nothing
    more, and returns the storage folder if that went well. *)
Theorem Download_nothing_to_fetch {S : Type} (h : handler S) (sched : list nat)
    (d : Downloader) (modelRepo revision : string) (s s0 : S)
    (res : list Regexp) (modelInfo : ModelInfo) (commitHash : string)
    (tr0 : list event) :
  MustCompile_all (ignorePatterns d) = inr res →
  exec h (getModelInfo modelRepo (default_revision revision)) s
    = (inr (modelInfo, commitHash), tr0, s0) →
  Forall (λ f, shouldDownload res (RID f) = false) (Siblings modelInfo) →
  let setup := exec h (Download_setup d modelRepo revision) s in
  Download h sched d modelRepo revision s
  = (match setup.1.1 with
     | inl out => out
     | inr fo => Returned (fo_storage fo) None
     end, setup.1.2, setup.2).
Proof.
  intros Hres H0 Hign setup. subst setup. unfold Download.
  pose proof (Download_setup_inv h d modelRepo revision s) as Hinv.
  destruct (exec h (Download_setup d modelRepo revision) s) as [[r tr] s1].
  specialize (Hinv _ _ _ eq_refl). simpl.
  destruct r as [out | fo]; [reflexivity |].
  destruct Hinv as (res' & mi & c & tr0' & s0' & tr1 & s1' & tr2 & s2 & trw & s3
                    & Hres' & H0' & _ & _ & _ & _ & _ & Hlaunch).
  assert (res' = res) by congruence. subst res'.
  rewrite H0 in H0'. injection H0' as <- <- <- <-.
  rewrite launch_filter in Hlaunch.
  assert (Hnone : filter (λ f, shouldDownload res (RID f) = true) (Siblings modelInfo) = []).
  { clear Hlaunch. induction Hign as [| f fs Hf _ IH]; [reflexivity |].
    rewrite filter_cons_False by congruence. exact IH. }
  rewrite Hnone in Hlaunch. rewrite Hlaunch. simpl.
  rewrite run_pool_idle. rewrite app_nil_r. reflexivity.
Qed.

End Hub.

(** Both files of [org/tiny-model] ignored. *)
Lemma Download_nothing_to_fetch_witness :
  let d := SetIgnorePatterns Fixture.downloader ["\.json$"; "\.md$"] in
  let first := Run.resolve "org/tiny-model" (default_revision "main") Scenario.tiny_machine in
  let setup := Run.setup d "org/tiny-model" "main" Scenario.tiny_machine in
  ∃ res modelInfo commitHash,
    MustCompile_all (H := reference_lib) (ignorePatterns d) = inr res
    ∧ first.1.1 = inr (modelInfo, commitHash)
    ∧ Forall (λ f, shouldDownload (H := reference_lib) res (RID f) = false)
        (Siblings modelInfo)
    ∧ Download (H := reference_lib) World.step Scenario.overlapping d
        "org/tiny-model" "main" Scenario.tiny_machine
      = (match setup.1.1 with
         | inl out => out
         | inr fo => Returned (fo_storage fo) None
         end, setup.1.2, setup.2)
    ∧ setup.1.1 = inr (mkFanout "/models" []).
Proof.
  intros d first setup.
  set (res := match MustCompile_all (H := reference_lib) (ignorePatterns d) with
              | inr r => r
              | inl _ => []
              end).
  set (modelInfo := mkModelInfo (siblings_of Fixture.tiny_listing)).
  exists res, modelInfo, "c0ffee".
  assert (H1 : MustCompile_all (H := reference_lib) (ignorePatterns d) = inr res)
    by reflexivity.
  assert (H2 : first.1.1 = inr (modelInfo, "c0ffee")) by (vm_compute; reflexivity).
  assert (H3 : Forall (λ f, shouldDownload (H := reference_lib) res (RID f) = false)
                 (Siblings modelInfo)).
  { repeat (constructor; [vm_compute; reflexivity |]). constructor. }
  assert (H0 : exec World.step
                 (getModelInfo (H := reference_lib) "org/tiny-model" (default_revision "main"))
                 Scenario.tiny_machine
               = (inr (modelInfo, "c0ffee"), first.1.2, first.2)).
  { transitivity (first.1.1, first.1.2, first.2); [apply (run_eta first) |].
    rewrite H2. reflexivity. }
  split; [exact H1 |]. split; [exact H2 |]. split; [exact H3 |].
  split; [| vm_compute; reflexivity].
  exact (Download_nothing_to_fetch (H := reference_lib) World.step Scenario.overlapping d
           "org/tiny-model" "main" Scenario.tiny_machine first.2 res modelInfo "c0ffee"
           first.1.2 H1 H0 H3).
Defined.

(** X21.  The command reads one, two or three arguments.  Without an
    argument, and also with four or more, it takes none of them: it
    downloads [openai-community/gpt2] at [main] into the default cache. *)
Theorem main_arguments (Args : list string) :
  (length Args < 2 ∨ 4 < length Args)%nat →
  parse_args Args = ("openai-community/gpt2", "main", "").
Proof.
  intros Hn. unfold parse_args.
  destruct (Nat.eqb_spec (length Args) 4); [lia |].
  destruct (Nat.eqb_spec (length Args) 3); [lia |].
  destruct (Nat.eqb_spec (length Args) 2); [lia |]. reflexivity.
Qed.

Lemma main_arguments_witness :
  (length ["hf"; "org/tiny-model"; "main"; "/models"; "--verbose"] < 2
   ∨ 4 < length ["hf"; "org/tiny-model"; "main"; "/models"; "--verbose"])%nat
  ∧ parse_args ["hf"; "org/tiny-model"; "main"; "/models"; "--verbose"]
    = ("openai-community/gpt2", "main", "").
Proof.
  assert (Hn : (length ["hf"; "org/tiny-model"; "main"; "/models"; "--verbose"] < 2
                ∨ 4 < length ["hf"; "org/tiny-model"; "main"; "/models"; "--verbose"])%nat)
    by (right; simpl; lia).
  split; [exact Hn |]. apply main_arguments, Hn.
Defined.

Section Command.
Context `{GoLib} {S : Type} (h : handler S).

Lemma Download_custom_path (sched : list nat) (d : Downloader)
    (modelRepo revision : string) (s s' : S) (path : string) (tr : list event) :
  Download h sched d modelRepo revision s = (Returned path None, tr, s') →
  customPath d ≠ "" → path = customPath d.
Proof.
  unfold Download.
  destruct (exec h (Download_setup _ _ _) s) as [[r tra] sa] eqn:Hsetup.
  pose proof (Download_setup_inv h _ _ _ _ _ _ _ Hsetup) as Hinv.
  destruct r as [out | fo].
  { intros [= -> <- <-]. exact (False_ind _ Hinv). }
  destruct (run_pool h sched _ [] sa) as [[chan trb] sb].
  destruct chan as [| err chan]; [| discriminate].
  intros [= <- <- <-] Hc.
  destruct Hinv as (res & mi & c & tr0 & s0 & tr1 & s1 & tr2 & s2 & trw & s3
                    & _ & _ & H1 & _).
  apply storage_location_run in H1 as [(_ & -> & _) | (Hc' & _)];
    [reflexivity | contradiction].
Qed.

(** X22.  How the command ends.  It exits with status 0 after the line that
    gives the folder [Download] returned, which is not empty and is the
    custom path of the command line, as typed, when one was given; or it
    exits with status 1 after the line that gives the error of the step of
    [Download] that failed.  It prints no line after a panic. *)
Theorem main_ends (sched : list nat) (Args : list string) (s : S) :
  let run := main h sched Args s in
  match main_ending run with
  | Exited code =>
      (code = 0
       ∧ ∃ downloadPath,
           lines_after run = [LineDownloaded downloadPath] ∧ downloadPath ≠ ""
           ∧ ((parse_args Args).2 ≠ "" → downloadPath = (parse_args Args).2))
      ∨ (code = 1 ∧ ∃ err, lines_after run = [LineError err] ∧ Download_error err)
  | Panicking _ _ => lines_after run = []
  end.
Proof.
  unfold main. destruct (parse_args Args) as [[modelRepo revision] customPath].
  simpl snd.
  set (downloader := if negb (String.eqb customPath "")
                     then SetCustomPath NewDownloader customPath else NewDownloader).
  pose proof (Download_outcome h sched downloader modelRepo revision s) as Hout.
  pose proof (Download_custom_path sched downloader modelRepo revision s) as Hpath.
  destruct (Download h sched downloader modelRepo revision s) as [[out tr] s'].
  simpl in Hout. destruct out as [path [err |] | pattern err]; simpl.
  - right. split; [reflexivity |]. exists err. split; [reflexivity | apply Hout].
  - left. split; [reflexivity |]. exists path. split; [reflexivity |].
    split; [exact Hout |]. intros Hc.
    rewrite (Hpath s' path tr eq_refl).
    + subst downloader. apply String.eqb_neq in Hc. rewrite Hc. reflexivity.
    + subst downloader. apply String.eqb_neq in Hc. rewrite Hc. simpl.
      apply String.eqb_neq. exact Hc.
  - reflexivity.
Qed.

End Command.
